(** * Practical string searching: a shallow embedding of search.c and mygrep.c

    The development models the eleven matchers of [search.c] (six taking
    explicit lengths, five taking NUL-terminated strings) and [main] of
    [mygrep.c] with its options and its line-scan loop, settles the claims of
    the specification on them, and proves what each matcher and the scan
    return.

    Platform conventions (x86-64, gcc): [char] is one signed byte, [int] and
    [unsigned int] are 32 bits wide, [size_t] is 64 bits wide.  Unsigned
    arithmetic wraps around; it is written out with [u32] and [size_sub]. *)

From Stdlib.Strings Require Import Byte String.
From Stdlib Require Import ZArith List Lia Bool Sorted.
From Equations Require Import Equations.
Import ListNotations.

Local Open Scope Z_scope.

(** ** Machine integers *)

Definition UINT_MOD : Z := 2 ^ 32.
Definition SIZE_MOD : Z := 2 ^ 64.

(** [unsigned int] arithmetic is taken modulo [2^32]. *)
Definition u32 (z : Z) : Z := z mod UINT_MOD.

(** [a - b] on [size_t]. *)
Definition size_sub (a b : Z) : Z := (a - b) mod SIZE_MOD.

(** [sizeof(int)]. *)
Definition sizeof_int : Z := 4.

(** ** Bytes *)

Definition NUL : byte := x00.
Definition NEWLINE : byte := x0a.

(** [(unsigned char) c] as an integer. *)
Definition uchar (c : byte) : Z := Z.of_N (Byte.to_N c).

(** The value of a [char] when promoted to [int]: [char] is signed. *)
Definition char_val (c : byte) : Z :=
  if uchar c <? 128 then uchar c else uchar c - 256.

(** [!c] for a [char]. *)
Definition is_nul (c : byte) : bool := Byte.eqb c NUL.

(** The bytes of a text literal. *)
Definition bytes (s : string) : list byte := list_byte_of_string s.

(** ** Outcomes

    A C call either returns or has undefined behaviour.  The embedding makes
    the second case visible: every access to memory is checked against the
    extent of the object it goes to. *)

Inductive fault : Type :=
| BadHaystackRead   (* read outside the memory of the haystack *)
| BadNeedleRead     (* read outside the memory of the needle *)
| BadTableAccess    (* read or write outside the KMP failure table *)
| BadBufferRead     (* read outside the file buffer of mygrep *)
| OutOfFuel.        (* a loop of the model used up its iteration budget *)

Inductive res (A : Type) : Type :=
| Ok (a : A)
| Fault (f : fault).
Arguments Ok {A} a.
Arguments Fault {A} f.

Definition bind {A B : Type} (m : res A) (k : A -> res B) : res B :=
  match m with
  | Ok a => k a
  | Fault f => Fault f
  end.

Notation "x <- m ;; k" := (bind m (fun x => k))
  (at level 61, m at next level, right associativity).

(** ** Memory

    A non-null pointer is modelled by the bytes of its object from the
    pointer on; [None] is the null pointer.  A pointer derived from it is an
    offset.  A matcher returns [None] for [NULL] and [Some p] for
    [haystack + p]. *)

Definition mem : Type := list byte.
Definition ptr : Type := option mem.

Definition NULL : option Z := None.

(** [m[i]], checked. *)
Definition rd (f : fault) (m : mem) (i : Z) : res byte :=
  if i <? 0 then Fault f
  else match nth_error m (Z.to_nat i) with
       | Some c => Ok c
       | None => Fault f
       end.

Definition rdH : mem -> Z -> res byte := rd BadHaystackRead.
Definition rdN : mem -> Z -> res byte := rd BadNeedleRead.

(** ** The C library functions used by search.c *)

(** [strlen(s + p) ] counted from [acc]: the index of the first NUL. *)
Fixpoint strlen_from (f : fault) (rest : mem) (acc : Z) : res Z :=
  match rest with
  | [] => Fault f
  | c :: rest' => if is_nul c then Ok acc else strlen_from f rest' (acc + 1)
  end.

Definition strlen (f : fault) (s : mem) : res Z := strlen_from f s 0.

(** [memchr(s + p, c, n)]: the offset (from [s]) of the first of the [n]
    bytes at [s + p] that equals [c]. *)
Fixpoint memchr (f : fault) (n : nat) (s : mem) (p : Z) (c : byte)
  : res (option Z) :=
  match n with
  | O => Ok None
  | S n' =>
      a <- rd f s p ;;
      if Byte.eqb a c then Ok (Some p) else memchr f n' s (p + 1) c
  end.

(** [strchr(s + p, c)] for the bytes [rest] at [s + p]. *)
Fixpoint strchr_from (f : fault) (rest : mem) (p : Z) (c : byte)
  : res (option Z) :=
  match rest with
  | [] => Fault f
  | a :: rest' =>
      if Byte.eqb a c then Ok (Some p)
      else if is_nul a then Ok None
      else strchr_from f rest' (p + 1) c
  end.

(** [memcmp(a + pa, b + pb, n) == 0]. *)
Fixpoint memcmp_eq (fa fb : fault) (n : nat) (a : mem) (pa : Z) (b : mem) (pb : Z)
  : res bool :=
  match n with
  | O => Ok true
  | S n' =>
      x <- rd fa a pa ;;
      y <- rd fb b pb ;;
      r <- memcmp_eq fa fb n' a (pa + 1) b (pb + 1) ;;
      Ok (Byte.eqb x y && r)
  end.

(** ** search.c *)

(** *** Naive search *)

(** [while (needle[i]) { if (haystack[i] != needle[i]) break; i++; }]
    of searchSimpleString, for the needle bytes [nrest] at [needle + i];
    the value is the final [i]. *)
Fixpoint simpleString_cmp (nrest : mem) (h : mem) (p i : Z) : res Z :=
  match nrest with
  | [] => Fault BadNeedleRead
  | b :: nrest' =>
      if is_nul b then Ok i
      else
        a <- rdH h (p + i) ;;
        if Byte.eqb a b then simpleString_cmp nrest' h p (i + 1) else Ok i
  end.

(** The loop [while ( *haystack ) { ... haystack++; }] of searchSimpleString,
    for the haystack bytes [hrest] at [haystack + p]. *)
Fixpoint simpleString_loop (hrest : mem) (h n : mem) (p : Z) : res (option Z) :=
  match hrest with
  | [] => Fault BadHaystackRead
  | c :: hrest' =>
      if is_nul c then Ok NULL
      else
        i <- simpleString_cmp n h p 0 ;;
        b <- rdN n i ;;
        if is_nul b then Ok (Some p)
        else simpleString_loop hrest' h n (p + 1)
  end.

Definition searchSimpleString (haystack needle : ptr) : res (option Z) :=
  match haystack, needle with
  | Some h, Some n => simpleString_loop h h n 0
  | _, _ => Ok NULL
  end.

(** [for (; i < needleLength; i++) if (haystack[i] != needle[i]) break;]
    with [cnt] iterations left; the value is the final [i]. *)
Fixpoint simple_cmp (cnt : nat) (h n : mem) (p i : Z) : res Z :=
  match cnt with
  | O => Ok i
  | S cnt' =>
      a <- rdH h (p + i) ;;
      b <- rdN n i ;;
      if Byte.eqb a b then simple_cmp cnt' h n p (i + 1) else Ok i
  end.

(** [while (haystack != haystackEnd) { ... haystack++; }] with
    [cnt = haystackEnd - haystack]. *)
Fixpoint simple_loop (cnt : nat) (h n : mem) (needleLength : Z) (p : Z)
  : res (option Z) :=
  match cnt with
  | O => Ok NULL
  | S cnt' =>
      i <- simple_cmp (Z.to_nat needleLength) h n p 0 ;;
      if i =? needleLength then Ok (Some p)
      else simple_loop cnt' h n needleLength (p + 1)
  end.

Definition searchSimple (haystack : ptr) (haystackLength : Z)
                        (needle : ptr) (needleLength : Z) : res (option Z) :=
  match haystack, needle with
  | Some h, Some n =>
      if haystackLength <? needleLength then Ok NULL
      else
        let haystackLength := size_sub haystackLength (size_sub needleLength 1) in
        simple_loop (Z.to_nat haystackLength) h n needleLength 0
  | _, _ => Ok NULL
  end.

(** [n == 0] for a [size_t], which is never negative; the answer comes
    with the evidence that the code after the test relies on. *)
Definition size_eq0 (n : Z) : {n <= 0} + {0 < n} :=
  match Z_le_gt_dec n 0 with
  | left H => left H
  | right H => right (Z.gt_lt _ _ H)
  end.

(** *** Knuth-Morris-Pratt *)

Definition MaxLocalMemory : Z := 256.

(** The failure table [int* skip]: [None] is an entry never written. *)
Definition table : Type := list (option Z).

(** [int localMemory[MaxLocalMemory]], replaced by
    [malloc(needleLength * sizeof(int))] when [needleLength > MaxLocalMemory]
    (the allocation is taken to succeed). *)
Definition kmp_alloc (needleLength : Z) : table :=
  if needleLength >? MaxLocalMemory
  then repeat None (Z.to_nat needleLength)
  else repeat None (Z.to_nat MaxLocalMemory).

Definition tbl_get (t : table) (i : Z) : res Z :=
  if i <? 0 then Fault BadTableAccess
  else match nth_error t (Z.to_nat i) with
       | Some (Some v) => Ok v
       | _ => Fault BadTableAccess
       end.

Fixpoint list_set {A : Type} (l : list A) (i : nat) (v : A) : list A :=
  match l, i with
  | [], _ => []
  | _ :: l', O => v :: l'
  | x :: l', S i' => x :: list_set l' i' v
  end.

Definition tbl_set (t : table) (i : Z) (v : Z) : res table :=
  if (0 <=? i) && (i <? Z.of_nat (length t))
  then Ok (list_set t (Z.to_nat i) (Some v))
  else Fault BadTableAccess.

(** [while (skip[i + 1] > 0 && needle[i] != needle[skip[i + 1] - 1])
      skip[i + 1] = skip[skip[i + 1] - 1] + 1;] *)
Fixpoint kmp_fallback (fuel : nat) (n : mem) (skip : table) (i : Z) : res table :=
  v <- tbl_get skip (i + 1) ;;
  if 0 <? v then
    a <- rdN n i ;;
    b <- rdN n (v - 1) ;;
    if Byte.eqb a b then Ok skip
    else match fuel with
         | O => Fault OutOfFuel
         | S fuel' =>
             w <- tbl_get skip (v - 1) ;;
             skip' <- tbl_set skip (i + 1) (w + 1) ;;
             kmp_fallback fuel' n skip' i
         end
  else Ok skip.

(** The body of the loop that prepares the table. *)
Definition kmp_prepare_step (fuel : nat) (n : mem) (skip : table) (i : Z) : res table :=
  v <- tbl_get skip i ;;
  skip1 <- tbl_set skip (i + 1) (v + 1) ;;
  kmp_fallback fuel n skip1 i.

(** [for (i = 0; i < needleLength; i++) { ... }] with [cnt] iterations left. *)
Fixpoint kmp_prepare (cnt : nat) (fuel : nat) (n : mem) (skip : table) (i : Z)
  : res table :=
  match cnt with
  | O => Ok skip
  | S cnt' =>
      skip' <- kmp_prepare_step fuel n skip i ;;
      kmp_prepare cnt' fuel n skip' (i + 1)
  end.

(** [for (i = 0; needle[i]; i++) { ... }] for the needle bytes [nrest] at
    [needle + i]. *)
Fixpoint kmpString_prepare (nrest : mem) (fuel : nat) (n : mem) (skip : table) (i : Z)
  : res table :=
  match nrest with
  | [] => Fault BadNeedleRead
  | b :: nrest' =>
      if is_nul b then Ok skip
      else
        skip' <- kmp_prepare_step fuel n skip i ;;
        kmpString_prepare nrest' fuel n skip' (i + 1)
  end.

(** [while (shift >= 0 && *haystack != needle[shift]) shift = skip[shift];]
    with the haystack pointer at [haystack + p]; the value is the final
    [shift]. *)
Fixpoint kmp_shift (fuel : nat) (h n : mem) (skip : table) (p shift : Z) : res Z :=
  if 0 <=? shift then
    a <- rdH h p ;;
    b <- rdN n shift ;;
    if Byte.eqb a b then Ok shift
    else match fuel with
         | O => Fault OutOfFuel
         | S fuel' =>
             s <- tbl_get skip shift ;;
             kmp_shift fuel' h n skip p s
         end
  else Ok shift.

(** [while (haystack != haystackEnd) { ... }] with
    [cnt = haystackEnd - haystack]. *)
Fixpoint kmp_scan (cnt : nat) (fuel : nat) (h n : mem) (skip : table)
                  (needleLength : Z) (p shift : Z) : res (option Z) :=
  match cnt with
  | O => Ok NULL
  | S cnt' =>
      shift1 <- kmp_shift fuel h n skip p shift ;;
      let p := p + 1 in
      let shift := shift1 + 1 in
      if shift =? needleLength then Ok (Some (p - shift))
      else kmp_scan cnt' fuel h n skip needleLength p shift
  end.

(** The scan loop of the string variant, for the haystack bytes [hrest] at
    [haystack + p]. *)
Fixpoint kmpString_scan (hrest : mem) (fuel : nat) (h n : mem) (skip : table)
                        (p shift : Z) : res (option Z) :=
  match hrest with
  | [] => Fault BadHaystackRead
  | c :: hrest' =>
      if is_nul c then Ok NULL
      else
        shift1 <- kmp_shift fuel h n skip p shift ;;
        let p := p + 1 in
        let shift := shift1 + 1 in
        b <- rdN n shift ;;
        if is_nul b then Ok (Some (p - shift))
        else kmpString_scan hrest' fuel h n skip p shift
  end.

(** Each of the two inner loops lowers a value that starts below
    [needleLength + 1] and stops at zero or below. *)
Definition kmp_fuel (needleLength : Z) : nat := S (Z.to_nat needleLength).

Definition searchKnuthMorrisPrattString (haystack needle : ptr) : res (option Z) :=
  match haystack, needle with
  | Some h, Some n =>
      needleLength <- strlen BadNeedleRead n ;;
      if size_eq0 needleLength then Ok (Some 0)
      else
        let fuel := kmp_fuel needleLength in
        skip <- tbl_set (kmp_alloc needleLength) 0 (-1) ;;
        skip <- kmpString_prepare n fuel n skip 0 ;;
        kmpString_scan h fuel h n skip 0 0
  | _, _ => Ok NULL
  end.

Definition searchKnuthMorrisPratt (haystack : ptr) (haystackLength : Z)
                                  (needle : ptr) (needleLength : Z)
  : res (option Z) :=
  match haystack, needle with
  | Some h, Some n =>
      if haystackLength <? needleLength then Ok NULL
      else if size_eq0 needleLength then Ok (Some 0)
      else
        let fuel := kmp_fuel needleLength in
        skip <- tbl_set (kmp_alloc needleLength) 0 (-1) ;;
        skip <- kmp_prepare (Z.to_nat needleLength) fuel n skip 0 ;;
        kmp_scan (Z.to_nat haystackLength) fuel h n skip needleLength 0 0
  | _, _ => Ok NULL
  end.

(** *** Boyer-Moore-Horspool *)

(** An array indexed by [unsigned char] is a total function on bytes. *)
Definition tbl_upd (t : byte -> Z) (c : byte) (v : Z) : byte -> Z :=
  fun x => if Byte.eqb x c then v else t x.

(** [for (pos = 0; pos < lastPos; pos++)
      skip[(unsigned char)needle[pos]] = lastPos - pos;]
    with [cnt = lastPos - pos] iterations left; under the loop test the
    subtraction cannot wrap around. *)
Fixpoint bmh_fill (cnt : nat) (n : mem) (lastPos : Z) (skip : byte -> Z) (pos : Z)
  : res (byte -> Z) :=
  match cnt with
  | O => Ok skip
  | S cnt' =>
      c <- rdN n pos ;;
      bmh_fill cnt' n lastPos (tbl_upd skip c (lastPos - pos)) (pos + 1)
  end.

(** The table after both preparation loops. *)
Definition bmh_table (n : mem) (needleLength : Z) : res (byte -> Z) :=
  let lastPos := size_sub needleLength 1 in
  bmh_fill (Z.to_nat lastPos) n lastPos (fun _ => needleLength) 0.

(** [for (i = lastPos; haystack[i] == needle[i]; i--) if (i == 0) return haystack;]
    the value tells whether the [return] was reached. *)
Fixpoint bmh_compare (i : nat) (h n : mem) (p : Z) : res bool :=
  a <- rdH h (p + Z.of_nat i) ;;
  b <- rdN n (Z.of_nat i) ;;
  if Byte.eqb a b then
    match i with
    | O => Ok true
    | S i' => bmh_compare i' h n p
    end
  else Ok false.

(** What the search loop needs from the table to make progress. *)
Definition bmh_skip_ok (needleLength : Z) (skip : byte -> Z) : Prop :=
  forall c, 1 <= skip c <= needleLength.

Lemma bmh_fill_ok (needleLength lastPos : Z) (n : mem) :
  lastPos < needleLength ->
  forall cnt skip pos skip',
    0 <= pos -> pos + Z.of_nat cnt = lastPos ->
    bmh_skip_ok needleLength skip ->
    bmh_fill cnt n lastPos skip pos = Ok skip' ->
    bmh_skip_ok needleLength skip'.
Proof.
  intros Hlast. induction cnt as [|cnt IH]; intros skip pos skip' Hpos Hcnt Hok; simpl.
  - intros E. injection E as <-. exact Hok.
  - destruct (rdN n pos) as [c|f]; simpl; [|discriminate].
    apply IH; [lia | lia |].
    intros x. unfold tbl_upd. destruct (Byte.eqb x c); [lia | apply Hok].
Qed.

Lemma bmh_table_ok (n : mem) (needleLength : Z) (skip : byte -> Z) :
  0 < needleLength ->
  bmh_table n needleLength = Ok skip ->
  bmh_skip_ok needleLength skip.
Proof.
  intros Hpos. unfold bmh_table.
  assert (Hlast : 0 <= size_sub needleLength 1 <= needleLength - 1).
  { unfold size_sub, SIZE_MOD. split.
    - apply Z.mod_pos_bound. lia.
    - apply Z.mod_le; lia. }
  apply bmh_fill_ok with (needleLength := needleLength); try lia.
  intros c. lia.
Qed.

(** [while (haystackLength >= needleLength) { ... haystackLength -= skip[marker];
    haystack += skip[marker]; }] with the haystack pointer at [haystack + p].
    The recursion is well founded on the remaining length: a table entry is at
    least one and at most [needleLength], which the loop test bounds by
    [haystackLength]. *)
Equations? bmh_loop (h n : mem) (needleLength lastPos : Z) (skip : byte -> Z)
                    (Hskip : bmh_skip_ok needleLength skip)
                    (p haystackLength : Z) : res (option Z)
  by wf (Z.to_nat haystackLength) lt :=
  bmh_loop h n needleLength lastPos skip Hskip p haystackLength
    with Z_le_dec needleLength haystackLength := {
    | right _ => Ok NULL
    | left Hle with bmh_compare (Z.to_nat lastPos) h n p := {
        | Fault f => Fault f
        | Ok true => Ok (Some p)
        | Ok false with rdH h (p + lastPos) := {
            | Fault f => Fault f
            | Ok marker =>
                bmh_loop h n needleLength lastPos skip Hskip
                         (p + skip marker)
                         (size_sub haystackLength (skip marker)) } } }.
Proof.
  pose proof (Hskip marker) as Hm.
  assert (size_sub haystackLength (skip marker) <= haystackLength - skip marker).
  { unfold size_sub, SIZE_MOD. apply Z.mod_le; lia. }
  assert (0 <= size_sub haystackLength (skip marker)).
  { unfold size_sub, SIZE_MOD. apply Z.mod_pos_bound. lia. }
  lia.
Qed.

Definition searchBoyerMooreHorspool (haystack : ptr) (haystackLength : Z)
                                    (needle : ptr) (needleLength : Z)
  : res (option Z) :=
  match haystack, needle with
  | Some h, Some n =>
      if haystackLength <? needleLength then Ok NULL
      else
        match size_eq0 needleLength with
        | left _ => Ok (Some 0)
        | right Hpos =>
            match bmh_table n needleLength as t
                  return bmh_table n needleLength = t -> res (option Z) with
            | Fault f => fun _ => Fault f
            | Ok skip => fun E =>
                bmh_loop h n needleLength (size_sub needleLength 1) skip (bmh_table_ok n needleLength skip Hpos E)
                         0 haystackLength
            end eq_refl
        end
  | _, _ => Ok NULL
  end.

Definition searchBoyerMooreHorspoolString (haystack needle : ptr) : res (option Z) :=
  match haystack, needle with
  | Some h, Some n =>
      haystackLength <- strlen BadHaystackRead h ;;
      needleLength <- strlen BadNeedleRead n ;;
      searchBoyerMooreHorspool haystack haystackLength needle needleLength
  | _, _ => Ok NULL
  end.

(** *** Bitap *)

Definition MaxBitWidth : Z := 8 * sizeof_int - 1.

(** [for (i = 0; i < needleLength; i++) masks[(unsigned char)needle[i]] &= ~(1 << i);]
    with [cnt] iterations left.  The [int] operand is converted to
    [unsigned int] before the conjunction. *)
Fixpoint bitap_fill (cnt : nat) (n : mem) (masks : byte -> Z) (i : Z)
  : res (byte -> Z) :=
  match cnt with
  | O => Ok masks
  | S cnt' =>
      c <- rdN n i ;;
      bitap_fill cnt' n
                 (tbl_upd masks c (Z.land (masks c) (u32 (Z.lnot (Z.shiftl 1 i)))))
                 (i + 1)
  end.

(** The masks after both preparation loops; every entry starts as [~0]. *)
Definition bitap_masks (n : mem) (needleLength : Z) : res (byte -> Z) :=
  bitap_fill (Z.to_nat needleLength) n (fun _ => u32 (Z.lnot 0)) 0.

(** [state |= masks[(unsigned char)*haystack]; state <<= 1;] *)
Definition bitap_step (masks : byte -> Z) (state : Z) (c : byte) : Z :=
  let state := Z.lor state (masks c) in
  u32 (Z.shiftl state 1).

(** [while (haystack != haystackEnd) { ... haystack++; }] with
    [cnt = haystackEnd - haystack] and the haystack pointer at [haystack + p]. *)
Fixpoint bitap_scan (cnt : nat) (h : mem) (masks : byte -> Z)
                    (needleLength FullMatch : Z) (p state : Z) : res (option Z) :=
  match cnt with
  | O => Ok NULL
  | S cnt' =>
      c <- rdH h p ;;
      let state := bitap_step masks state c in
      if Z.land state FullMatch =? 0 then Ok (Some ((p - needleLength) + 1))
      else bitap_scan cnt' h masks needleLength FullMatch (p + 1) state
  end.

(** The scan loop of the string variant, for the haystack bytes [hrest] at
    [haystack + p]. *)
Fixpoint bitapString_scan (hrest : mem) (masks : byte -> Z)
                          (needleLength FullMatch : Z) (p state : Z)
  : res (option Z) :=
  match hrest with
  | [] => Fault BadHaystackRead
  | c :: hrest' =>
      if is_nul c then Ok NULL
      else
        let state := bitap_step masks state c in
        if Z.land state FullMatch =? 0 then Ok (Some ((p - needleLength) + 1))
        else bitapString_scan hrest' masks needleLength FullMatch (p + 1) state
  end.

(** *** Rabin-Karp *)

(** The loop that sums the needle and the first window; [None] stands for
    its [return NULL]. *)
Fixpoint rk_hash (cnt : nat) (h n : mem) (q i hashNeedle hashHaystack : Z)
  : res (option (Z * Z)) :=
  match cnt with
  | O => Ok (Some (hashNeedle, hashHaystack))
  | S cnt' =>
      a <- rdH h (q + i) ;;
      if is_nul a then Ok None
      else
        b <- rdN n i ;;
        rk_hash cnt' h n q (i + 1)
                (u32 (hashNeedle + char_val b)) (u32 (hashHaystack + char_val a))
  end.

(** [memcmp(haystack, needle, needleLength) == 0], called only when the two
    sums agree. *)
Definition rk_verify (h n : mem) (needleLength hashNeedle p hashHaystack : Z)
  : res bool :=
  if hashHaystack =? hashNeedle
  then memcmp_eq BadHaystackRead BadNeedleRead (Z.to_nat needleLength) h p n 0
  else Ok false.

(** [while (haystack != haystackEnd) { ... }] with the haystack pointer at
    [haystack + p].  The pointer moves up by one per iteration and the loop
    stops only when it is equal to [haystackEnd]. *)
Fixpoint rk_loop (fuel : nat) (h n : mem) (needleLength haystackEnd hashNeedle : Z)
                 (p hashHaystack : Z) : res (option Z) :=
  if p =? haystackEnd then Ok NULL
  else
    match fuel with
    | O => Fault OutOfFuel
    | S fuel' =>
        found <- rk_verify h n needleLength hashNeedle p hashHaystack ;;
        if found : bool then Ok (Some p)
        else
          a <- rdH h (p + needleLength) ;;
          let hashHaystack := u32 (hashHaystack + char_val a) in
          b <- rdH h p ;;
          let hashHaystack := u32 (hashHaystack - char_val b) in
          rk_loop fuel' h n needleLength haystackEnd hashNeedle (p + 1) hashHaystack
    end.

(** Every iteration of [rk_loop] that goes on has read a byte of the
    haystack's memory at a higher address than the one before. *)
Definition rk_fuel (h : mem) : nat := S (length h).

Definition searchRabinKarp (haystack : ptr) (haystackLength : Z)
                           (needle : ptr) (needleLength : Z) : res (option Z) :=
  match haystack, needle with
  | Some h, Some n =>
      if haystackLength <? needleLength then Ok NULL
      else if size_eq0 needleLength then Ok (Some 0)
      else
        let haystackEnd := haystackLength - needleLength + 1 in
        c <- rdN n 0 ;;
        q <- memchr BadHaystackRead (Z.to_nat haystackLength) h 0 c ;;
        match q with
        | None => Ok NULL
        | Some q =>
            hashes <- rk_hash (Z.to_nat needleLength) h n q 0 0 0 ;;
            match hashes with
            | None => Ok NULL
            | Some (hashNeedle, hashHaystack) =>
                rk_loop (rk_fuel h) h n needleLength haystackEnd hashNeedle
                        q hashHaystack
            end
        end
  | _, _ => Ok NULL
  end.

(** [while ( *scanNeedle && *scanHaystack ) { ... }] of the string variant,
    for the needle bytes [nrest] at [scanNeedle]; the value is the final
    [(scanNeedle, scanHaystack, hashNeedle, hashHaystack)]. *)
Fixpoint rkString_hash (nrest : mem) (h : mem) (sn sh hashNeedle hashHaystack : Z)
  : res (Z * Z * Z * Z) :=
  match nrest with
  | [] => Fault BadNeedleRead
  | b :: nrest' =>
      if is_nul b then Ok (sn, sh, hashNeedle, hashHaystack)
      else
        a <- rdH h sh ;;
        if is_nul a then Ok (sn, sh, hashNeedle, hashHaystack)
        else rkString_hash nrest' h (sn + 1) (sh + 1)
                           (u32 (hashNeedle + char_val b))
                           (u32 (hashHaystack + char_val a))
  end.

(** [for (;;) { ... }] of the string variant, for the haystack bytes [hrest]
    at [scanHaystack] and the haystack pointer at [haystack + p]. *)
Fixpoint rkString_loop (hrest : mem) (h n : mem) (needleLength hashNeedle : Z)
                       (p hashHaystack : Z) : res (option Z) :=
  found <- rk_verify h n needleLength hashNeedle p hashHaystack ;;
  if found : bool then Ok (Some p)
  else
    match hrest with
    | [] => Fault BadHaystackRead
    | a :: hrest' =>
        if is_nul a then Ok NULL
        else
          b <- rdH h p ;;
          let hashHaystack := u32 (hashHaystack - char_val b) in
          let hashHaystack := u32 (hashHaystack + char_val a) in
          rkString_loop hrest' h n needleLength hashNeedle (p + 1) hashHaystack
    end.

Definition searchRabinKarpString (haystack needle : ptr) : res (option Z) :=
  match haystack, needle with
  | Some h, Some n =>
      c <- rdN n 0 ;;
      if is_nul c then Ok (Some 0)
      else
        q <- strchr_from BadHaystackRead h 0 c ;;
        match q with
        | None => Ok NULL
        | Some q =>
            a <- rdH h q ;;
            r <- rkString_hash (skipn 1 n) h 1 (q + 1)
                               (u32 (char_val c)) (u32 (char_val a)) ;;
            let '(scanNeedle, scanHaystack, hashNeedle, hashHaystack) := r in
            b <- rdN n scanNeedle ;;
            if is_nul b then
              let needleLength := scanNeedle in
              rkString_loop (skipn (Z.to_nat scanHaystack) h) h n
                            needleLength hashNeedle q hashHaystack
            else Ok NULL
        end
  | _, _ => Ok NULL
  end.

(** *** Native *)

(** The test of one candidate found by [memchr]: last byte first, then the
    interior. *)
Definition native_verify (h n : mem) (needleLength q : Z) : res bool :=
  a <- rdH h (q + size_sub needleLength 1) ;;
  b <- rdN n (size_sub needleLength 1) ;;
  if Byte.eqb a b then
    if needleLength =? 2 then Ok true
    else memcmp_eq BadHaystackRead BadNeedleRead
                   (Z.to_nat (size_sub needleLength 2)) h (q + 1) n 1
  else Ok false.

(** [while ((haystack = memchr(haystack, *needle, haystackLength)) != NULL)
    { ... }] with the haystack pointer at [haystack + p].  Each iteration
    that goes on leaves fewer bytes to search. *)
Fixpoint native_loop (fuel : nat) (h n : mem) (needleLength haystackEnd : Z)
                     (p haystackLength : Z) : res (option Z) :=
  c <- rdN n 0 ;;
  q <- memchr BadHaystackRead (Z.to_nat haystackLength) h p c ;;
  match q with
  | None => Ok NULL
  | Some q =>
      found <- native_verify h n needleLength q ;;
      if found : bool then Ok (Some q)
      else
        let haystackLength := haystackEnd - q in
        if haystackLength =? 0 then Ok NULL
        else
          match fuel with
          | O => Fault OutOfFuel
          | S fuel' =>
              native_loop fuel' h n needleLength haystackEnd
                          (q + 1) (size_sub haystackLength 1)
          end
  end.

Definition searchNative (haystack : ptr) (haystackLength : Z)
                        (needle : ptr) (needleLength : Z) : res (option Z) :=
  match haystack, needle with
  | Some h, Some n =>
      if haystackLength <? needleLength then Ok NULL
      else if size_eq0 needleLength then Ok (Some 0)
      else if needleLength =? 1 then
        c <- rdN n 0 ;;
        memchr BadHaystackRead (Z.to_nat haystackLength) h 0 c
      else
        let haystackLength := size_sub haystackLength (size_sub needleLength 1) in
        let haystackEnd := haystackLength in
        native_loop (Z.to_nat haystackLength) h n needleLength haystackEnd
                    0 haystackLength
  | _, _ => Ok NULL
  end.

(** The two entry points of Bitap come after the matchers they fall back to. *)

Definition searchBitapString (haystack needle : ptr) : res (option Z) :=
  match haystack, needle with
  | Some h, Some n =>
      needleLength <- strlen BadNeedleRead n ;;
      if size_eq0 needleLength then Ok (Some 0)
      else if needleLength >? MaxBitWidth then searchSimpleString haystack needle
      else
        masks <- bitap_masks n needleLength ;;
        let state := u32 (Z.lnot 1) in
        let FullMatch := u32 (Z.shiftl 1 needleLength) in
        bitapString_scan h masks needleLength FullMatch 0 state
  | _, _ => Ok NULL
  end.

Definition searchBitap (haystack : ptr) (haystackLength : Z)
                       (needle : ptr) (needleLength : Z) : res (option Z) :=
  match haystack, needle with
  | Some h, Some n =>
      if haystackLength <? needleLength then Ok NULL
      else if size_eq0 needleLength then Ok (Some 0)
      else if needleLength >? MaxBitWidth
      then searchNative haystack haystackLength needle needleLength
      else
        masks <- bitap_masks n needleLength ;;
        let state := u32 (Z.lnot 1) in
        let FullMatch := u32 (Z.shiftl 1 needleLength) in
        bitap_scan (Z.to_nat haystackLength) h masks needleLength FullMatch 0 state
  | _, _ => Ok NULL
  end.

(** ** mygrep.c *)

Inductive Algorithm : Type :=
| UseBest
| UseStrStr
| UseMemMem
| UseSimple
| UseNative
| UseKnuthMorrisPratt
| UseBoyerMooreHorspool
| UseBitap
| UseRabinKarp.

Inductive Display : Type :=
| ShowLines
| ShowCountOnly.

(** The state of the scan: the cursor (an offset into the file buffer), the
    hit counter and the lines written so far, oldest first.  [fwrite] followed
    by [putchar('\n')] writes one line. *)
Record scan : Type := mkScan {
  current : Z;
  numHits : Z;
  written : list (list byte)
}.

(** What the process leaves behind: its exit code, the lines written and, in
    count-only mode, the number printed at the end. *)
Record report : Type := mkReport {
  exit_code : Z;
  lines : list (list byte);
  printed_count : option Z
}.

Definition rdB : mem -> Z -> res byte := rd BadBufferRead.

(** The [lineLength] bytes that [fwrite(left, lineLength, 1, stdout)] reads. *)
Definition fwrite_bytes (data : mem) (left lineLength : Z) : res (list byte) :=
  if (0 <=? left) && (left + lineLength <=? Z.of_nat (length data))
  then Ok (firstn (Z.to_nat lineLength) (skipn (Z.to_nat left) data))
  else Fault BadBufferRead.

(** [while (right != haystackEnd && *right != '\n') right++;] *)
Fixpoint find_right (fuel : nat) (data : mem) (haystackEnd right : Z) : res Z :=
  if right =? haystackEnd then Ok right
  else
    c <- rdB data right ;;
    if Byte.eqb c NEWLINE then Ok right
    else match fuel with
         | O => Fault OutOfFuel
         | S fuel' => find_right fuel' data haystackEnd (right + 1)
         end.

(** [while (left != haystack && *left != '\n') left--;] *)
Fixpoint find_left (fuel : nat) (data : mem) (left : Z) : res Z :=
  if left =? 0 then Ok left
  else
    c <- rdB data left ;;
    if Byte.eqb c NEWLINE then Ok left
    else match fuel with
         | O => Fault OutOfFuel
         | S fuel' => find_left fuel' data (left - 1)
         end.

(** [int diff = current - before;] *)
Definition s32 (z : Z) : Z := (z + 2 ^ 31) mod UINT_MOD - 2 ^ 31.

Section Driver.

(** [memmem] and [strstr] belong to the C library, not to this repository. *)
Variable memmem : ptr -> Z -> ptr -> Z -> res (option Z).
Variable strstr : ptr -> ptr -> res (option Z).

(** The file buffer with its padding, the needle of the command line with
    its terminator, and the constants of the scan. *)
Variable data : mem.
Variable haystackLength : Z.
Variable needle : mem.
Variable needleLength : Z.
Variable algorithm : Algorithm.
Variable display : Display.

(** The [switch]: the matcher sees the buffer from the cursor on; [None]
    stands for the [default] case. *)
Definition call_matcher (cur bytesLeft : Z) : option (res (option Z)) :=
  let here := Some (skipn (Z.to_nat cur) data) in
  match algorithm with
  | UseMemMem =>
      Some (r <- memmem here bytesLeft (Some needle) needleLength ;;
            Ok (option_map s32 r))
  | UseStrStr => Some (strstr here (Some needle))
  | UseSimple => Some (searchSimple here bytesLeft (Some needle) needleLength)
  | UseNative => Some (searchNative here bytesLeft (Some needle) needleLength)
  | UseKnuthMorrisPratt =>
      Some (searchKnuthMorrisPratt here bytesLeft (Some needle) needleLength)
  | UseBoyerMooreHorspool =>
      Some (searchBoyerMooreHorspool here bytesLeft (Some needle) needleLength)
  | UseBitap => Some (searchBitap here bytesLeft (Some needle) needleLength)
  | UseRabinKarp => Some (searchRabinKarp here bytesLeft (Some needle) needleLength)
  | UseBest => None
  end.

(** How one iteration of [for (;;)] ends. *)
Inductive step : Type :=
| Continue (st : scan)      (* [continue], or the end of the body *)
| Break                     (* [break]: nothing found *)
| Return (code : Z).        (* [return -6] *)

(** The part of the body after [numHits++], with the hit at [cur]. *)
Definition after_hit (st : scan) (cur : Z) : res step :=
  let hits := u32 (numHits st + 1) in
  let haystackEnd := haystackLength in
  right <- find_right (length data) data haystackEnd cur ;;
  match display with
  | ShowCountOnly => Ok (Continue (mkScan right hits (written st)))
  | ShowLines =>
      left <- find_left (length data) data cur ;;
      c <- rdB data left ;;
      let left := if Byte.eqb c NEWLINE && negb (left =? haystackEnd)
                  then left + 1 else left in
      let lineLength := size_sub right left in
      line <- fwrite_bytes data left lineLength ;;
      Ok (Continue (mkScan right hits (written st ++ [line])))
  end.

(** The body of [for (;;)]. *)
Definition scan_step (st : scan) : res step :=
  let bytesDone := current st in
  let bytesLeft := size_sub haystackLength bytesDone in
  match call_matcher (current st) bytesLeft with
  | None => Ok (Return (-6))
  | Some call =>
      r <- call ;;
      match r with
      | None => Ok Break
      | Some off => after_hit st (current st + off)
      end
  end.

(** [for (;;) { ... }] cut off after [fuel] iterations; the value is the
    state at the [break], or the code of an early [return]. *)
Fixpoint scan_loop (fuel : nat) (st : scan) : res (scan + Z) :=
  match fuel with
  | O => Fault OutOfFuel
  | S fuel' =>
      s <- scan_step st ;;
      match s with
      | Continue st' => scan_loop fuel' st'
      | Break => Ok (inl st)
      | Return code => Ok (inr code)
      end
  end.

(** The state after exactly [k] iterations, if none of them left the loop. *)
Fixpoint scan_iter (k : nat) (st : scan) : res (option scan) :=
  match k with
  | O => Ok (Some st)
  | S k' =>
      s <- scan_step st ;;
      match s with
      | Continue st' => scan_iter k' st'
      | _ => Ok None
      end
  end.

End Driver.

(** [main] from the point where the file has been read: [content] holds the
    bytes of the file, [pattern] those of [argv[1]]. *)
Definition mygrep (memmem : ptr -> Z -> ptr -> Z -> res (option Z))
                  (strstr : ptr -> ptr -> res (option Z))
                  (fuel : nat) (algorithm : Algorithm) (display : Display)
                  (pattern content : list byte) : res report :=
  let filesize := Z.of_nat (length content) in
  if filesize =? 0 then Ok (mkReport (-4) [] None)
  else
    let data := content ++ [NEWLINE; NUL] in
    let needle := pattern ++ [NUL] in
    needleLength <- strlen BadNeedleRead needle ;;
    let haystackLength := filesize in
    let algorithm :=
      match algorithm with
      | UseBest => if needleLength <=? 16 then UseNative else UseBoyerMooreHorspool
      | a => a
      end in
    r <- scan_loop memmem strstr data haystackLength needle needleLength
                   algorithm display fuel (mkScan 0 0 []) ;;
    match r with
    | inr code => Ok (mkReport code [] None)
    | inl st =>
        Ok (mkReport (if numHits st =? 0 then 1 else 0)
                     (written st)
                     (match display with
                      | ShowCountOnly => Some (numHits st)
                      | ShowLines => None
                      end))
    end.

(** [strcmp(a, b) == 0] for the texts of two strings. *)
Fixpoint same_text (a b : list byte) : bool :=
  match a, b with
  | [], [] => true
  | x :: a', y :: b' => Byte.eqb x y && same_text a' b'
  | _, _ => false
  end.

(** The part of [main] that reads the options.  [argv] holds the texts of
    the arguments, the name of the program first; the value is the code of an
    early [return], or the algorithm and the display mode. *)
Definition parse_options (argv : list (list byte)) : Z + Algorithm * Display :=
  let argc := Z.of_nat (length argv) in
  if (argc <? 3) || (argc >? 5) then inl (-1)
  else
    let display :=
      if (argc =? 5) && same_text (nth 4 argv []) (bytes "-c")
      then ShowCountOnly else ShowLines in
    if argc >=? 4 then
      let option := nth 3 argv [] in
      if same_text option (bytes "--native") then inr (UseNative, display)
      else if same_text option (bytes "--memmem") then inr (UseMemMem, display)
      else if same_text option (bytes "--strstr") then inr (UseStrStr, display)
      else if same_text option (bytes "--simple") then inr (UseSimple, display)
      else if same_text option (bytes "--knuthmorrispratt")
              || same_text option (bytes "--kmp")
      then inr (UseKnuthMorrisPratt, display)
      else if same_text option (bytes "--boyermoorehorspool")
              || same_text option (bytes "--bmh")
      then inr (UseBoyerMooreHorspool, display)
      else if same_text option (bytes "--bitap") then inr (UseBitap, display)
      else if same_text option (bytes "--rabinkarp") then inr (UseRabinKarp, display)
      else if same_text option (bytes "-c") then inr (UseBest, ShowCountOnly)
      else inl (-2)
    else inr (UseBest, display).


(** ** What the matchers are compared with *)

(** The byte of [m] at index [i]. *)
Definition byte_at (m : list byte) (i : nat) : byte := nth i m NUL.

(** The needle [N] occurs in the haystack [H] at offset [p]. *)
Definition occurs_at (H N : list byte) (p : nat) : Prop :=
  (p + length N <= length H)%nat /\
  forall i, (i < length N)%nat -> byte_at H (p + i) = byte_at N i.

(** [r] is the first occurrence of [N] in [H], or [None] if there is none. *)
Definition first_occurrence (H N : list byte) (r : option nat) : Prop :=
  match r with
  | Some p => occurs_at H N p /\ forall q, (q < p)%nat -> ~ occurs_at H N q
  | None => forall q, ~ occurs_at H N q
  end.

(** The value a matcher returns for the answer [r]. *)
Definition found (r : option nat) : res (option Z) := Ok (option_map Z.of_nat r).

(** The length of a buffer as a [size_t]. *)
Definition len (m : list byte) : Z := Z.of_nat (length m).

(** A buffer that the address space can hold. *)
Definition fits (m : list byte) : Prop := len m < SIZE_MOD - 1.

(** A buffer without NUL byte: the text of a C string. *)
Definition nul_free (s : list byte) : Prop :=
  forall i, (i < length s)%nat -> byte_at s i <> NUL.

(** The same, as a test. *)
Definition no_nul (s : list byte) : bool := forallb (fun c => negb (is_nul c)) s.

(** The index of the last byte of [l] that equals [c]. *)
Fixpoint rightmost (c : byte) (l : list byte) : option nat :=
  match l with
  | [] => None
  | x :: l' =>
      match rightmost c l' with
      | Some r => Some (S r)
      | None => if Byte.eqb x c then Some 0%nat else None
      end
  end.

(** The distance from the last byte equal to [c] among [positions], a
    prefix of the needle [N], to the last position of [N]; the length of [N]
    when there is none. *)
Definition distance_to_last (N positions : list byte) (c : byte) : Z :=
  match rightmost c positions with
  | Some r => len N - 1 - Z.of_nat r
  | None => len N
  end.

(** ** What the proofs keep track of *)

(** The bit [j] of the mask of [c] is clear exactly when the needle holds
    [c] at index [j]. *)
Definition masks_ok (N : list byte) (upto : Z) (masks : byte -> Z) : Prop :=
  forall c j, 0 <= j < 32 ->
    Z.testbit (masks c) j
    = negb ((j <? upto) && Byte.eqb (byte_at N (Z.to_nat j)) c).

(** The first [j] bytes of the needle end at offset [k] of the haystack. *)
Definition prefix_ends_at (H N : list byte) (k j : nat) : Prop :=
  (j <= k)%nat /\ forall t, (t < j)%nat -> byte_at H (k - j + t) = byte_at N t.

(** The bit [j] of the state is clear exactly when the first [j] bytes of
    the needle end at the cursor. *)
Definition state_ok (H N : list byte) (k : nat) (state : Z) : Prop :=
  forall j, (j <= length N)%nat ->
    Z.testbit state (Z.of_nat j) = false <-> prefix_ends_at H N k j.

(** The prefix of [N] of length [b] is a suffix of its prefix of length [j]. *)
Definition border (N : list byte) (j b : nat) : Prop :=
  (b <= j)%nat /\ forall t, (t < b)%nat -> byte_at N t = byte_at N (j - b + t).

(** [b] is the length of the longest proper border of the prefix of length
    [j]. *)
Definition longest_border (N : list byte) (j b : nat) : Prop :=
  (b < j)%nat /\ border N j b /\
  forall b', (b' < j)%nat -> border N j b' -> (b' <= b)%nat.

(** The entry [j] of the table holds [v]. *)
Definition tbl_has (t : table) (j : nat) (v : Z) : Prop :=
  nth_error t j = Some (Some v).

(** The entries up to [i] are filled as the code's convention has it: [-1]
    at index 0, the length of the longest proper border at the others. *)
Definition table_ok (N : list byte) (t : table) (i : nat) : Prop :=
  tbl_has t 0 (-1) /\
  forall j, (1 <= j <= i)%nat -> exists b, tbl_has t j (Z.of_nat b) /\ longest_border N j b.

(** What the inner loop of the preparation knows about the candidate [v] for
    the entry of index [S i]. *)
Definition candidate (N : list byte) (i v : nat) : Prop :=
  (forall B, (B <= i)%nat -> border N (S i) B -> (B <= v)%nat) /\
  (v = 0%nat \/ ((1 <= v <= i)%nat /\ border N i (v - 1))).

(** What the inner loop of the scan knows about [shift]: it is [-1] or the
    length of a prefix that ends at the cursor, and no prefix that ends behind
    the next byte is longer than [shift + 1]. *)
Definition reach (H N : list byte) (p : nat) (shift : Z) : Prop :=
  (forall B, (B <= length N)%nat -> prefix_ends_at H N (S p) B ->
             Z.of_nat B <= shift + 1) /\
  (shift = -1 \/
   exists s, shift = Z.of_nat s /\ (s < length N)%nat /\ prefix_ends_at H N p s).

(** The bytes of [l] from [left] up to [right]. *)
Definition slice (l : list byte) (left right : nat) : list byte :=
  firstn (right - left) (skipn left l).

(** [left, right) is a physical line of [l]: a run without newline byte that
    cannot be made longer. *)
Definition is_line (l : list byte) (left right : nat) : Prop :=
  (left <= right <= length l)%nat /\
  (forall k, (left <= k < right)%nat -> byte_at l k <> NEWLINE) /\
  (left = 0%nat \/ byte_at l (left - 1) = NEWLINE) /\
  (right = length l \/ byte_at l right = NEWLINE).

(** The algorithms proved to return the first occurrence. *)
Definition sound_algorithm (a : Algorithm) (needleLength : Z) : bool :=
  match a with
  | UseSimple | UseNative | UseBoyerMooreHorspool | UseBitap => true
  | UseKnuthMorrisPratt => needleLength <? MaxLocalMemory
  | UseBest | UseStrStr | UseMemMem | UseRabinKarp => false
  end.

(** Where the cursor of the scan can be: at the start or the end of the file
    or on a newline byte. *)
Definition cursor_ok (content : list byte) (cur : nat) : Prop :=
  cur = 0%nat \/ cur = length content \/
  ((cur < length content)%nat /\ byte_at content cur = NEWLINE).

(** What a scan that starts at the cursor [cur] reports: physical lines
    [spans], each behind the cursor and behind the one before it, each holding
    an occurrence of the pattern, which together hold every occurrence from
    the cursor on. *)
Definition reported (content N : list byte) (cur : nat) (spans : list (nat * nat))
  : Prop :=
  StronglySorted (fun a b => (snd a < fst b)%nat) spans /\
  (forall l r, In (l, r) spans ->
     is_line content l r /\ (cur <= l)%nat /\ ((0 < cur)%nat -> (cur < l)%nat) /\
     exists q, (l <= q)%nat /\ (q + length N <= r)%nat /\ occurs_at content N q) /\
  (forall q, (cur <= q)%nat -> occurs_at content N q ->
     exists l r, In (l, r) spans /\ (l <= q)%nat /\ (q + length N <= r)%nat).

(** The lines written for the spans [spans]. *)
Definition lines_of (content : list byte) (display : Display)
           (spans : list (nat * nat)) : list (list byte) :=
  match display with
  | ShowLines => map (fun s => slice content (fst s) (snd s)) spans
  | ShowCountOnly => []
  end.

(** The memory behind a haystack ends it, as far as searchRabinKarp can
    tell: its first or its second byte is NUL. *)
Definition terminated (pad : list byte) : Prop :=
  (exists rest, pad = NUL :: rest) \/ (exists c rest, pad = c :: NUL :: rest).

(** The sum of the bytes of [l], each taken as a [char]. *)
Fixpoint byte_sum (l : list byte) : Z :=
  match l with
  | [] => 0
  | c :: l' => char_val c + byte_sum l'
  end.

(** The hash of Rabin-Karp for the [m] bytes of [M] from [p] on. *)
Definition window_hash (M : list byte) (p m : nat) : Z :=
  u32 (byte_sum (firstn m (skipn p M))).

(** The algorithm that the scan of mygrep runs with. *)
Definition chosen (algorithm : Algorithm) (needleLength : Z) : Algorithm :=
  match algorithm with
  | UseBest => if needleLength <=? 16 then UseNative else UseBoyerMooreHorspool
  | a => a
  end.

(** The matcher that mygrep calls for [algorithm] returns, at every cursor,
    the first occurrence of the pattern [N] in the rest of the file. *)
Definition finds_first (memmem : ptr -> Z -> ptr -> Z -> res (option Z))
                       (strstr : ptr -> ptr -> res (option Z))
                       (content N : list byte) (algorithm : Algorithm) : Prop :=
  forall cur, (cur <= length content)%nat ->
    exists r,
      call_matcher memmem strstr (content ++ [NEWLINE; NUL]) (N ++ [NUL]) (len N)
                   algorithm (Z.of_nat cur) (size_sub (len content) (Z.of_nat cur))
      = Some (found r) /\
      first_occurrence (skipn cur content) N r.

(** Stand-ins for the two C library functions in the examples, none of
    which calls them. *)
Definition no_memmem : ptr -> Z -> ptr -> Z -> res (option Z) :=
  fun _ _ _ _ => Ok NULL.
Definition no_strstr : ptr -> ptr -> res (option Z) := fun _ _ => Ok NULL.



(** ** The inputs of the claims *)

(** The haystack [ab\0abc], in which [abc] occurs after the NUL byte. *)
Definition after_nul : list byte := bytes "ab" ++ [NUL] ++ bytes "abc".

(** The haystack [xa\0b], in which [a\0b] straddles the NUL byte. *)
Definition across_nul : list byte := bytes "xa" ++ [NUL] ++ bytes "b".

(** The haystack [a\0ab], in which [ab] follows the NUL byte. *)
Definition behind_nul : list byte := bytes "a" ++ [NUL] ++ bytes "ab".

(** The file of the line-scan scenario: [foo\nbar needle baz\nqux]. *)
Definition scenario : list byte :=
  bytes "foo" ++ [NEWLINE] ++ bytes "bar needle baz" ++ [NEWLINE] ++ bytes "qux".

(** The algorithms of the command line that this repository implements. *)
Definition own_algorithms : list Algorithm :=
  [UseBest; UseSimple; UseNative; UseKnuthMorrisPratt; UseBoyerMooreHorspool;
   UseBitap; UseRabinKarp].

(** The file [a\nb]. *)
Definition two_lines : list byte := bytes "a" ++ [NEWLINE] ++ bytes "b".

(** * Proofs *)

(** ** Reads and arithmetic *)

Lemma rd_in (f : fault) (m pad : mem) (i : nat) :
  (i < length m)%nat -> rd f (m ++ pad) (Z.of_nat i) = Ok (byte_at m i).
Proof.
  intros Hi. unfold rd, byte_at.
  destruct (Z.ltb_spec (Z.of_nat i) 0) as [Hneg|_]; [lia|].
  rewrite Nat2Z.id, nth_error_app1 by exact Hi.
  destruct (nth_error m i) as [c|] eqn:E.
  - now rewrite (nth_error_nth _ _ NUL E).
  - apply nth_error_None in E. lia.
Qed.

Lemma rd_out (f : fault) (m : mem) (i : Z) :
  len m <= i -> rd f m i = Fault f.
Proof.
  intros Hi. unfold rd, len in *.
  destruct (Z.ltb_spec i 0) as [_|Hpos]; [reflexivity|].
  destruct (nth_error m (Z.to_nat i)) eqn:E; [|reflexivity].
  assert (nth_error m (Z.to_nat i) <> None) as Hn by congruence.
  apply nth_error_Some in Hn. lia.
Qed.

Lemma byte_eqb_true (a b : byte) : Byte.eqb a b = true <-> a = b.
Proof.
  split; [apply Byte.byte_dec_bl | apply Byte.byte_dec_lb].
Qed.

Lemma byte_eqb_false (a b : byte) : Byte.eqb a b = false <-> a <> b.
Proof.
  split.
  - apply Byte.eqb_false.
  - intros Hne. destruct (Byte.eqb a b) eqn:E; [|reflexivity].
    apply byte_eqb_true in E. contradiction.
Qed.

Lemma size_sub_small (a b : Z) :
  0 <= b <= a -> a < SIZE_MOD -> size_sub a b = a - b.
Proof.
  intros Hb Ha. unfold size_sub. apply Z.mod_small. lia.
Qed.

Lemma size_sub_0_1 : size_sub 0 1 = SIZE_MOD - 1.
Proof. reflexivity. Qed.

Lemma size_sub_wrap (a : Z) :
  0 <= a < SIZE_MOD - 1 -> size_sub a (SIZE_MOD - 1) = a + 1.
Proof.
  intros Ha. unfold size_sub.
  replace (a - (SIZE_MOD - 1)) with (a + 1 + (-1) * SIZE_MOD) by ring.
  rewrite Z.mod_add by (unfold SIZE_MOD; lia).
  apply Z.mod_small. lia.
Qed.

(** ** The first occurrence *)

Lemma first_occurrence_unique (H N : list byte) (r1 r2 : option nat) :
  first_occurrence H N r1 -> first_occurrence H N r2 -> r1 = r2.
Proof.
  destruct r1 as [p1|], r2 as [p2|]; simpl.
  - intros [H1 L1] [H2 L2].
    destruct (Nat.lt_trichotomy p1 p2) as [Hlt|[->|Hlt]].
    + exfalso. exact (L2 _ Hlt H1).
    + reflexivity.
    + exfalso. exact (L1 _ Hlt H2).
  - intros [H1 _] H2. exfalso. exact (H2 _ H1).
  - intros H1 [H2 _]. exfalso. exact (H1 _ H2).
  - reflexivity.
Qed.

Lemma occurs_at_bound (H N : list byte) (p : nat) :
  occurs_at H N p -> (p + length N <= length H)%nat.
Proof. now intros [Hb _]. Qed.

Lemma first_occurrence_empty (H : list byte) : first_occurrence H [] (Some 0%nat).
Proof.
  simpl. split.
  - split; simpl; [lia | intros i Hi; lia].
  - intros q Hq. lia.
Qed.

Section Views.

(** The memory that a matcher is given may go on behind the bytes it is told
    to look at: [Hpad] behind the haystack, [Npad] behind the needle. *)
Variables (Hpad Npad : list byte).

(** ** Naive search *)

(** The comparison loop stops at the first difference. *)
Lemma simple_cmp_spec (H N : list byte) (p : nat) :
  (p + length N <= length H)%nat ->
  forall cnt i,
    (i + cnt = length N)%nat ->
    exists j,
      simple_cmp cnt (H ++ Hpad) (N ++ Npad) (Z.of_nat p) (Z.of_nat i) = Ok (Z.of_nat j) /\
      (i <= j <= length N)%nat /\
      (forall k, (i <= k < j)%nat -> byte_at H (p + k) = byte_at N k) /\
      ((j < length N)%nat -> byte_at H (p + j) <> byte_at N j).
Proof.
  intros Hp. induction cnt as [|cnt IH]; intros i Hi; simpl.
  - exists i. repeat split; intros; lia.
  - rewrite <- Nat2Z.inj_add. unfold rdH, rdN.
    rewrite !rd_in by lia. simpl.
    destruct (Byte.eqb (byte_at H (p + i)) (byte_at N i)) eqn:E.
    + apply byte_eqb_true in E.
      destruct (IH (S i)) as (j & Hj & Hr & Heq & Hne); [lia|].
      exists j. replace (Z.of_nat i + 1) with (Z.of_nat (S i)) by lia.
      repeat split; try lia; try assumption.
      intros k Hk. destruct (Nat.eq_dec k i) as [->|Hki]; [assumption|].
      apply Heq. lia.
    + apply byte_eqb_false in E.
      exists i. repeat split; intros; try assumption; lia.
Qed.

Lemma simple_cmp_occurs (H N : list byte) (p : nat) :
  (p + length N <= length H)%nat ->
  exists j,
    simple_cmp (length N) (H ++ Hpad) (N ++ Npad) (Z.of_nat p) 0 = Ok (Z.of_nat j) /\
    (j <= length N)%nat /\
    (j = length N <-> occurs_at H N p).
Proof.
  intros Hp.
  destruct (simple_cmp_spec H N p Hp (length N) 0) as (j & Hj & Hr & Heq & Hne); [lia|].
  exists j. split; [exact Hj|]. split; [lia|]. split.
  - intros ->. split; [assumption|]. intros i Hi. apply Heq. lia.
  - intros [_ Hocc]. destruct (Nat.eq_dec j (length N)) as [|Hn]; [assumption|].
    exfalso. apply Hne; [lia|]. apply Hocc. lia.
Qed.

Lemma simple_loop_spec (H N : list byte) :
  forall cnt p,
    (p + cnt + length N = S (length H))%nat ->
    (forall q, (q < p)%nat -> ~ occurs_at H N q) ->
    exists r,
      simple_loop cnt (H ++ Hpad) (N ++ Npad) (len N) (Z.of_nat p) = found r /\ first_occurrence H N r.
Proof.
  induction cnt as [|cnt IH]; intros p Hp Hnone; simpl.
  - exists None. split; [reflexivity|]. simpl. intros q Hq.
    destruct (Nat.lt_ge_cases q p) as [Hlt|Hge]; [exact (Hnone q Hlt Hq)|].
    apply occurs_at_bound in Hq. lia.
  - unfold len. rewrite Nat2Z.id.
    destruct (simple_cmp_occurs H N p) as (j & Hj & Hr & Hiff); [lia|].
    rewrite Hj. simpl.
    destruct (Z.eqb_spec (Z.of_nat j) (Z.of_nat (length N))) as [E|E].
    + exists (Some p). split; [reflexivity|]. simpl. split; [|assumption].
      apply Hiff. lia.
    + replace (Z.of_nat p + 1) with (Z.of_nat (S p)) by lia.
      apply IH; [lia|].
      intros q Hq. destruct (Nat.eq_dec q p) as [->|Hqp].
      * intros Hocc. apply Hiff in Hocc. lia.
      * apply Hnone. lia.
Qed.

(** searchSimple returns the first occurrence. *)
Lemma searchSimple_first (H N : list byte) :
  fits H -> (length N <= length H)%nat ->
  exists r,
    searchSimple (Some (H ++ Hpad)) (len H) (Some (N ++ Npad)) (len N) = found r /\
    first_occurrence H N r.
Proof.
  intros Hfit Hle. unfold searchSimple, fits, len in *.
  destruct (Z.ltb_spec (Z.of_nat (length H)) (Z.of_nat (length N))) as [Hlt|_]; [lia|].
  assert (Hlen : size_sub (Z.of_nat (length H)) (size_sub (Z.of_nat (length N)) 1)
                 = Z.of_nat (length H - length N + 1)).
  { destruct (length N) as [|m] eqn:Em.
    - simpl Z.of_nat at 2. rewrite size_sub_0_1, size_sub_wrap by lia. lia.
    - rewrite (size_sub_small (Z.of_nat (S m)) 1) by lia.
      rewrite size_sub_small by lia. lia. }
  rewrite Hlen, Nat2Z.id.
  apply (simple_loop_spec H N (length H - length N + 1) 0); [lia|].
  intros q Hq. lia.
Qed.

(** ** Boyer-Moore-Horspool *)

Lemma rightmost_Some (c : byte) (l : list byte) (r : nat) :
  rightmost c l = Some r ->
  (r < length l)%nat /\ byte_at l r = c /\
  forall k, (r < k < length l)%nat -> byte_at l k <> c.
Proof.
  revert r. induction l as [|x l IH]; intros r; simpl; [discriminate|].
  destruct (rightmost c l) as [r'|] eqn:E.
  - intros [= <-]. destruct (IH r' eq_refl) as (Hr & Hc & Hlast).
    repeat split; [lia | exact Hc |].
    intros k Hk. destruct k as [|k]; [lia|]. apply Hlast. lia.
  - destruct (Byte.eqb x c) eqn:Ex; [|discriminate].
    intros [= <-]. apply byte_eqb_true in Ex.
    repeat split; [lia | exact Ex |].
    intros k Hk. destruct k as [|k]; [lia|]. unfold byte_at. simpl.
    clear IH. revert k Hk E. induction l as [|y l IHl]; intros k Hk E; simpl in *; [lia|].
    destruct (rightmost c l) eqn:E'; [discriminate|].
    destruct (Byte.eqb y c) eqn:Ey; [discriminate|].
    apply byte_eqb_false in Ey.
    destruct k as [|k]; [exact Ey|]. apply IHl; [lia | reflexivity].
Qed.

Lemma rightmost_None (c : byte) (l : list byte) :
  rightmost c l = None ->
  forall k, (k < length l)%nat -> byte_at l k <> c.
Proof.
  induction l as [|x l IH]; simpl; intros E k Hk; [lia|].
  destruct (rightmost c l) eqn:E'; [discriminate|].
  destruct (Byte.eqb x c) eqn:Ex; [discriminate|].
  apply byte_eqb_false in Ex.
  destruct k as [|k]; [exact Ex|]. apply (IH eq_refl). lia.
Qed.

Lemma rightmost_snoc (c x : byte) (l : list byte) :
  rightmost c (l ++ [x]) =
  if Byte.eqb x c then Some (length l) else rightmost c l.
Proof.
  induction l as [|y l IH]; simpl.
  - destruct (Byte.eqb x c); reflexivity.
  - rewrite IH. destruct (Byte.eqb x c); [reflexivity|].
    destruct (rightmost c l); reflexivity.
Qed.

Lemma firstn_snoc (l : list byte) (i : nat) :
  (i < length l)%nat -> firstn (S i) l = firstn i l ++ [byte_at l i].
Proof.
  revert i. induction l as [|x l IH]; intros i Hi; simpl in *; [lia|].
  destruct i as [|i]; [reflexivity|].
  simpl. f_equal. apply IH. lia.
Qed.

(** The loop that fills the table keeps, for every byte, the distance from
    its last occurrence among the positions already visited. *)
Lemma bmh_fill_spec (N : list byte) :
  forall cnt pos skip,
    (S (pos + cnt) = length N)%nat ->
    (forall c, skip c = distance_to_last N (firstn pos N) c) ->
    exists skip',
      bmh_fill cnt (N ++ Npad) (Z.of_nat (pos + cnt)) skip (Z.of_nat pos) = Ok skip' /\
      forall c, skip' c = distance_to_last N (firstn (pos + cnt) N) c.
Proof.
  induction cnt as [|cnt IH]; intros pos skip Hlt Hinv; simpl.
  - exists skip. split; [reflexivity|]. now rewrite Nat.add_0_r.
  - unfold rdN. rewrite rd_in by lia. simpl.
    replace (Z.of_nat pos + 1) with (Z.of_nat (S pos)) by lia.
    replace (pos + S cnt)%nat with (S pos + cnt)%nat by lia.
    apply IH; [lia|].
    intros c. unfold tbl_upd, distance_to_last.
    rewrite firstn_snoc by lia. rewrite rightmost_snoc.
    rewrite length_firstn, Nat.min_l by lia.
    destruct (Byte.eqb c (byte_at N pos)) eqn:E.
    + apply byte_eqb_true in E. subst c.
      rewrite (proj2 (byte_eqb_true _ _) eq_refl). unfold len. lia.
    + apply byte_eqb_false in E.
      destruct (Byte.eqb (byte_at N pos) c) eqn:E'.
      * apply byte_eqb_true in E'. congruence.
      * apply Hinv.
Qed.

(** The table that searchBoyerMooreHorspool prepares. *)
Lemma bmh_table_spec (N : list byte) :
  N <> [] -> fits N ->
  exists skip,
    bmh_table (N ++ Npad) (len N) = Ok skip /\
    forall c, skip c = distance_to_last N (removelast N) c.
Proof.
  intros Hne Hfit. unfold bmh_table, fits, len in *.
  assert (Hpos : (0 < length N)%nat) by (destruct N; [congruence | simpl; lia]).
  rewrite size_sub_small by lia.
  replace (Z.of_nat (length N) - 1) with (Z.of_nat (0 + (length N - 1))) by lia.
  rewrite Nat2Z.id.
  destruct (bmh_fill_spec N (length N - 1) 0 (fun _ => Z.of_nat (length N)))
    as (skip & Hskip & Hspec); [lia | reflexivity |].
  exists skip. split; [exact Hskip|].
  intros c. rewrite Hspec. rewrite removelast_firstn_len.
  do 2 f_equal. simpl. lia.
Qed.

(** The table entry of a byte is positive and at most the needle's length. *)
Lemma distance_to_last_bounds (N : list byte) (c : byte) :
  N <> [] -> 1 <= distance_to_last N (removelast N) c <= len N.
Proof.
  intros Hne. unfold distance_to_last, len.
  assert (Hpos : (0 < length N)%nat) by (destruct N; [congruence | simpl; lia]).
  destruct (rightmost c (removelast N)) as [r|] eqn:E; [|lia].
  apply rightmost_Some in E. destruct E as (Hr & _).
  rewrite removelast_firstn_len, length_firstn in Hr. lia.
Qed.

Lemma bmh_compare_eq (i : nat) (h n : mem) (p : Z) :
  bmh_compare i h n p =
  (a <- rdH h (p + Z.of_nat i) ;;
   b <- rdN n (Z.of_nat i) ;;
   if Byte.eqb a b then
     match i with
     | O => Ok true
     | S i' => bmh_compare i' h n p
     end
   else Ok false).
Proof. destruct i; reflexivity. Qed.

(** The comparison from right to left tells whether the needle occurs in the
    window. *)
Lemma bmh_compare_spec (H N : list byte) (p : nat) :
  forall i,
    (i < length N)%nat -> (p + length N <= length H)%nat ->
    exists b,
      bmh_compare i (H ++ Hpad) (N ++ Npad) (Z.of_nat p) = Ok b /\
      (b = true <-> forall k, (k <= i)%nat -> byte_at H (p + k) = byte_at N k).
Proof.
  induction i as [|i IH]; intros Hi Hp; rewrite bmh_compare_eq;
    rewrite <- Nat2Z.inj_add; unfold rdH, rdN; rewrite !rd_in by lia;
    cbn [bind].
  - destruct (Byte.eqb (byte_at H (p + 0)) (byte_at N 0)) eqn:E.
    + apply byte_eqb_true in E. exists true. split; [reflexivity|].
      split; [|reflexivity]. intros _ k Hk. replace k with 0%nat by lia. exact E.
    + apply byte_eqb_false in E. exists false. split; [reflexivity|].
      split; [discriminate|]. intros Hall. exfalso. apply E, Hall. lia.
  - destruct (Byte.eqb (byte_at H (p + S i)) (byte_at N (S i))) eqn:E.
    + apply byte_eqb_true in E.
      destruct IH as (b & Hb & Hiff); [lia | lia |].
      exists b. split; [exact Hb|]. rewrite Hiff. split.
      * intros Hall k Hk. destruct (Nat.eq_dec k (S i)) as [->|Hne]; [exact E|].
        apply Hall. lia.
      * intros Hall k Hk. apply Hall. lia.
    + apply byte_eqb_false in E. exists false. split; [reflexivity|].
      split; [discriminate|]. intros Hall. exfalso. apply E, Hall. lia.
Qed.

Lemma bmh_compare_occurs (H N : list byte) (p : nat) :
  N <> [] -> (p + length N <= length H)%nat ->
  exists b,
    bmh_compare (length N - 1) (H ++ Hpad) (N ++ Npad) (Z.of_nat p) = Ok b /\
    (b = true <-> occurs_at H N p).
Proof.
  intros Hne Hp.
  assert (Hpos : (0 < length N)%nat) by (destruct N; [congruence | simpl; lia]).
  destruct (bmh_compare_spec H N p (length N - 1)) as (b & Hb & Hiff); [lia | lia |].
  exists b. split; [exact Hb|]. rewrite Hiff. unfold occurs_at. split.
  - intros Hall. split; [exact Hp|]. intros i Hi. apply Hall. lia.
  - intros [_ Hall] k Hk. apply Hall. lia.
Qed.

(** A window that is moved by less than the table entry of the byte under
    the needle's last position cannot hold an occurrence. *)
Lemma bmh_shift_safe (H N : list byte) (p d : nat) :
  N <> [] -> (0 < d)%nat ->
  Z.of_nat d < distance_to_last N (removelast N) (byte_at H (p + (length N - 1))) ->
  ~ occurs_at H N (p + d).
Proof.
  intros Hne Hd Hlt [Hb Hocc].
  assert (Hpos : (0 < length N)%nat) by (destruct N; [congruence | simpl; lia]).
  set (c := byte_at H (p + (length N - 1))) in *.
  pose proof (distance_to_last_bounds N c Hne) as Hbnd. unfold len in Hbnd.
  assert (Hc : byte_at N (length N - 1 - d) = c).
  { rewrite <- Hocc by lia. unfold c. f_equal. lia. }
  assert (Hrl : byte_at (removelast N) (length N - 1 - d) = c).
  { rewrite <- Hc. rewrite removelast_firstn_len. unfold byte_at.
    rewrite nth_firstn.
    destruct (Nat.ltb_spec (length N - 1 - d) (Nat.pred (length N))); [reflexivity | lia]. }
  assert (Hlen : length (removelast N) = (length N - 1)%nat).
  { rewrite removelast_firstn_len, length_firstn. lia. }
  unfold distance_to_last, len in Hlt. fold c in Hlt.
  destruct (rightmost c (removelast N)) as [r|] eqn:E.
  - apply rightmost_Some in E. destruct E as (Hr & _ & Hlast).
    destruct (Nat.lt_ge_cases r (length N - 1 - d)) as [Hlo|Hhi]; [|lia].
    apply (Hlast (length N - 1 - d)%nat); [lia | exact Hrl].
  - apply (rightmost_None _ _ E (length N - 1 - d)%nat); [lia | exact Hrl].
Qed.

(** One iteration of the search loop, as the source writes it. *)
Lemma bmh_loop_eq (h n : mem) (needleLength lastPos : Z) (skip : byte -> Z)
      (Hskip : bmh_skip_ok needleLength skip) (p haystackLength : Z) :
  bmh_loop h n needleLength lastPos skip Hskip p haystackLength =
  if needleLength <=? haystackLength then
    r <- bmh_compare (Z.to_nat lastPos) h n p ;;
    if r : bool then Ok (Some p)
    else
      marker <- rdH h (p + lastPos) ;;
      bmh_loop h n needleLength lastPos skip Hskip
               (p + skip marker) (size_sub haystackLength (skip marker))
  else Ok NULL.
Proof.
  rewrite bmh_loop_equation_1.
  destruct (Z_le_dec needleLength haystackLength) as [Hle|Hgt].
  - destruct (Z.leb_spec needleLength haystackLength) as [_|Hlt]; [|lia].
    simp bmh_loop.
    destruct (bmh_compare (Z.to_nat lastPos) h n p) as [[|]|f];
      simpl; simp bmh_loop; try reflexivity.
    destruct (rdH h (p + lastPos)) as [marker|f]; simpl; simp bmh_loop; reflexivity.
  - destruct (Z.leb_spec needleLength haystackLength) as [Hle|_]; [lia|].
    reflexivity.
Qed.

(** The search loop, entered with no occurrence to the left of the window,
    returns the first occurrence. *)
Lemma bmh_loop_spec (H N : list byte) (skip : byte -> Z)
      (Hskip : bmh_skip_ok (len N) skip) :
  N <> [] -> fits H ->
  (forall c, skip c = distance_to_last N (removelast N) c) ->
  forall k p,
    (length H - p = k)%nat -> (p <= length H)%nat ->
    (forall q, (q < p)%nat -> ~ occurs_at H N q) ->
    exists r,
      bmh_loop (H ++ Hpad) (N ++ Npad) (len N) (len N - 1) skip Hskip
               (Z.of_nat p) (Z.of_nat (length H - p)) = found r /\
      first_occurrence H N r.
Proof.
  intros Hne Hfit Hspec.
  assert (Hpos : (0 < length N)%nat) by (destruct N; [congruence | simpl; lia]).
  induction k as [k IH] using lt_wf_ind. intros p Hk Hp Hnone.
  rewrite bmh_loop_eq. unfold len.
  destruct (Z.leb_spec (Z.of_nat (length N)) (Z.of_nat (length H - p))) as [Hle|Hgt].
  - replace (Z.to_nat (Z.of_nat (length N) - 1)) with (length N - 1)%nat by lia.
    destruct (bmh_compare_occurs H N p Hne) as (b & Hb & Hiff); [lia|].
    rewrite Hb. cbn [bind]. destruct b.
    + exists (Some p). split; [reflexivity|]. simpl. split; [|exact Hnone].
      now apply Hiff.
    + replace (Z.of_nat p + (Z.of_nat (length N) - 1))
        with (Z.of_nat (p + (length N - 1))) by lia.
      unfold rdH. rewrite rd_in by lia. cbn [bind].
      set (c := byte_at H (p + (length N - 1))).
      pose proof (Hskip c) as Hc. unfold len in Hc.
      rewrite size_sub_small by (unfold fits, len in Hfit; lia).
      replace (Z.of_nat p + skip c) with (Z.of_nat (p + Z.to_nat (skip c))) by lia.
      replace (Z.of_nat (length H - p) - skip c)
        with (Z.of_nat (length H - (p + Z.to_nat (skip c)))) by lia.
      apply (IH (length H - (p + Z.to_nat (skip c)))%nat); [lia | reflexivity | lia |].
      intros q Hq.
      destruct (Nat.lt_trichotomy q p) as [Hlt|[->|Hgt]].
      * now apply Hnone.
      * intros Hocc. apply Hiff in Hocc. discriminate.
      * replace q with (p + (q - p))%nat by lia.
        apply bmh_shift_safe; [exact Hne | lia |].
        fold c. rewrite <- Hspec. lia.
  - exists None. split; [reflexivity|]. simpl. intros q Hq.
    destruct (Nat.lt_ge_cases q p) as [Hlt|Hge]; [exact (Hnone q Hlt Hq)|].
    apply occurs_at_bound in Hq. lia.
Qed.

(** searchBoyerMooreHorspool returns the first occurrence. *)
Lemma searchBoyerMooreHorspool_first (H N : list byte) :
  fits H -> (length N <= length H)%nat ->
  exists r,
    searchBoyerMooreHorspool (Some (H ++ Hpad)) (len H) (Some (N ++ Npad)) (len N) = found r /\
    first_occurrence H N r.
Proof.
  intros Hfit Hle. unfold searchBoyerMooreHorspool.
  destruct (Z.ltb_spec (len H) (len N)) as [Hlt|_]; [unfold len in Hlt; lia|].
  destruct (size_eq0 (len N)) as [Hzero|Hpos].
  - assert (N = []) as -> by (destruct N; [reflexivity | unfold len in Hzero; simpl in Hzero; lia]).
    exists (Some 0%nat). split; [reflexivity | apply first_occurrence_empty].
  - assert (Hne : N <> []) by (intros ->; unfold len in Hpos; simpl in Hpos; lia).
    assert (HfitN : fits N) by (unfold fits, len in *; lia).
    destruct (bmh_table_spec N Hne HfitN) as (skip & Htable & Hspec).
    generalize (bmh_table_ok (N ++ Npad) (len N)). rewrite Htable. intros ok.
    rewrite size_sub_small by (unfold fits, len in *; lia).
    replace (len H) with (Z.of_nat (length H - 0)) by (unfold len; lia).
    apply (bmh_loop_spec H N skip _ Hne Hfit Hspec (length H - 0) 0);
      [reflexivity | lia |].
    intros q Hq. lia.
Qed.

(** ** Bitap *)

Lemma testbit_u32 (x j : Z) : 0 <= j < 32 -> Z.testbit (u32 x) j = Z.testbit x j.
Proof.
  intros Hj. unfold u32, UINT_MOD. apply Z.mod_pow2_bits_low. lia.
Qed.

Lemma testbit_one_shifted (i j : Z) :
  0 <= i -> Z.testbit (Z.shiftl 1 i) j = (i =? j).
Proof.
  intros Hi. rewrite Z.shiftl_1_l. now apply Z.pow2_bits_eqb.
Qed.

(** [(state & FullMatch) == 0] looks at one bit. *)
Lemma land_FullMatch (state m : Z) :
  0 <= m < 32 ->
  (Z.land state (u32 (Z.shiftl 1 m)) =? 0) = negb (Z.testbit state m).
Proof.
  intros Hm.
  assert (E : u32 (Z.shiftl 1 m) = 2 ^ m).
  { unfold u32, UINT_MOD. rewrite Z.shiftl_1_l. apply Z.mod_small.
    split; [apply Z.pow_nonneg; lia | apply Z.pow_lt_mono_r; lia]. }
  rewrite E.
  destruct (Z.testbit state m) eqn:Eb; simpl.
  - apply Z.eqb_neq. intros Hz.
    assert (Hb : Z.testbit (Z.land state (2 ^ m)) m = true).
    { rewrite Z.land_spec, Eb, Z.pow2_bits_true by lia. reflexivity. }
    rewrite Hz, Z.bits_0 in Hb. discriminate.
  - apply Z.eqb_eq. apply Z.bits_inj'. intros k Hk.
    rewrite Z.land_spec, Z.bits_0, Z.pow2_bits_eqb by lia.
    destruct (Z.eqb_spec m k) as [->|Hne].
    + now rewrite Eb.
    + apply andb_false_r.
Qed.

Lemma bitap_fill_spec (N : list byte) :
  forall cnt i masks,
    (i + cnt = length N)%nat ->
    masks_ok N (Z.of_nat i) masks ->
    exists masks',
      bitap_fill cnt (N ++ Npad) masks (Z.of_nat i) = Ok masks' /\ masks_ok N (len N) masks'.
Proof.
  induction cnt as [|cnt IH]; intros i masks Hi Hinv; simpl.
  - exists masks. split; [reflexivity|]. unfold len.
    now replace (length N) with i by lia.
  - unfold rdN. rewrite rd_in by lia. cbn [bind].
    replace (Z.of_nat i + 1) with (Z.of_nat (S i)) by lia.
    apply IH; [lia|].
    intros c j Hj. unfold tbl_upd.
    destruct (Byte.eqb c (byte_at N i)) eqn:Ec.
    + apply byte_eqb_true in Ec. subst c.
      rewrite Z.land_spec, testbit_u32, Z.lnot_spec, testbit_one_shifted by lia.
      rewrite (Hinv _ _ Hj).
      destruct (Z.eqb_spec (Z.of_nat i) j) as [<-|Hne].
      * rewrite Nat2Z.id, (proj2 (byte_eqb_true _ _) eq_refl).
        destruct (Z.ltb_spec (Z.of_nat i) (Z.of_nat (S i))); [|lia].
        now rewrite andb_false_r.
      * rewrite andb_true_r.
        destruct (Z.ltb_spec j (Z.of_nat i)), (Z.ltb_spec j (Z.of_nat (S i)));
          try lia; reflexivity.
    + rewrite (Hinv _ _ Hj).
      destruct (Z.ltb_spec j (Z.of_nat i)), (Z.ltb_spec j (Z.of_nat (S i)));
        try lia; try reflexivity.
      replace (Z.to_nat j) with i by lia.
      apply byte_eqb_false in Ec.
      assert (Byte.eqb (byte_at N i) c = false) as ->
          by (apply byte_eqb_false; congruence).
      reflexivity.
Qed.

Lemma bitap_masks_spec (N : list byte) :
  exists masks, bitap_masks (N ++ Npad) (len N) = Ok masks /\ masks_ok N (len N) masks.
Proof.
  unfold bitap_masks, len. rewrite Nat2Z.id.
  apply (bitap_fill_spec N (length N) 0); [lia|].
  intros c j Hj.
  rewrite testbit_u32 by lia. change (Z.lnot 0) with (-1). rewrite Z.bits_m1 by lia.
  destruct (Z.ltb_spec j (Z.of_nat 0)); [lia | reflexivity].
Qed.

Lemma state_ok_init (H N : list byte) :
  (length N <= 31)%nat -> state_ok H N 0 (u32 (Z.lnot 1)).
Proof.
  intros Hm j Hj. rewrite testbit_u32 by lia.
  rewrite Z.lnot_spec by lia. change 1 with (2 ^ 0).
  rewrite Z.pow2_bits_eqb by lia. unfold prefix_ends_at.
  destruct (Z.eqb_spec 0 (Z.of_nat j)) as [E|E]; simpl.
  - split; [|reflexivity]. intros _. split; [lia|]. intros t Ht. lia.
  - split; [discriminate|]. intros [Hle _]. lia.
Qed.

Lemma state_ok_step (H N : list byte) (masks : byte -> Z) (k : nat) (state : Z) :
  (length N <= 31)%nat -> (k < length H)%nat ->
  masks_ok N (len N) masks ->
  state_ok H N k state ->
  state_ok H N (S k) (bitap_step masks state (byte_at H k)).
Proof.
  intros Hm Hk Hmasks Hst j Hj. unfold bitap_step.
  rewrite testbit_u32 by lia. rewrite Z.shiftl_spec by lia.
  destruct j as [|j].
  - simpl Z.of_nat. rewrite Z.testbit_neg_r by lia.
    split; [|reflexivity]. intros _. split; [lia|]. intros t Ht. lia.
  - replace (Z.of_nat (S j) - 1) with (Z.of_nat j) by lia.
    rewrite Z.lor_spec, orb_false_iff, (Hst j) by lia.
    rewrite (Hmasks _ _) by lia. rewrite Nat2Z.id, negb_false_iff, andb_true_iff.
    rewrite byte_eqb_true. unfold prefix_ends_at, len.
    destruct (Z.ltb_spec (Z.of_nat j) (Z.of_nat (length N))) as [_|Hge]; [|lia].
    split.
    + intros [[Hle Hpre] [_ Hlast]]. split; [lia|].
      intros t Ht. destruct (Nat.eq_dec t j) as [->|Hne].
      * rewrite Hlast. f_equal; lia.
      * rewrite <- Hpre by lia. f_equal; lia.
    + intros [Hle Hpre]. repeat split; try lia.
      * intros t Ht. rewrite <- Hpre by lia. f_equal; lia.
      * rewrite <- Hpre by lia. f_equal; lia.
Qed.

Lemma prefix_ends_at_full (H N : list byte) (k : nat) :
  (k <= length H)%nat ->
  prefix_ends_at H N k (length N) <->
  (length N <= k)%nat /\ occurs_at H N (k - length N).
Proof.
  intros Hk. unfold prefix_ends_at, occurs_at. split.
  - intros [Hle Hpre]. repeat split; [lia | lia | exact Hpre].
  - intros [Hle [_ Hocc]]. split; [lia | exact Hocc].
Qed.

(** The scan, entered with no occurrence ending at or before the cursor,
    returns the first occurrence. *)
Lemma bitap_scan_spec (H N : list byte) (masks : byte -> Z) :
  (0 < length N <= 31)%nat ->
  masks_ok N (len N) masks ->
  forall cnt k state,
    (k + cnt = length H)%nat ->
    state_ok H N k state ->
    (forall q, (q + length N <= k)%nat -> ~ occurs_at H N q) ->
    exists r,
      bitap_scan cnt (H ++ Hpad) masks (len N) (u32 (Z.shiftl 1 (len N))) (Z.of_nat k) state
      = found r /\
      first_occurrence H N r.
Proof.
  intros Hm Hmasks. induction cnt as [|cnt IH]; intros k state Hk Hst Hnone; simpl.
  - exists None. split; [reflexivity|]. simpl. intros q Hq.
    apply (Hnone q); [|exact Hq]. apply occurs_at_bound in Hq. lia.
  - unfold rdH. rewrite rd_in by lia. cbn [bind].
    pose proof (state_ok_step H N masks k state) as Hst'.
    specialize (Hst' ltac:(lia) ltac:(lia) Hmasks Hst).
    rewrite land_FullMatch by (unfold len; lia).
    pose proof (Hst' (length N) (Nat.le_refl _)) as Hbit. fold (len N) in Hbit.
    rewrite prefix_ends_at_full in Hbit by lia.
    destruct (Z.testbit (bitap_step masks state (byte_at H k)) (len N)) eqn:Eb; simpl.
    + replace (Z.of_nat k + 1) with (Z.of_nat (S k)) by lia.
      apply IH; [lia | exact Hst' |].
      intros q Hq Hocc.
      destruct (Nat.eq_dec (q + length N) (S k)) as [E|E].
      * assert (false = true -> False) as Hd by discriminate. apply Hd.
        symmetry. apply Hbit. split; [lia|].
        now replace (S k - length N)%nat with q by lia.
      * apply (Hnone q); [lia | exact Hocc].
    + destruct (proj1 Hbit eq_refl) as [Hle Hocc].
      exists (Some (S k - length N)%nat). split.
      * unfold found, len. cbn [option_map]. do 2 f_equal. lia.
      * unfold first_occurrence. split; [exact Hocc|]. intros q Hq. apply Hnone. lia.
Qed.

(** Within the length limit searchBitap returns the first occurrence. *)
Lemma searchBitap_first (H N : list byte) :
  len N <= MaxBitWidth -> (length N <= length H)%nat ->
  exists r,
    searchBitap (Some (H ++ Hpad)) (len H) (Some (N ++ Npad)) (len N) = found r /\
    first_occurrence H N r.
Proof.
  intros Hm Hle. unfold searchBitap.
  destruct (Z.ltb_spec (len H) (len N)) as [Hlt|_]; [unfold len in Hlt; lia|].
  destruct (size_eq0 (len N)) as [Hzero|Hpos].
  - assert (N = []) as -> by (destruct N; [reflexivity | unfold len in Hzero; simpl in Hzero; lia]).
    exists (Some 0%nat). split; [reflexivity | apply first_occurrence_empty].
  - destruct (Z.gtb_spec (len N) MaxBitWidth) as [Hgt|_]; [lia|].
    destruct (bitap_masks_spec N) as (masks & Hmk & Hmasks).
    rewrite Hmk. cbn [bind].
    change MaxBitWidth with 31 in Hm. unfold len in Hm, Hpos.
    unfold len at 1. rewrite Nat2Z.id.
    apply (bitap_scan_spec H N masks ltac:(lia) Hmasks (length H) 0);
      [lia | apply state_ok_init; lia |].
    intros q Hq. lia.
Qed.

(** ** Native *)

Lemma memchr_spec (f : fault) (s pad : mem) (c : byte) :
  forall n p,
    (p + n <= length s)%nat ->
    exists r,
      memchr f n (s ++ pad) (Z.of_nat p) c = Ok (option_map Z.of_nat r) /\
      match r with
      | Some q => (p <= q < p + n)%nat /\ byte_at s q = c /\
                  forall k, (p <= k < q)%nat -> byte_at s k <> c
      | None => forall k, (p <= k < p + n)%nat -> byte_at s k <> c
      end.
Proof.
  induction n as [|n IH]; intros p Hp; simpl.
  - exists None. split; [reflexivity|]. intros k Hk. lia.
  - rewrite rd_in by lia. cbn [bind].
    destruct (Byte.eqb (byte_at s p) c) eqn:E.
    + apply byte_eqb_true in E. exists (Some p). split; [reflexivity|].
      split; [lia|]. split; [exact E|]. intros k Hk. lia.
    + apply byte_eqb_false in E.
      replace (Z.of_nat p + 1) with (Z.of_nat (S p)) by lia.
      destruct (IH (S p)) as (r & Hr & Hspec); [lia|].
      exists r. split; [exact Hr|].
      destruct r as [q|].
      * destruct Hspec as (Hq & Hc & Hbefore).
        split; [lia|]. split; [exact Hc|].
        intros k Hk. destruct (Nat.eq_dec k p) as [->|Hne]; [exact E|].
        apply Hbefore. lia.
      * intros k Hk. destruct (Nat.eq_dec k p) as [->|Hne]; [exact E|].
        apply Hspec. lia.
Qed.

Lemma memcmp_eq_spec (fa fb : fault) (a pada b padb : mem) :
  forall n pa pb,
    (pa + n <= length a)%nat -> (pb + n <= length b)%nat ->
    exists r,
      memcmp_eq fa fb n (a ++ pada) (Z.of_nat pa) (b ++ padb) (Z.of_nat pb) = Ok r /\
      (r = true <-> forall i, (i < n)%nat -> byte_at a (pa + i) = byte_at b (pb + i)).
Proof.
  induction n as [|n IH]; intros pa pb Ha Hb; simpl.
  - exists true. split; [reflexivity|]. split; [|reflexivity]. intros _ i Hi. lia.
  - rewrite !rd_in by lia. cbn [bind].
    replace (Z.of_nat pa + 1) with (Z.of_nat (S pa)) by lia.
    replace (Z.of_nat pb + 1) with (Z.of_nat (S pb)) by lia.
    destruct (IH (S pa) (S pb)) as (r & Hr & Hiff); [lia | lia |].
    rewrite Hr. cbn [bind]. eexists. split; [reflexivity|].
    rewrite andb_true_iff, byte_eqb_true, Hiff. split.
    + intros [E Hall] i Hi. destruct i as [|i].
      * now rewrite !Nat.add_0_r.
      * replace (pa + S i)%nat with (S pa + i)%nat by lia.
        replace (pb + S i)%nat with (S pb + i)%nat by lia. apply Hall. lia.
    + intros Hall. split.
      * specialize (Hall 0%nat ltac:(lia)). now rewrite !Nat.add_0_r in Hall.
      * intros i Hi. replace (S pa + i)%nat with (pa + S i)%nat by lia.
        replace (S pb + i)%nat with (pb + S i)%nat by lia. apply Hall. lia.
Qed.

(** The test of a candidate, whose first byte is known to agree, tells
    whether the needle occurs there. *)
Lemma native_verify_spec (H N : list byte) (q : nat) :
  (2 <= length N)%nat -> fits N -> (q + length N <= length H)%nat ->
  byte_at H q = byte_at N 0 ->
  exists b,
    native_verify (H ++ Hpad) (N ++ Npad) (len N) (Z.of_nat q) = Ok b /\
    (b = true <-> occurs_at H N q).
Proof.
  intros Hm Hfit Hq Hfirst. unfold native_verify, fits, len in *.
  rewrite !size_sub_small by lia.
  replace (Z.of_nat q + (Z.of_nat (length N) - 1))
    with (Z.of_nat (q + (length N - 1))) by lia.
  replace (Z.of_nat (length N) - 1) with (Z.of_nat (length N - 1)) by lia.
  unfold rdH, rdN. rewrite !rd_in by lia. cbn [bind].
  assert (Hsplit : occurs_at H N q <->
                   byte_at H (q + (length N - 1)) = byte_at N (length N - 1) /\
                   forall i, (i < length N - 2)%nat ->
                             byte_at H (S q + i) = byte_at N (1 + i)).
  { unfold occurs_at. split.
    - intros [_ Hocc]. split; [apply Hocc; lia|].
      intros i Hi. replace (S q + i)%nat with (q + (1 + i))%nat by lia.
      apply Hocc. lia.
    - intros [Hlast Hmid]. split; [exact Hq|]. intros i Hi.
      destruct (Nat.eq_dec i 0) as [->|H0]; [now rewrite Nat.add_0_r|].
      destruct (Nat.eq_dec i (length N - 1)) as [->|H1]; [exact Hlast|].
      replace (q + i)%nat with (S q + (i - 1))%nat by lia.
      replace i with (1 + (i - 1))%nat at 2 by lia. apply Hmid. lia. }
  destruct (Byte.eqb (byte_at H (q + (length N - 1))) (byte_at N (length N - 1))) eqn:E.
  - apply byte_eqb_true in E.
    destruct (Z.eqb_spec (Z.of_nat (length N)) 2) as [E2|E2].
    + exists true. split; [reflexivity|]. split; [|reflexivity]. intros _.
      apply Hsplit. split; [exact E|]. intros i Hi. lia.
    + replace (Z.to_nat (Z.of_nat (length N) - 2)) with (length N - 2)%nat by lia.
      replace (Z.of_nat q + 1) with (Z.of_nat (S q)) by lia.
      destruct (memcmp_eq_spec BadHaystackRead BadNeedleRead H Hpad N Npad (length N - 2) (S q) 1)
        as (r & Hr & Hiff); [lia | lia |].
      exists r. split; [exact Hr|]. rewrite Hiff, Hsplit. tauto.
  - apply byte_eqb_false in E. exists false. split; [reflexivity|].
    split; [discriminate|]. intros Hocc. apply Hsplit in Hocc. tauto.
Qed.

Lemma native_loop_spec (H N : list byte) :
  (2 <= length N <= length H)%nat -> fits H ->
  forall fuel p,
    (p <= length H - length N + 1)%nat ->
    (length H - length N + 1 - p <= fuel)%nat ->
    (forall q, (q < p)%nat -> ~ occurs_at H N q) ->
    exists r,
      native_loop fuel (H ++ Hpad) (N ++ Npad) (len N) (Z.of_nat (length H - length N + 1))
                  (Z.of_nat p) (Z.of_nat (length H - length N + 1 - p))
      = found r /\
      first_occurrence H N r.
Proof.
  intros Hm Hfit.
  assert (HfitN : fits N) by (unfold fits, len in *; lia).
  set (E := (length H - length N + 1)%nat).
  assert (Hdecide : forall p r,
             (p <= E)%nat -> (forall q, (q < p)%nat -> ~ occurs_at H N q) ->
             match r with
             | Some q => (p <= q < p + (E - p))%nat /\ byte_at H q = byte_at N 0 /\
                         forall k, (p <= k < q)%nat -> byte_at H k <> byte_at N 0
             | None => forall k, (p <= k < p + (E - p))%nat -> byte_at H k <> byte_at N 0
             end ->
             forall q, (q < match r with Some q' => q' | None => E end)%nat ->
                       ~ occurs_at H N q).
  { intros p r Hp Hnone Hr q Hq [_ Hocc].
    destruct (Nat.lt_ge_cases q p) as [Hlt|Hge].
    - apply (Hnone q Hlt). split; [|exact Hocc]. unfold E in *. lia.
    - specialize (Hocc 0%nat ltac:(lia)). rewrite Nat.add_0_r in Hocc.
      destruct r as [q'|].
      + destruct Hr as (_ & _ & Hbefore). apply (Hbefore q); [lia | exact Hocc].
      + apply (Hr q); [lia | exact Hocc]. }
  induction fuel as [|fuel IH]; intros p Hp Hfuel Hnone.
  - (* no position is left *)
    assert (p = E) as -> by lia.
    replace (E - E)%nat with 0%nat by lia.
    simpl. unfold rdN. rewrite (rd_in _ N Npad 0) by lia. cbn [bind].
    exists None. split; [reflexivity|]. simpl. intros q Hq.
    destruct (Nat.lt_ge_cases q E) as [Hlt|Hge]; [exact (Hnone q Hlt Hq)|].
    apply occurs_at_bound in Hq. unfold E in *. lia.
  - cbn [native_loop]. unfold rdN. rewrite (rd_in _ N Npad 0) by lia. cbn [bind].
    rewrite Nat2Z.id.
    destruct (memchr_spec BadHaystackRead H Hpad (byte_at N 0) (E - p) p) as (r & Hr & Hspec);
      [unfold E in *; lia|].
    rewrite Hr. pose proof (Hdecide p r Hp Hnone Hspec) as Hbefore.
    destruct r as [q|]; cbn [option_map bind].
    + destruct Hspec as (Hq & Hc & _).
      destruct (native_verify_spec H N q) as (b & Hb & Hiff);
        [lia | exact HfitN | unfold E in *; lia | exact Hc |].
      rewrite Hb. cbn [bind]. destruct b.
      * exists (Some q). split; [reflexivity|]. simpl. split; [now apply Hiff | exact Hbefore].
      * destruct (Z.eqb_spec (Z.of_nat E - Z.of_nat q) 0) as [E0|_]; [lia|].
        rewrite size_sub_small by (unfold fits, len, E in *; lia).
        replace (Z.of_nat q + 1) with (Z.of_nat (S q)) by lia.
        replace (Z.of_nat E - Z.of_nat q - 1) with (Z.of_nat (E - S q)) by lia.
        apply IH; [lia | lia |].
        intros q' Hq'. destruct (Nat.eq_dec q' q) as [->|Hne].
        -- intros Hocc. apply Hiff in Hocc. discriminate.
        -- apply Hbefore. lia.
    + exists None. split; [reflexivity|]. simpl. intros q Hq.
      destruct (Nat.lt_ge_cases q E) as [Hlt|Hge]; [exact (Hbefore q Hlt Hq)|].
      apply occurs_at_bound in Hq. unfold E in *. lia.
Qed.

(** searchNative returns the first occurrence. *)
Lemma searchNative_first (H N : list byte) :
  fits H -> (length N <= length H)%nat ->
  exists r,
    searchNative (Some (H ++ Hpad)) (len H) (Some (N ++ Npad)) (len N) = found r /\
    first_occurrence H N r.
Proof.
  intros Hfit Hle. unfold searchNative.
  destruct (Z.ltb_spec (len H) (len N)) as [Hlt|_]; [unfold len in Hlt; lia|].
  destruct (size_eq0 (len N)) as [Hzero|Hpos].
  - assert (N = []) as -> by (destruct N; [reflexivity | unfold len in Hzero; simpl in Hzero; lia]).
    exists (Some 0%nat). split; [reflexivity | apply first_occurrence_empty].
  - unfold len in Hpos. destruct (Z.eqb_spec (len N) 1) as [E1|E1].
    + unfold len in E1. unfold rdN. rewrite (rd_in _ N Npad 0) by lia. cbn [bind].
      unfold len at 1. rewrite Nat2Z.id.
      destruct (memchr_spec BadHaystackRead H Hpad (byte_at N 0) (length H) 0) as (r & Hr & Hspec);
        [lia|].
      exists r. split; [exact Hr|].
      assert (Hocc : forall q, occurs_at H N q <->
                               (q < length H)%nat /\ byte_at H q = byte_at N 0).
      { intros q. unfold occurs_at. split.
        - intros [Hb Ho]. split; [lia|]. rewrite <- (Nat.add_0_r q) at 1. apply Ho. lia.
        - intros [Hb Ho]. split; [lia|]. intros i Hi.
          replace i with 0%nat by lia. now rewrite Nat.add_0_r. }
      destruct r as [q|]; simpl.
      * destruct Hspec as (Hq & Hc & Hbefore). split.
        -- apply Hocc. split; [lia | exact Hc].
        -- intros q' Hq' Ho. apply Hocc in Ho. apply (Hbefore q'); [lia | tauto].
      * intros q Ho. apply Hocc in Ho. apply (Hspec q); [lia | tauto].
    + unfold len in E1.
      assert (Hrange : size_sub (len H) (size_sub (len N) 1)
                       = Z.of_nat (length H - length N + 1)).
      { unfold fits, len in *.
        rewrite (size_sub_small (Z.of_nat (length N)) 1) by lia.
        rewrite size_sub_small by lia. lia. }
      rewrite Hrange, Nat2Z.id.
      pose proof (native_loop_spec H N ltac:(lia) Hfit (length H - length N + 1) 0) as Hl.
      rewrite Nat.sub_0_r in Hl. apply Hl; [lia | lia |].
      intros q Hq. lia.
Qed.

(** ** Knuth-Morris-Pratt *)

Lemma tbl_get_has (t : table) (j : nat) (v : Z) :
  tbl_has t j v -> tbl_get t (Z.of_nat j) = Ok v.
Proof.
  unfold tbl_has, tbl_get. intros E.
  destruct (Z.ltb_spec (Z.of_nat j) 0); [lia|]. now rewrite Nat2Z.id, E.
Qed.

Lemma nth_error_list_set {A : Type} (l : list A) (i j : nat) (x : A) :
  nth_error (list_set l i x) j =
  if Nat.eqb j i then (if Nat.ltb i (length l) then Some x else None)
  else nth_error l j.
Proof.
  revert i j. induction l as [|y l IH]; intros i j; simpl.
  - destruct (Nat.eqb j i); destruct j; reflexivity.
  - destruct i as [|i], j as [|j]; simpl; try reflexivity.
    rewrite IH. destruct (Nat.eqb j i); [|reflexivity].
    destruct (Nat.ltb_spec i (length l)), (Nat.ltb_spec (S i) (S (length l)));
      try lia; reflexivity.
Qed.

Lemma length_list_set {A : Type} (l : list A) (i : nat) (x : A) :
  length (list_set l i x) = length l.
Proof.
  revert i. induction l as [|y l IH]; intros i; [reflexivity|].
  destruct i; simpl; [reflexivity | now rewrite IH].
Qed.

Lemma tbl_set_in (t : table) (i : nat) (v : Z) :
  (i < length t)%nat ->
  tbl_set t (Z.of_nat i) v = Ok (list_set t i (Some v)).
Proof.
  intros Hi. unfold tbl_set.
  destruct (Z.leb_spec 0 (Z.of_nat i)); [|lia].
  destruct (Z.ltb_spec (Z.of_nat i) (Z.of_nat (length t))); [|lia].
  now rewrite Nat2Z.id.
Qed.


Lemma tbl_has_set_same (t : table) (i : nat) (v : Z) :
  (i < length t)%nat -> tbl_has (list_set t i (Some v)) i v.
Proof.
  intros Hi. unfold tbl_has. rewrite nth_error_list_set, Nat.eqb_refl.
  destruct (Nat.ltb_spec i (length t)); [reflexivity | lia].
Qed.

Lemma tbl_has_set_other (t : table) (i j : nat) (v w : Z) :
  j <> i -> tbl_has t j w -> tbl_has (list_set t i (Some v)) j w.
Proof.
  intros Hne Hj. unfold tbl_has in *. rewrite nth_error_list_set.
  destruct (Nat.eqb_spec j i); [contradiction | exact Hj].
Qed.

Lemma table_ok_set (N : list byte) (t : table) (i k : nat) (v : Z) :
  (i < k)%nat -> table_ok N t i -> table_ok N (list_set t k (Some v)) i.
Proof.
  intros Hik [H0 Hall]. split.
  - apply tbl_has_set_other; [lia | exact H0].
  - intros j Hj. destruct (Hall j Hj) as (b & Hb & Hlb).
    exists b. split; [|exact Hlb]. apply tbl_has_set_other; [lia | exact Hb].
Qed.

Lemma border_zero (N : list byte) (j : nat) : border N j 0.
Proof. split; [lia|]. intros t Ht. lia. Qed.

(** Among the borders of a prefix, the shorter ones are the borders of the
    longer ones. *)
Lemma border_of_border (N : list byte) (j b b' : nat) :
  border N j b -> (b' <= b)%nat -> (border N j b' <-> border N b b').
Proof.
  intros [Hb Hbord] Hle. unfold border. split; intros [_ H']; (split; [lia|]);
    intros t Ht.
  - rewrite (Hbord (b - b' + t)%nat) by lia. rewrite H' by lia. f_equal; lia.
  - rewrite H' by lia. rewrite (Hbord (b - b' + t)%nat) by lia. f_equal; lia.
Qed.

(** A border of the prefix of length [S i] leaves a border of the prefix of
    length [i] when its last byte is dropped. *)
Lemma border_pred (N : list byte) (i B : nat) :
  border N (S i) (S B) -> border N i B /\ byte_at N B = byte_at N i.
Proof.
  intros [HB Hbord]. split; [split; [lia|] |].
  - intros t Ht. rewrite Hbord by lia. f_equal; lia.
  - rewrite Hbord by lia. f_equal; lia.
Qed.

Lemma border_succ (N : list byte) (i B : nat) :
  border N i B -> byte_at N B = byte_at N i -> border N (S i) (S B).
Proof.
  intros [HB Hbord] Hlast. split; [lia|]. intros t Ht.
  destruct (Nat.eq_dec t B) as [->|Hne].
  - rewrite Hlast. f_equal; lia.
  - rewrite Hbord by lia. f_equal; lia.
Qed.

Lemma candidate_first (N : list byte) (t : table) (i : nat) (w : Z) :
  table_ok N t i -> tbl_has t i w ->
  exists v, w + 1 = Z.of_nat v /\ candidate N i v.
Proof.
  intros [H0 Hall] Hw. destruct i as [|i].
  - unfold tbl_has in *. rewrite H0 in Hw. injection Hw as <-.
    exists 0%nat. split; [reflexivity|]. split; [|now left].
    intros B HB _. lia.
  - destruct (Hall (S i)) as (b & Hb & Hlt & Hbord & Hmax); [lia|].
    unfold tbl_has in *. rewrite Hb in Hw. injection Hw as <-.
    exists (S b). split; [lia|]. split.
    + intros B HB HBord. destruct B as [|B]; [lia|].
      apply border_pred in HBord. destruct HBord as [HBord _].
      specialize (Hmax B ltac:(lia) HBord). lia.
    + right. split; [lia|]. now replace (S b - 1)%nat with b by lia.
Qed.

Lemma candidate_done_zero (N : list byte) (i : nat) :
  candidate N i 0 -> longest_border N (S i) 0.
Proof.
  intros [Hmax _]. split; [lia|]. split; [apply border_zero|].
  intros b' Hb' Hbord. apply Hmax; [lia | exact Hbord].
Qed.

Lemma candidate_done_match (N : list byte) (i v : nat) :
  candidate N i v -> (0 < v)%nat -> byte_at N i = byte_at N (v - 1) ->
  longest_border N (S i) v.
Proof.
  intros [Hmax [->|[Hv Hbord]]] Hpos Heq; [lia|].
  split; [lia|]. split.
  - replace v with (S (v - 1)) by lia. apply border_succ; [exact Hbord | congruence].
  - intros b' Hb' Hb. apply Hmax; [lia | exact Hb].
Qed.

Lemma candidate_next (N : list byte) (t : table) (i v : nat) (w : Z) :
  table_ok N t i -> candidate N i v -> (0 < v)%nat ->
  byte_at N i <> byte_at N (v - 1) ->
  tbl_has t (v - 1) w ->
  exists v', w + 1 = Z.of_nat v' /\ (v' < v)%nat /\ candidate N i v'.
Proof.
  intros [H0 Hall] [Hmax [->|[Hv Hbord]]] Hpos Hne Hw; [lia|].
  assert (Hsmaller : forall B, (B <= i)%nat -> border N (S i) B ->
                               B = 0%nat \/ ((B - 1 < v - 1)%nat /\ border N (v - 1) (B - 1))).
  { intros B HB HBord. destruct B as [|B]; [now left|]. right.
    pose proof (Hmax _ HB HBord) as Hle.
    destruct (border_pred _ _ _ HBord) as [HBi Hlast].
    assert (S B <> v).
    { intros <-. apply Hne. replace (S B - 1)%nat with B by lia. congruence. }
    replace (S B - 1)%nat with B by lia. split; [lia|].
    apply (border_of_border N i (v - 1) B Hbord); [lia | exact HBi]. }
  destruct (Nat.eq_dec v 1) as [->|Hv1].
  - change (1 - 1)%nat with 0%nat in Hw.
    unfold tbl_has in *. rewrite H0 in Hw. injection Hw as <-.
    exists 0%nat. split; [reflexivity|]. split; [lia|]. split; [|now left].
    intros B HB HBord. destruct (Hsmaller B HB HBord) as [->|[Hlt _]]; lia.
  - destruct (Hall (v - 1)%nat) as (b & Hb & Hlt & Hbb & Hbmax); [lia|].
    unfold tbl_has in *. rewrite Hb in Hw. injection Hw as <-.
    exists (S b). split; [lia|]. split; [lia|]. split.
    + intros B HB HBord. destruct (Hsmaller B HB HBord) as [->|[Hlt' Hb']]; [lia|].
      specialize (Hbmax _ Hlt' Hb'). lia.
    + right. split; [lia|]. replace (S b - 1)%nat with b by lia.
      apply (border_of_border N i (v - 1) b Hbord); [lia | exact Hbb].
Qed.

Lemma table_ok_lookup (N : list byte) (t : table) (i j : nat) :
  table_ok N t i -> (j <= i)%nat -> exists w, tbl_has t j w.
Proof.
  intros [H0 Hall] Hj. destruct j as [|j].
  - now exists (-1).
  - destruct (Hall (S j)) as (b & Hb & _); [lia|]. now exists (Z.of_nat b).
Qed.

Lemma table_ok_extend (N : list byte) (t : table) (i b : nat) :
  table_ok N t i -> tbl_has t (S i) (Z.of_nat b) -> longest_border N (S i) b ->
  table_ok N t (S i).
Proof.
  intros [H0 Hall] Hb Hlb. split; [exact H0|].
  intros j Hj. destruct (Nat.eq_dec j (S i)) as [->|Hne].
  - now exists b.
  - apply Hall. lia.
Qed.

Lemma kmp_fallback_eq (fuel : nat) (n : mem) (skip : table) (i : Z) :
  kmp_fallback fuel n skip i =
  (v <- tbl_get skip (i + 1) ;;
   if 0 <? v then
     a <- rdN n i ;;
     b <- rdN n (v - 1) ;;
     if Byte.eqb a b then Ok skip
     else match fuel with
          | O => Fault OutOfFuel
          | S fuel' =>
              w <- tbl_get skip (v - 1) ;;
              skip' <- tbl_set skip (i + 1) (w + 1) ;;
              kmp_fallback fuel' n skip' i
          end
   else Ok skip).
Proof. destruct fuel; reflexivity. Qed.

(** The inner loop of the preparation ends with the longest proper border
    in the entry of index [S i]. *)
Lemma kmp_fallback_spec (N : list byte) (i : nat) :
  (i < length N)%nat ->
  forall fuel t v,
    (S i < length t)%nat -> (v <= fuel)%nat ->
    table_ok N t i -> tbl_has t (S i) (Z.of_nat v) -> candidate N i v ->
    exists t',
      kmp_fallback fuel (N ++ Npad) t (Z.of_nat i) = Ok t' /\
      length t' = length t /\ table_ok N t' (S i).
Proof.
  intros Hi. induction fuel as [|fuel IH]; intros t v Hcap Hfuel Hok Hv Hcand;
    rewrite kmp_fallback_eq;
    replace (Z.of_nat i + 1) with (Z.of_nat (S i)) by lia;
    rewrite (tbl_get_has _ _ _ Hv); cbn [bind].
  - assert (v = 0%nat) as -> by lia. simpl.
    exists t. split; [reflexivity|]. split; [reflexivity|].
    apply (table_ok_extend N t i 0 Hok Hv). now apply candidate_done_zero.
  - destruct (Z.ltb_spec 0 (Z.of_nat v)) as [Hpos|Hzero].
    + assert (Hvi : (1 <= v <= i)%nat) by (destruct Hcand as [_ [->|[Hr _]]]; lia).
      replace (Z.of_nat v - 1) with (Z.of_nat (v - 1)) by lia.
      unfold rdN. rewrite !rd_in by lia. cbn [bind].
      destruct (Byte.eqb (byte_at N i) (byte_at N (v - 1))) eqn:E.
      * apply byte_eqb_true in E.
        exists t. split; [reflexivity|]. split; [reflexivity|].
        apply (table_ok_extend N t i v Hok Hv).
        apply candidate_done_match; [exact Hcand | lia | exact E].
      * apply byte_eqb_false in E.
        destruct (table_ok_lookup N t i (v - 1) Hok) as (w & Hw); [lia|].
        rewrite (tbl_get_has _ _ _ Hw). cbn [bind].
        destruct (candidate_next N t i v w Hok Hcand) as (v' & Hv' & Hlt & Hcand');
          [lia | exact E | exact Hw |].
        rewrite Hv', tbl_set_in by lia. cbn [bind].
        destruct (IH (list_set t (S i) (Some (Z.of_nat v'))) v') as (t' & Ht' & Hlen & Hok').
        -- rewrite length_list_set. lia.
        -- lia.
        -- apply table_ok_set; [lia | exact Hok].
        -- apply tbl_has_set_same. lia.
        -- exact Hcand'.
        -- exists t'. split; [exact Ht'|]. split; [|exact Hok'].
           now rewrite Hlen, length_list_set.
    + assert (v = 0%nat) as -> by lia.
      exists t. split; [reflexivity|]. split; [reflexivity|].
      apply (table_ok_extend N t i 0 Hok Hv). now apply candidate_done_zero.
Qed.

Lemma kmp_prepare_step_spec (N : list byte) (i fuel : nat) (t : table) :
  (i < length N)%nat -> (S i < length t)%nat -> (i <= fuel)%nat ->
  table_ok N t i ->
  exists t',
    kmp_prepare_step fuel (N ++ Npad) t (Z.of_nat i) = Ok t' /\
    length t' = length t /\ table_ok N t' (S i).
Proof.
  intros Hi Hcap Hfuel Hok. unfold kmp_prepare_step.
  destruct (table_ok_lookup N t i i Hok) as (w & Hw); [lia|].
  rewrite (tbl_get_has _ _ _ Hw). cbn [bind].
  destruct (candidate_first N t i w Hok Hw) as (v & Hv & Hcand).
  replace (Z.of_nat i + 1) with (Z.of_nat (S i)) by lia.
  rewrite Hv, tbl_set_in by lia. cbn [bind].
  assert (Hvi : (v <= i)%nat) by (destruct Hcand as [_ [->|[Hr _]]]; lia).
  destruct (kmp_fallback_spec N i Hi fuel (list_set t (S i) (Some (Z.of_nat v))) v)
    as (t' & Ht' & Hlen & Hok').
  - rewrite length_list_set. lia.
  - lia.
  - apply table_ok_set; [lia | exact Hok].
  - apply tbl_has_set_same. lia.
  - exact Hcand.
  - exists t'. split; [exact Ht'|]. split; [|exact Hok'].
    now rewrite Hlen, length_list_set.
Qed.


(** A table with room for the entries of index 0 to [length N] is filled
    with the longest proper borders of all prefixes. *)
Lemma kmp_prepare_spec (N : list byte) (fuel : nat) :
  (length N <= fuel)%nat ->
  forall cnt i t,
    (i + cnt = length N)%nat -> (length N < length t)%nat ->
    table_ok N t i ->
    exists t',
      kmp_prepare cnt fuel (N ++ Npad) t (Z.of_nat i) = Ok t' /\
      length t' = length t /\ table_ok N t' (length N).
Proof.
  intros Hfuel. induction cnt as [|cnt IH]; intros i t Hi Hcap Hok; simpl.
  - exists t. split; [reflexivity|]. split; [reflexivity|].
    now replace (length N) with i by lia.
  - destruct (kmp_prepare_step_spec N i fuel t) as (t1 & Ht1 & Hlen1 & Hok1);
      [lia | lia | lia | exact Hok |].
    rewrite Ht1. cbn [bind].
    replace (Z.of_nat i + 1) with (Z.of_nat (S i)) by lia.
    destruct (IH (S i) t1) as (t' & Ht' & Hlen & Hok'); [lia | lia | exact Hok1 |].
    exists t'. split; [exact Ht'|]. split; [lia | exact Hok'].
Qed.


Lemma prefix_ends_at_zero (H N : list byte) (p : nat) : prefix_ends_at H N p 0.
Proof. split; [lia|]. intros t Ht. lia. Qed.

(** Among the prefixes of the needle that end at the cursor, the shorter
    ones are the borders of the longer ones. *)
Lemma prefix_border (H N : list byte) (p s b : nat) :
  prefix_ends_at H N p s -> (b <= s)%nat ->
  (prefix_ends_at H N p b <-> border N s b).
Proof.
  intros [Hs Hpre] Hb. unfold prefix_ends_at, border.
  split; intros [_ H']; (split; [lia|]); intros t Ht.
  - rewrite <- H' by lia. rewrite <- (Hpre (s - b + t)%nat) by lia. f_equal; lia.
  - rewrite H' by lia. rewrite <- (Hpre (s - b + t)%nat) by lia. f_equal; lia.
Qed.

Lemma prefix_ends_pred (H N : list byte) (p B : nat) :
  prefix_ends_at H N (S p) (S B) ->
  prefix_ends_at H N p B /\ byte_at H p = byte_at N B.
Proof.
  intros [HB Hpre]. split; [split; [lia|] |].
  - intros t Ht. rewrite <- Hpre by lia. f_equal; lia.
  - rewrite <- Hpre by lia. f_equal; lia.
Qed.

Lemma prefix_ends_succ (H N : list byte) (p B : nat) :
  prefix_ends_at H N p B -> byte_at H p = byte_at N B ->
  prefix_ends_at H N (S p) (S B).
Proof.
  intros [HB Hpre] Hlast. split; [lia|]. intros t Ht.
  destruct (Nat.eq_dec t B) as [->|Hne].
  - rewrite <- Hlast. f_equal; lia.
  - rewrite <- Hpre by lia. f_equal; lia.
Qed.

Lemma kmp_shift_eq (fuel : nat) (h n : mem) (skip : table) (p shift : Z) :
  kmp_shift fuel h n skip p shift =
  if 0 <=? shift then
    a <- rdH h p ;;
    b <- rdN n shift ;;
    if Byte.eqb a b then Ok shift
    else match fuel with
         | O => Fault OutOfFuel
         | S fuel' =>
             s <- tbl_get skip shift ;;
             kmp_shift fuel' h n skip p s
         end
  else Ok shift.
Proof. destruct fuel; reflexivity. Qed.

(** The inner loop of the scan ends with the longest prefix of the needle
    that ends behind the byte at the cursor, less one. *)
Lemma kmp_shift_spec (H N : list byte) (t : table) (p : nat) :
  (p < length H)%nat -> table_ok N t (length N) ->
  forall fuel shift,
    shift + 1 <= Z.of_nat fuel -> reach H N p shift ->
    exists s',
      kmp_shift fuel (H ++ Hpad) (N ++ Npad) t (Z.of_nat p) shift = Ok (Z.of_nat s' - 1) /\
      (s' <= length N)%nat /\ prefix_ends_at H N (S p) s' /\
      forall B, (B <= length N)%nat -> prefix_ends_at H N (S p) B -> (B <= s')%nat.
Proof.
  intros Hp Hok. induction fuel as [|fuel IH]; intros shift Hfuel [Hmax Hcur];
    rewrite kmp_shift_eq.
  - assert (shift = -1) as -> by (destruct Hcur as [?|(s & -> & _)]; lia).
    exists 0%nat. split; [reflexivity|]. split; [lia|].
    split; [apply prefix_ends_at_zero|].
    intros B HB Hpre. specialize (Hmax B HB Hpre). lia.
  - destruct Hcur as [->|(s & -> & Hs & Hpre)].
    + exists 0%nat. split; [reflexivity|]. split; [lia|].
      split; [apply prefix_ends_at_zero|].
      intros B HB HpreB. specialize (Hmax B HB HpreB). lia.
    + destruct (Z.leb_spec 0 (Z.of_nat s)) as [_|Hneg]; [|lia].
      unfold rdH, rdN. rewrite !rd_in by lia. cbn [bind].
      destruct (Byte.eqb (byte_at H p) (byte_at N s)) eqn:E.
      * apply byte_eqb_true in E. exists (S s).
        split; [f_equal; lia|]. split; [lia|].
        split; [now apply prefix_ends_succ|].
        intros B HB HpreB. specialize (Hmax B HB HpreB). lia.
      * apply byte_eqb_false in E.
        assert (Hshorter : forall B, (B <= length N)%nat ->
                   prefix_ends_at H N (S p) B ->
                   B = 0%nat \/ ((B - 1 < s)%nat /\ border N s (B - 1))).
        { intros B HB HpreB. destruct B as [|B]; [now left|]. right.
          pose proof (Hmax _ HB HpreB) as Hle.
          destruct (prefix_ends_pred _ _ _ _ HpreB) as [HpB Hlast].
          assert (B <> s) by (intros ->; contradiction).
          replace (S B - 1)%nat with B by lia. split; [lia|].
          apply (prefix_border H N p s B Hpre); [lia | exact HpB]. }
        destruct Hok as [H0 Hall]. destruct s as [|s].
        -- rewrite (tbl_get_has _ _ _ H0). cbn [bind].
           apply IH; [lia|]. split; [|now left].
           intros B HB HpreB. destruct (Hshorter B HB HpreB) as [->|[Hlt _]]; lia.
        -- destruct (Hall (S s)) as (b & Hb & Hlt & Hbord & Hbmax); [lia|].
           rewrite (tbl_get_has _ _ _ Hb). cbn [bind].
           apply IH; [lia|]. split.
           ++ intros B HB HpreB.
              destruct (Hshorter B HB HpreB) as [->|[Hlt' Hb']]; [lia|].
              specialize (Hbmax _ Hlt' Hb'). lia.
           ++ right. exists b. split; [reflexivity|]. split; [lia|].
              apply (prefix_border H N p (S s) b Hpre); [lia | exact Hbord].
Qed.

(** The scan, entered with [shift] the longest prefix of the needle that
    ends at the cursor and no occurrence ending at or before the cursor,
    returns the first occurrence. *)
Lemma kmp_scan_spec (H N : list byte) (t : table) (fuel : nat) :
  (0 < length N)%nat -> (length N <= fuel)%nat -> table_ok N t (length N) ->
  forall cnt p s,
    (p + cnt = length H)%nat ->
    (s < length N)%nat -> prefix_ends_at H N p s ->
    (forall B, (B <= length N)%nat -> prefix_ends_at H N p B -> (B <= s)%nat) ->
    (forall q, (q + length N <= p)%nat -> ~ occurs_at H N q) ->
    exists r,
      kmp_scan cnt fuel (H ++ Hpad) (N ++ Npad) t (len N) (Z.of_nat p) (Z.of_nat s) = found r /\
      first_occurrence H N r.
Proof.
  intros Hm Hfuel Hok. induction cnt as [|cnt IH]; intros p s Hp Hs Hpre Hmax Hnone.
  - simpl. exists None. split; [reflexivity|]. simpl. intros q Hq.
    apply (Hnone q); [|exact Hq]. apply occurs_at_bound in Hq. lia.
  - cbn [kmp_scan].
    destruct (kmp_shift_spec H N t p ltac:(lia) Hok fuel (Z.of_nat s)) as
        (s' & Hshift & Hs' & Hpre' & Hmax'); [lia | |].
    { split.
      - intros B HB HpreB. destruct B as [|B]; [lia|].
        apply prefix_ends_pred in HpreB. destruct HpreB as [HpB _].
        specialize (Hmax B ltac:(lia) HpB). lia.
      - right. exists s. split; [reflexivity|]. split; [exact Hs | exact Hpre]. }
    rewrite Hshift. cbn [bind]. cbv zeta.
    replace (Z.of_nat s' - 1 + 1) with (Z.of_nat s') by lia.
    replace (Z.of_nat p + 1) with (Z.of_nat (S p)) by lia.
    unfold len. destruct (Z.eqb_spec (Z.of_nat s') (Z.of_nat (length N))) as [E|E].
    + assert (s' = length N) as -> by lia.
      apply prefix_ends_at_full in Hpre'; [|lia]. destruct Hpre' as [Hle Hocc].
      exists (Some (S p - length N)%nat). split.
      * unfold found. cbn [option_map]. do 2 f_equal. lia.
      * unfold first_occurrence. split; [exact Hocc|].
        intros q Hq. apply Hnone. lia.
    + apply IH; [lia | lia | exact Hpre' | exact Hmax' |].
      intros q Hq Hocc.
      destruct (Nat.eq_dec (q + length N) (S p)) as [Eq|Nq].
      * assert (Hfull : prefix_ends_at H N (S p) (length N)).
        { apply prefix_ends_at_full; [lia|]. split; [lia|].
          now replace (S p - length N)%nat with q by lia. }
        specialize (Hmax' _ (Nat.le_refl _) Hfull). lia.
      * apply (Hnone q); [lia | exact Hocc].
Qed.

Lemma kmp_alloc_length (needleLength : Z) :
  length (kmp_alloc needleLength) =
  if needleLength >? MaxLocalMemory then Z.to_nat needleLength else 256%nat.
Proof.
  unfold kmp_alloc. destruct (needleLength >? MaxLocalMemory); apply repeat_length.
Qed.

Lemma table_ok_start (N : list byte) (t : table) :
  (0 < length t)%nat -> table_ok N (list_set t 0 (Some (-1))) 0.
Proof.
  intros Ht. split; [now apply tbl_has_set_same|]. intros j Hj. lia.
Qed.

Lemma tbl_set_first (t : table) (v : Z) :
  (0 < length t)%nat -> tbl_set t 0 v = Ok (list_set t 0 (Some v)).
Proof. exact (tbl_set_in t 0 v). Qed.

(** For a needle of fewer than 256 bytes searchKnuthMorrisPratt returns the
    first occurrence. *)
Lemma searchKnuthMorrisPratt_first (H N : list byte) :
  len N < MaxLocalMemory -> (length N <= length H)%nat ->
  exists r,
    searchKnuthMorrisPratt (Some (H ++ Hpad)) (len H) (Some (N ++ Npad)) (len N) = found r /\
    first_occurrence H N r.
Proof.
  intros Hsmall Hle. unfold searchKnuthMorrisPratt.
  destruct (Z.ltb_spec (len H) (len N)) as [Hlt|_]; [unfold len in Hlt; lia|].
  destruct (size_eq0 (len N)) as [Hzero|Hpos].
  - assert (N = []) as -> by (destruct N; [reflexivity | unfold len in Hzero; simpl in Hzero; lia]).
    exists (Some 0%nat). split; [reflexivity | apply first_occurrence_empty].
  - change MaxLocalMemory with 256 in Hsmall. unfold len in Hsmall, Hpos.
    pose proof (kmp_alloc_length (len N)) as Hcap.
    destruct (Z.gtb_spec (len N) MaxLocalMemory) as [Hgt|_];
      [change MaxLocalMemory with 256 in Hgt; unfold len in Hgt; lia|].
    rewrite tbl_set_first by lia. cbn [bind].
    unfold kmp_fuel, len. rewrite !Nat2Z.id.
    destruct (kmp_prepare_spec N (S (length N)) ltac:(lia) (length N) 0
                               (list_set (kmp_alloc (len N)) 0 (Some (-1))))
      as (t & Ht & _ & Hok).
    + lia.
    + rewrite length_list_set. lia.
    + apply table_ok_start. lia.
    + unfold len in Ht. change (Z.of_nat 0) with 0 in Ht. rewrite Ht. cbn [bind].
      apply (kmp_scan_spec H N t (S (length N)) ltac:(lia) ltac:(lia) Hok
                           (length H) 0 0);
        [lia | lia | apply prefix_ends_at_zero | |].
      * intros B _ [HB _]. lia.
      * intros q Hq. lia.
Qed.


End Views.

(** ** The scan loop of mygrep *)

Section DriverFacts.

Variable memmem : ptr -> Z -> ptr -> Z -> res (option Z).
Variable strstr : ptr -> ptr -> res (option Z).
Variables (data : mem) (haystackLength : Z) (needle : mem) (needleLength : Z).
Variables (algorithm : Algorithm) (display : Display).

Let step_of := scan_step memmem strstr data haystackLength needle needleLength
                         algorithm display.
Let iter := scan_iter memmem strstr data haystackLength needle needleLength
                      algorithm display.
Let loop := scan_loop memmem strstr data haystackLength needle needleLength
                      algorithm display.

Lemma scan_iter_S (k : nat) (st st' : scan) :
  step_of st = Ok (Continue st') -> iter (S k) st = iter k st'.
Proof. intros E. unfold iter, step_of in *. simpl. now rewrite E. Qed.

(** A scan whose every iteration goes on never reaches its [break]. *)
Lemma scan_loop_never_breaks (st0 : scan) :
  (forall k, exists st, iter k st0 = Ok (Some st)) ->
  forall fuel, loop fuel st0 = Fault OutOfFuel.
Proof.
  intros Hall fuel. revert st0 Hall.
  induction fuel as [|fuel IH]; intros st0 Hall; [reflexivity|].
  unfold loop, iter in *. simpl.
  destruct (Hall 1%nat) as (st1 & H1). simpl in H1.
  destruct (scan_step memmem strstr data haystackLength needle needleLength
                      algorithm display st0) as [[st'| |code]|f] eqn:E;
    simpl in *; try discriminate.
  apply IH. intros k. destruct (Hall (S k)) as (st & Hk).
  exists st. simpl in Hk. now rewrite E in Hk.
Qed.

(** More fuel does not change the outcome of a scan that ended. *)
Lemma scan_loop_more_fuel (fuel extra : nat) (st : scan) (r : scan + Z) :
  loop fuel st = Ok r -> loop (fuel + extra) st = Ok r.
Proof.
  revert st. induction fuel as [|fuel IH]; intros st; [discriminate|].
  unfold loop in *. simpl.
  destruct (scan_step memmem strstr data haystackLength needle needleLength
                      algorithm display st) as [[st'| |code]|f];
    simpl; try easy.
  apply IH.
Qed.

End DriverFacts.

Lemma step_on_newline (memmem : ptr -> Z -> ptr -> Z -> res (option Z))
      (strstr : ptr -> ptr -> res (option Z)) (hits : Z) :
  scan_step memmem strstr (two_lines ++ [NEWLINE; NUL]) 3 [NEWLINE; NUL] 1
            UseNative ShowCountOnly (mkScan 1 hits [])
  = Ok (Continue (mkScan 1 (u32 (hits + 1)) [])).
Proof. reflexivity. Qed.

(** ** The five matchers that agree *)

Lemma no_occurrence_of_longer (H N : list byte) :
  (length H < length N)%nat -> first_occurrence H N None.
Proof.
  intros Hlt q Hq. apply occurs_at_bound in Hq. lia.
Qed.


(** searchSimple, searchNative, searchBoyerMooreHorspool and searchBitap
    return the first occurrence of every needle, searchKnuthMorrisPratt that
    of every needle of fewer than 256 bytes; none of them depends on the
    memory behind the haystack or the needle. *)
Lemma sound_matchers_agree (Hpad Npad H N : list byte) :
  fits H ->
  exists r,
    first_occurrence H N r /\
    searchSimple (Some (H ++ Hpad)) (len H) (Some (N ++ Npad)) (len N) = found r /\
    searchNative (Some (H ++ Hpad)) (len H) (Some (N ++ Npad)) (len N) = found r /\
    searchBoyerMooreHorspool (Some (H ++ Hpad)) (len H) (Some (N ++ Npad)) (len N)
    = found r /\
    searchBitap (Some (H ++ Hpad)) (len H) (Some (N ++ Npad)) (len N) = found r /\
    (len N < MaxLocalMemory ->
     searchKnuthMorrisPratt (Some (H ++ Hpad)) (len H) (Some (N ++ Npad)) (len N)
     = found r).
Proof.
  intros Hfit. destruct (Nat.le_gt_cases (length N) (length H)) as [Hle|Hgt].
  - destruct (searchSimple_first Hpad Npad H N Hfit Hle) as (r & Hr & Hfirst).
    exists r. split; [exact Hfirst|]. split; [exact Hr|].
    assert (Hsame : forall r', first_occurrence H N r' -> found r' = found r).
    { intros r' Hr'. f_equal. exact (first_occurrence_unique H N r' r Hr' Hfirst). }
    split; [|split; [|split]].
    + destruct (searchNative_first Hpad Npad H N Hfit Hle) as (r' & -> & Hr').
      now apply Hsame.
    + destruct (searchBoyerMooreHorspool_first Hpad Npad H N Hfit Hle) as (r' & -> & Hr').
      now apply Hsame.
    + destruct (Z.le_gt_cases (len N) MaxBitWidth) as [Hshort|Hlong].
      * destruct (searchBitap_first Hpad Npad H N Hshort Hle) as (r' & -> & Hr').
        now apply Hsame.
      * unfold searchBitap.
        destruct (Z.ltb_spec (len H) (len N)) as [Hlt|_]; [unfold len in Hlt; lia|].
        change MaxBitWidth with 31 in *.
        destruct (size_eq0 (len N)) as [Hz|_]; [lia|].
        destruct (Z.gtb_spec (len N) 31) as [_|Hno]; [|lia].
        destruct (searchNative_first Hpad Npad H N Hfit Hle) as (r' & -> & Hr').
        now apply Hsame.
    + intros Hsmall.
      destruct (searchKnuthMorrisPratt_first Hpad Npad H N Hsmall Hle) as (r' & -> & Hr').
      now apply Hsame.
  - exists None. split; [now apply no_occurrence_of_longer|].
    unfold searchSimple, searchNative, searchBoyerMooreHorspool, searchBitap,
      searchKnuthMorrisPratt.
    destruct (Z.ltb_spec (len H) (len N)) as [_|Hge]; [|unfold len in Hge; lia].
    repeat split; reflexivity.
Qed.

(** ** The empty needle *)

(** With [needleLength = 0] the six length-based matchers return the
    haystack, whatever it holds. *)
Lemma empty_needle_with_length (h n : mem) (haystackLength : Z) :
  0 <= haystackLength < SIZE_MOD - 1 ->
  searchSimple (Some h) haystackLength (Some n) 0 = Ok (Some 0) /\
  searchNative (Some h) haystackLength (Some n) 0 = Ok (Some 0) /\
  searchKnuthMorrisPratt (Some h) haystackLength (Some n) 0 = Ok (Some 0) /\
  searchBoyerMooreHorspool (Some h) haystackLength (Some n) 0 = Ok (Some 0) /\
  searchBitap (Some h) haystackLength (Some n) 0 = Ok (Some 0) /\
  searchRabinKarp (Some h) haystackLength (Some n) 0 = Ok (Some 0).
Proof.
  intros Hrange.
  unfold searchSimple, searchNative, searchKnuthMorrisPratt,
    searchBoyerMooreHorspool, searchBitap, searchRabinKarp.
  destruct (Z.ltb_spec haystackLength 0) as [Hneg|_]; [lia|].
  split; [|repeat split; reflexivity].
  rewrite size_sub_0_1, size_sub_wrap by lia.
  replace (Z.to_nat (haystackLength + 1)) with (S (Z.to_nat haystackLength)) by lia.
  reflexivity.
Qed.

(** With the empty needle four of the five string variants return the
    haystack, whatever it holds (searchBoyerMooreHorspoolString after it has
    measured it). *)
Lemma empty_needle_in_string (h rest : mem) :
  searchKnuthMorrisPrattString (Some h) (Some (NUL :: rest)) = Ok (Some 0) /\
  searchBitapString (Some h) (Some (NUL :: rest)) = Ok (Some 0) /\
  searchRabinKarpString (Some h) (Some (NUL :: rest)) = Ok (Some 0) /\
  (forall l, strlen BadHaystackRead h = Ok l -> 0 <= l ->
             searchBoyerMooreHorspoolString (Some h) (Some (NUL :: rest))
             = Ok (Some 0)).
Proof.
  repeat split; try reflexivity.
  intros l Hl Hpos. unfold searchBoyerMooreHorspoolString. rewrite Hl. cbn [bind].
  change (strlen BadNeedleRead (NUL :: rest)) with (@Ok Z 0). cbn [bind].
  unfold searchBoyerMooreHorspool.
  destruct (Z.ltb_spec l 0) as [Hneg|_]; [lia | reflexivity].
Qed.

(** searchSimpleString finds the empty needle in every haystack but the
    empty one. *)
Lemma empty_needle_searchSimpleString (c : byte) (h rest : mem) :
  searchSimpleString (Some (c :: h)) (Some (NUL :: rest))
  = if is_nul c then Ok NULL else Ok (Some 0).
Proof.
  unfold searchSimpleString. simpl. destruct (is_nul c); reflexivity.
Qed.

(** ** The scan for a pattern that holds no newline *)

Lemma byte_at_skipn (l : list byte) (c i : nat) :
  byte_at (skipn c l) i = byte_at l (c + i).
Proof.
  unfold byte_at. revert l. induction c as [|c IH]; intros l; [reflexivity|].
  destruct l as [|x l]; simpl.
  - now destruct i.
  - apply IH.
Qed.

Lemma skipn_padded (l pad : list byte) (c : nat) :
  (c <= length l)%nat -> skipn c (l ++ pad) = skipn c l ++ pad.
Proof.
  intros Hc. rewrite skipn_app.
  replace (c - length l)%nat with 0%nat by lia. reflexivity.
Qed.

Lemma occurs_at_skipn (l N : list byte) (c q : nat) :
  (c <= length l)%nat ->
  occurs_at (skipn c l) N q <-> occurs_at l N (c + q).
Proof.
  intros Hc. unfold occurs_at. rewrite length_skipn.
  split; intros [Hb Hocc]; (split; [lia|]); intros i Hi.
  - rewrite <- Hocc by exact Hi. rewrite byte_at_skipn. f_equal; lia.
  - rewrite <- Hocc by exact Hi. rewrite byte_at_skipn. f_equal; lia.
Qed.

Lemma find_right_eq (fuel : nat) (data : mem) (haystackEnd right : Z) :
  find_right fuel data haystackEnd right =
  if right =? haystackEnd then Ok right
  else
    c <- rdB data right ;;
    if Byte.eqb c NEWLINE then Ok right
    else match fuel with
         | O => Fault OutOfFuel
         | S fuel' => find_right fuel' data haystackEnd (right + 1)
         end.
Proof. destruct fuel; reflexivity. Qed.

Lemma find_left_eq (fuel : nat) (data : mem) (left : Z) :
  find_left fuel data left =
  if left =? 0 then Ok left
  else
    c <- rdB data left ;;
    if Byte.eqb c NEWLINE then Ok left
    else match fuel with
         | O => Fault OutOfFuel
         | S fuel' => find_left fuel' data (left - 1)
         end.
Proof. destruct fuel; reflexivity. Qed.

(** The scan to the right stops at the first newline byte at or behind the
    hit, or at the end of the file. *)
Lemma find_right_spec (content pad : list byte) :
  forall fuel P,
    (P <= length content)%nat -> (length content - P <= fuel)%nat ->
    exists R,
      find_right fuel (content ++ pad) (len content) (Z.of_nat P) = Ok (Z.of_nat R) /\
      (P <= R <= length content)%nat /\
      (forall k, (P <= k < R)%nat -> byte_at content k <> NEWLINE) /\
      (R = length content \/ byte_at content R = NEWLINE).
Proof.
  induction fuel as [|fuel IH]; intros P HP Hfuel; rewrite find_right_eq; unfold len.
  - assert (P = length content) as -> by lia. rewrite Z.eqb_refl.
    exists (length content). split; [reflexivity|]. split; [lia|].
    split; [intros k Hk; lia | now left].
  - destruct (Z.eqb_spec (Z.of_nat P) (Z.of_nat (length content))) as [E|E].
    + exists P. split; [reflexivity|]. split; [lia|].
      split; [intros k Hk; lia | left; lia].
    + unfold rdB. rewrite rd_in by lia. cbn [bind].
      destruct (Byte.eqb (byte_at content P) NEWLINE) eqn:Enl.
      * apply byte_eqb_true in Enl. exists P. split; [reflexivity|].
        split; [lia|]. split; [intros k Hk; lia | now right].
      * apply byte_eqb_false in Enl.
        replace (Z.of_nat P + 1) with (Z.of_nat (S P)) by lia.
        destruct (IH (S P)) as (R & HR & Hrange & Hrun & Hstop); [lia | lia |].
        fold (len content). rewrite HR. exists R. split; [reflexivity|].
        split; [lia|]. split; [|exact Hstop].
        intros k Hk. destruct (Nat.eq_dec k P) as [->|Hne]; [exact Enl|].
        apply Hrun. lia.
Qed.

(** The scan to the left stops at the last newline byte at or before the
    hit, or at the start of the file. *)
Lemma find_left_spec (content pad : list byte) :
  forall fuel P,
    (P < length content)%nat -> (P <= fuel)%nat ->
    exists L,
      find_left fuel (content ++ pad) (Z.of_nat P) = Ok (Z.of_nat L) /\
      (L <= P)%nat /\
      (forall k, (L < k <= P)%nat -> byte_at content k <> NEWLINE) /\
      (L = 0%nat \/ byte_at content L = NEWLINE).
Proof.
  induction fuel as [|fuel IH]; intros P HP Hfuel; rewrite find_left_eq.
  - assert (P = 0%nat) as -> by lia. simpl.
    exists 0%nat. split; [reflexivity|]. split; [lia|].
    split; [intros k Hk; lia | now left].
  - destruct (Z.eqb_spec (Z.of_nat P) 0) as [E|E].
    + exists P. split; [reflexivity|]. split; [lia|].
      split; [intros k Hk; lia | left; lia].
    + unfold rdB. rewrite rd_in by lia. cbn [bind].
      destruct (Byte.eqb (byte_at content P) NEWLINE) eqn:Enl.
      * apply byte_eqb_true in Enl. exists P. split; [reflexivity|].
        split; [lia|]. split; [intros k Hk; lia | now right].
      * apply byte_eqb_false in Enl.
        replace (Z.of_nat P - 1) with (Z.of_nat (P - 1)) by lia.
        destruct (IH (P - 1)%nat) as (L & HL & Hrange & Hrun & Hstop); [lia | lia |].
        rewrite HL. exists L. split; [reflexivity|].
        split; [lia|]. split; [|exact Hstop].
        intros k Hk. destruct (Nat.eq_dec k P) as [->|Hne]; [exact Enl|].
        apply Hrun. lia.
Qed.

Lemma fwrite_bytes_spec (content pad : list byte) (left right : nat) :
  (left <= right <= length content)%nat ->
  fwrite_bytes (content ++ pad) (Z.of_nat left) (Z.of_nat (right - left))
  = Ok (slice content left right).
Proof.
  intros Hr. unfold fwrite_bytes, slice.
  destruct (Z.leb_spec 0 (Z.of_nat left)) as [_|Hneg]; [|lia].
  rewrite length_app.
  destruct (Z.leb_spec (Z.of_nat left + Z.of_nat (right - left))
                       (Z.of_nat (length content + length pad))) as [_|Hbig]; [|lia].
  cbn [andb]. rewrite !Nat2Z.id, skipn_padded by lia.
  rewrite firstn_app, length_skipn.
  replace (right - left - (length content - left))%nat with 0%nat by lia.
  now rewrite firstn_O, app_nil_r.
Qed.

Lemma u32_add_idemp (a b : Z) : u32 (u32 a + b) = u32 (a + b).
Proof.
  unfold u32, UINT_MOD. rewrite Z.add_mod_idemp_l by lia. reflexivity.
Qed.

(** ** The string variants

    A C string with the text [s] is the memory [s ++ NUL :: rest]: the text
    holds no NUL byte, and what lies behind the terminator is arbitrary. *)

Lemma rd_end (f : fault) (s rest : mem) (c : byte) :
  rd f (s ++ c :: rest) (len s) = Ok c.
Proof.
  unfold rd, len. destruct (Z.ltb_spec (Z.of_nat (length s)) 0) as [Hneg|_]; [lia|].
  rewrite Nat2Z.id, nth_error_app2, Nat.sub_diag by lia. reflexivity.
Qed.

Lemma skipn_byte_at (l : list byte) (p : nat) :
  (p < length l)%nat -> skipn p l = byte_at l p :: skipn (S p) l.
Proof.
  revert l. induction p as [|p IH]; intros [|x l] Hp; simpl in Hp; try lia.
  - reflexivity.
  - change (skipn (S p) (x :: l)) with (skipn p l). rewrite IH by lia. reflexivity.
Qed.

Lemma nul_free_tail (c : byte) (s : list byte) :
  nul_free (c :: s) -> c <> NUL /\ nul_free s.
Proof.
  intros Hs. split.
  - apply (Hs 0%nat). simpl. lia.
  - intros i Hi. apply (Hs (S i)). simpl. lia.
Qed.

Lemma no_nul_spec (s : list byte) : no_nul s = true -> nul_free s.
Proof.
  unfold no_nul. induction s as [|c s IH]; intros Hs i Hi; simpl in *; [lia|].
  apply andb_true_iff in Hs. destruct Hs as [Hc Hs].
  destruct i as [|i].
  - unfold byte_at. simpl. apply byte_eqb_false. now apply negb_true_iff.
  - apply (IH Hs i). lia.
Qed.


Lemma nul_free_is_nul (s : list byte) (i : nat) :
  nul_free s -> (i < length s)%nat -> is_nul (byte_at s i) = false.
Proof. intros Hs Hi. apply byte_eqb_false. now apply Hs. Qed.

Lemma strlen_from_spec (f : fault) (l rest : list byte) (acc : Z) :
  (forall i, (i < length l)%nat -> byte_at l i <> NUL) ->
  strlen_from f (l ++ NUL :: rest) acc = Ok (acc + len l).
Proof.
  revert acc. induction l as [|c l IH]; intros acc Hnul; simpl.
  - unfold len. simpl. now rewrite Z.add_0_r.
  - assert (Hc : is_nul c = false).
    { apply byte_eqb_false. apply (Hnul 0%nat). simpl. lia. }
    rewrite Hc, IH.
    + unfold len. simpl length. f_equal. lia.
    + intros i Hi. apply (Hnul (S i)). simpl. lia.
Qed.

Lemma strlen_spec (f : fault) (s rest : list byte) :
  nul_free s -> strlen f (s ++ NUL :: rest) = Ok (len s).
Proof.
  intros Hs. unfold strlen. now rewrite strlen_from_spec.
Qed.

(** *** searchSimpleString *)

(** The comparison loop stops at the terminator of the needle or at the
    first difference; it reads the haystack up to its terminator at most. *)
Lemma simpleString_cmp_spec (Hrest Nrest H N : list byte) (p : nat) :
  nul_free N -> (p <= length H)%nat ->
  forall cnt i,
    (i + cnt = length N)%nat ->
    (forall k, (k < i)%nat ->
               (p + k < length H)%nat /\ byte_at H (p + k) = byte_at N k) ->
    exists j,
      simpleString_cmp (skipn i N ++ NUL :: Nrest) (H ++ NUL :: Hrest)
                       (Z.of_nat p) (Z.of_nat i) = Ok (Z.of_nat j) /\
      (j <= length N)%nat /\
      (j = length N <-> occurs_at H N p).
Proof.
  intros HN Hp. induction cnt as [|cnt IH]; intros i Hi Hsame.
  - assert (i = length N) as -> by lia. rewrite skipn_all. simpl.
    exists (length N). split; [reflexivity|]. split; [lia|].
    split; [|reflexivity]. intros _. split.
    + destruct (length N) as [|m] eqn:Em; [lia|].
      destruct (Hsame m) as [Hb _]; lia.
    + intros k Hk. now apply Hsame.
  - rewrite skipn_byte_at by lia. cbn [app simpleString_cmp].
    rewrite nul_free_is_nul by (assumption || lia).
    assert (Hreach : (p + i <= length H)%nat).
    { destruct i as [|i]; [lia|]. destruct (Hsame i) as [Hb _]; lia. }
    replace (Z.of_nat p + Z.of_nat i) with (Z.of_nat (p + i)) by lia.
    assert (Hstop : forall a, a <> byte_at N i \/ (length H <= p + i)%nat ->
              (a = byte_at H (p + i) \/ (length H <= p + i)%nat) ->
              exists j, Ok (Z.of_nat i) = Ok (Z.of_nat j) /\ (j <= length N)%nat /\
                        (j = length N <-> occurs_at H N p)).
    { intros a Hdiff Ha. exists i. split; [reflexivity|]. split; [lia|].
      split; [lia|]. intros [Hb Hocc]. exfalso.
      destruct Hdiff as [Hdiff|Hout]; [|lia].
      destruct Ha as [->|Hout]; [|lia].
      apply Hdiff. apply Hocc. lia. }
    destruct (Nat.eq_dec (p + i) (length H)) as [E|E].
    + rewrite E. unfold rdH. fold (len H). rewrite rd_end. cbn [bind].
      assert (Hne : Byte.eqb NUL (byte_at N i) = false).
      { apply byte_eqb_false. intros Heq. apply (HN i); [lia | now symmetry]. }
      rewrite Hne. apply (Hstop NUL); right; lia.
    + unfold rdH. rewrite rd_in by lia. cbn [bind].
      destruct (Byte.eqb (byte_at H (p + i)) (byte_at N i)) eqn:Eb.
      * apply byte_eqb_true in Eb.
        replace (Z.of_nat i + 1) with (Z.of_nat (S i)) by lia.
        apply IH; [lia|]. intros k Hk.
        destruct (Nat.eq_dec k i) as [->|Hne]; [split; [lia | exact Eb]|].
        apply Hsame. lia.
      * apply byte_eqb_false in Eb.
        apply (Hstop (byte_at H (p + i))); [now left | now left].
Qed.

(** The scan, entered with no occurrence before the cursor, returns the
    first occurrence of a needle that is not empty. *)
Lemma simpleString_loop_spec (Hrest Nrest H N : list byte) :
  nul_free H -> nul_free N -> N <> [] ->
  forall cnt p,
    (p + cnt = length H)%nat ->
    (forall q, (q < p)%nat -> ~ occurs_at H N q) ->
    exists r,
      simpleString_loop (skipn p H ++ NUL :: Hrest) (H ++ NUL :: Hrest)
                        (N ++ NUL :: Nrest) (Z.of_nat p) = found r /\
      first_occurrence H N r.
Proof.
  intros HH HN Hne.
  assert (Hpos : (0 < length N)%nat) by (destruct N; [congruence | simpl; lia]).
  induction cnt as [|cnt IH]; intros p Hp Hnone.
  - assert (p = length H) as -> by lia. rewrite skipn_all. simpl.
    exists None. split; [reflexivity|]. intros q Hq.
    destruct (Nat.lt_ge_cases q (length H)) as [Hlt|Hge]; [exact (Hnone q Hlt Hq)|].
    apply occurs_at_bound in Hq. lia.
  - rewrite skipn_byte_at by lia. cbn [app simpleString_loop].
    rewrite nul_free_is_nul by (assumption || lia).
    destruct (simpleString_cmp_spec Hrest Nrest H N p HN ltac:(lia) (length N) 0)
      as (j & Hj & Hle & Hocc); [lia | intros k Hk; lia |].
    change (skipn 0 N) with N in Hj. change (Z.of_nat 0) with 0 in Hj.
    rewrite Hj. cbn [bind].
    destruct (Nat.eq_dec j (length N)) as [E|E].
    + rewrite E. unfold rdN. fold (len N). rewrite rd_end. cbn [bind].
      change (is_nul NUL) with true. cbv iota.
      exists (Some p). split; [reflexivity|].
      split; [now apply Hocc | exact Hnone].
    + unfold rdN. rewrite rd_in by lia. cbn [bind].
      rewrite nul_free_is_nul by (assumption || lia).
      replace (Z.of_nat p + 1) with (Z.of_nat (S p)) by lia.
      apply IH; [lia|]. intros q Hq.
      destruct (Nat.eq_dec q p) as [->|Hqp]; [|apply Hnone; lia].
      intros Hq'. apply E. now apply Hocc.
Qed.

(** searchSimpleString returns the first occurrence of the needle in the
    text of the haystack, unless both are empty. *)
Lemma searchSimpleString_first (Hrest Nrest H N : list byte) :
  nul_free H -> nul_free N -> N <> [] \/ H <> [] ->
  exists r,
    searchSimpleString (Some (H ++ NUL :: Hrest)) (Some (N ++ NUL :: Nrest))
    = found r /\
    first_occurrence H N r.
Proof.
  intros HH HN Hsome. destruct N as [|b N].
  - destruct Hsome as [Hn|Hh]; [congruence|].
    destruct H as [|c H]; [congruence|].
    exists (Some 0%nat). split; [|apply first_occurrence_empty].
    apply nul_free_tail in HH. destruct HH as [Hc _].
    unfold searchSimpleString. cbn [app simpleString_loop].
    apply byte_eqb_false in Hc. unfold is_nul at 1. rewrite Hc. reflexivity.
  - unfold searchSimpleString.
    apply (simpleString_loop_spec Hrest Nrest H (b :: N) HH HN ltac:(discriminate)
                                  (length H) 0); [lia|].
    intros q Hq. lia.
Qed.

(** *** searchBoyerMooreHorspoolString *)

(** searchBoyerMooreHorspoolString measures both strings and returns the
    first occurrence of the needle in the text of the haystack. *)
Lemma searchBoyerMooreHorspoolString_first (Hrest Nrest H N : list byte) :
  nul_free H -> nul_free N -> fits H ->
  exists r,
    searchBoyerMooreHorspoolString (Some (H ++ NUL :: Hrest))
                                   (Some (N ++ NUL :: Nrest)) = found r /\
    first_occurrence H N r.
Proof.
  intros HH HN Hfit. unfold searchBoyerMooreHorspoolString.
  rewrite !strlen_spec by assumption. cbn [bind].
  destruct (sound_matchers_agree (NUL :: Hrest) (NUL :: Nrest) H N Hfit)
    as (r & Hfirst & _ & _ & Hbmh & _).
  exists r. now split.
Qed.

(** *** searchBitapString *)

(** The scan of the string variant, entered with no occurrence ending at
    or before the cursor, returns the first occurrence. *)
Lemma bitapString_scan_spec (Hrest H N : list byte) (masks : byte -> Z) :
  nul_free H -> (0 < length N <= 31)%nat ->
  masks_ok N (len N) masks ->
  forall cnt k state,
    (k + cnt = length H)%nat ->
    state_ok H N k state ->
    (forall q, (q + length N <= k)%nat -> ~ occurs_at H N q) ->
    exists r,
      bitapString_scan (skipn k H ++ NUL :: Hrest) masks (len N)
                       (u32 (Z.shiftl 1 (len N))) (Z.of_nat k) state
      = found r /\
      first_occurrence H N r.
Proof.
  intros HH Hm Hmasks. induction cnt as [|cnt IH]; intros k state Hk Hst Hnone.
  - assert (k = length H) as -> by lia. rewrite skipn_all. simpl.
    exists None. split; [reflexivity|]. intros q Hq.
    apply (Hnone q); [|exact Hq]. apply occurs_at_bound in Hq. lia.
  - rewrite skipn_byte_at by lia. cbn [app bitapString_scan].
    rewrite nul_free_is_nul by (assumption || lia). cbv zeta.
    pose proof (state_ok_step H N masks k state) as Hst'.
    specialize (Hst' ltac:(lia) ltac:(lia) Hmasks Hst).
    rewrite land_FullMatch by (unfold len; lia).
    pose proof (Hst' (length N) (Nat.le_refl _)) as Hbit. fold (len N) in Hbit.
    rewrite prefix_ends_at_full in Hbit by lia.
    destruct (Z.testbit (bitap_step masks state (byte_at H k)) (len N)) eqn:Eb;
      cbn [negb].
    + replace (Z.of_nat k + 1) with (Z.of_nat (S k)) by lia.
      apply IH; [lia | exact Hst' |].
      intros q Hq Hocc.
      destruct (Nat.eq_dec (q + length N) (S k)) as [E|E].
      * assert (false = true -> False) as Hd by discriminate. apply Hd.
        symmetry. apply Hbit. split; [lia|].
        now replace (S k - length N)%nat with q by lia.
      * apply (Hnone q); [lia | exact Hocc].
    + destruct (proj1 Hbit eq_refl) as [Hle Hocc].
      exists (Some (S k - length N)%nat). split.
      * unfold found, len. cbn [option_map]. do 2 f_equal. lia.
      * unfold first_occurrence. split; [exact Hocc|]. intros q Hq. apply Hnone. lia.
Qed.

(** searchBitapString returns the first occurrence of the needle in the
    text of the haystack: by its own scan for a needle of at most 31 bytes,
    through searchSimpleString for a longer one. *)
Lemma searchBitapString_first (Hrest Nrest H N : list byte) :
  nul_free H -> nul_free N ->
  exists r,
    searchBitapString (Some (H ++ NUL :: Hrest)) (Some (N ++ NUL :: Nrest))
    = found r /\
    first_occurrence H N r.
Proof.
  intros HH HN. unfold searchBitapString.
  rewrite strlen_spec by assumption. cbn [bind].
  destruct (size_eq0 (len N)) as [Hzero|Hpos].
  - assert (N = []) as -> by (destruct N; [reflexivity | unfold len in Hzero; simpl in Hzero; lia]).
    exists (Some 0%nat). split; [reflexivity | apply first_occurrence_empty].
  - destruct (Z.gtb_spec (len N) MaxBitWidth) as [Hgt|Hle].
    + apply searchSimpleString_first; [assumption | assumption |].
      left. intros ->. unfold len in Hpos. simpl in Hpos. lia.
    + destruct (bitap_masks_spec (NUL :: Nrest) N) as (masks & Hmk & Hmasks).
      rewrite Hmk. cbn [bind].
      change MaxBitWidth with 31 in Hle. unfold len in Hle, Hpos.
      apply (bitapString_scan_spec Hrest H N masks HH ltac:(lia) Hmasks (length H) 0);
        [lia | apply state_ok_init; lia |].
      intros q Hq. lia.
Qed.

(** *** searchKnuthMorrisPrattString *)

(** The preparation loop of the string variant runs once per byte of the
    needle's text, as the one of the length-based variant does. *)
Lemma kmpString_prepare_eq (l rest : list byte) :
  nul_free l ->
  forall fuel n t i,
    kmpString_prepare (l ++ NUL :: rest) fuel n t i
    = kmp_prepare (length l) fuel n t i.
Proof.
  induction l as [|c l IH]; intros Hl fuel n t i; [reflexivity|].
  apply nul_free_tail in Hl. destruct Hl as [Hc Hl].
  cbn [app kmpString_prepare length kmp_prepare].
  apply byte_eqb_false in Hc. unfold is_nul. rewrite Hc.
  destruct (kmp_prepare_step fuel n t i) as [t'|f]; cbn [bind]; [|reflexivity].
  now apply IH.
Qed.

(** The scan of the string variant, entered like the one of the
    length-based variant, returns the first occurrence. *)
Lemma kmpString_scan_spec (Hrest Nrest H N : list byte) (t : table) (fuel : nat) :
  nul_free H -> nul_free N ->
  (0 < length N)%nat -> (length N <= fuel)%nat -> table_ok N t (length N) ->
  forall cnt p s,
    (p + cnt = length H)%nat ->
    (s < length N)%nat -> prefix_ends_at H N p s ->
    (forall B, (B <= length N)%nat -> prefix_ends_at H N p B -> (B <= s)%nat) ->
    (forall q, (q + length N <= p)%nat -> ~ occurs_at H N q) ->
    exists r,
      kmpString_scan (skipn p H ++ NUL :: Hrest) fuel (H ++ NUL :: Hrest)
                     (N ++ NUL :: Nrest) t (Z.of_nat p) (Z.of_nat s) = found r /\
      first_occurrence H N r.
Proof.
  intros HH HN Hm Hfuel Hok.
  induction cnt as [|cnt IH]; intros p s Hp Hs Hpre Hmax Hnone.
  - assert (p = length H) as -> by lia. rewrite skipn_all. simpl.
    exists None. split; [reflexivity|]. intros q Hq.
    apply (Hnone q); [|exact Hq]. apply occurs_at_bound in Hq. lia.
  - rewrite skipn_byte_at by lia. cbn [app kmpString_scan].
    rewrite nul_free_is_nul by (assumption || lia).
    destruct (kmp_shift_spec (NUL :: Hrest) (NUL :: Nrest) H N t p ltac:(lia) Hok
                             fuel (Z.of_nat s)) as
        (s' & Hshift & Hs' & Hpre' & Hmax'); [lia | |].
    { split.
      - intros B HB HpreB. destruct B as [|B]; [lia|].
        apply prefix_ends_pred in HpreB. destruct HpreB as [HpB _].
        specialize (Hmax B ltac:(lia) HpB). lia.
      - right. exists s. split; [reflexivity|]. split; [exact Hs | exact Hpre]. }
    rewrite Hshift. cbn [bind]. cbv zeta.
    replace (Z.of_nat s' - 1 + 1) with (Z.of_nat s') by lia.
    replace (Z.of_nat p + 1) with (Z.of_nat (S p)) by lia.
    destruct (Nat.eq_dec s' (length N)) as [E|E].
    + rewrite E. unfold rdN. fold (len N). rewrite rd_end. cbn [bind].
      change (is_nul NUL) with true. cbv iota.
      rewrite E in Hpre'.
      apply prefix_ends_at_full in Hpre'; [|lia]. destruct Hpre' as [Hle Hocc].
      exists (Some (S p - length N)%nat). split.
      * unfold found, len. cbn [option_map]. do 2 f_equal. lia.
      * unfold first_occurrence. split; [exact Hocc|].
        intros q Hq. apply Hnone. lia.
    + unfold rdN. rewrite rd_in by lia. cbn [bind].
      rewrite nul_free_is_nul by (assumption || lia).
      apply IH; [lia | lia | exact Hpre' | exact Hmax' |].
      intros q Hq Hocc.
      destruct (Nat.eq_dec (q + length N) (S p)) as [Eq|Nq].
      * assert (Hfull : prefix_ends_at H N (S p) (length N)).
        { apply prefix_ends_at_full; [lia|]. split; [lia|].
          now replace (S p - length N)%nat with q by lia. }
        specialize (Hmax' _ (Nat.le_refl _) Hfull). lia.
      * apply (Hnone q); [lia | exact Hocc].
Qed.

(** For a needle of fewer than 256 bytes searchKnuthMorrisPrattString
    returns the first occurrence in the text of the haystack. *)
Lemma searchKnuthMorrisPrattString_first (Hrest Nrest H N : list byte) :
  nul_free H -> nul_free N -> len N < MaxLocalMemory ->
  exists r,
    searchKnuthMorrisPrattString (Some (H ++ NUL :: Hrest))
                                 (Some (N ++ NUL :: Nrest)) = found r /\
    first_occurrence H N r.
Proof.
  intros HH HN Hsmall. unfold searchKnuthMorrisPrattString.
  rewrite strlen_spec by assumption. cbn [bind].
  destruct (size_eq0 (len N)) as [Hzero|Hpos].
  - assert (N = []) as -> by (destruct N; [reflexivity | unfold len in Hzero; simpl in Hzero; lia]).
    exists (Some 0%nat). split; [reflexivity | apply first_occurrence_empty].
  - change MaxLocalMemory with 256 in Hsmall. unfold len in Hsmall, Hpos.
    pose proof (kmp_alloc_length (len N)) as Hcap.
    destruct (Z.gtb_spec (len N) MaxLocalMemory) as [Hgt|_];
      [change MaxLocalMemory with 256 in Hgt; unfold len in Hgt; lia|].
    rewrite tbl_set_first by lia. cbn [bind].
    rewrite kmpString_prepare_eq by assumption.
    unfold kmp_fuel, len. rewrite !Nat2Z.id.
    destruct (kmp_prepare_spec (NUL :: Nrest) N (S (length N)) ltac:(lia) (length N) 0
                               (list_set (kmp_alloc (len N)) 0 (Some (-1))))
      as (t & Ht & _ & Hok).
    + lia.
    + rewrite length_list_set. lia.
    + apply table_ok_start. lia.
    + unfold len in Ht. change (Z.of_nat 0) with 0 in Ht. rewrite Ht. cbn [bind].
      apply (kmpString_scan_spec Hrest Nrest H N t (S (length N)) HH HN
                                 ltac:(lia) ltac:(lia) Hok (length H) 0 0);
        [lia | lia | apply prefix_ends_at_zero | |].
      * intros B _ [HB _]. lia.
      * intros q Hq. lia.
Qed.


(** ** Rabin-Karp *)

Lemma rd_at (f : fault) (m : mem) (i : nat) :
  (i < length m)%nat -> rd f m (Z.of_nat i) = Ok (byte_at m i).
Proof.
  intros Hi. rewrite <- (app_nil_r m) at 1. now apply rd_in.
Qed.

Lemma byte_at_app (m pad : list byte) (i : nat) :
  (i < length m)%nat -> byte_at (m ++ pad) i = byte_at m i.
Proof. intros Hi. unfold byte_at. now apply app_nth1. Qed.

Lemma byte_at_firstn (l : list byte) (m i : nat) :
  (i < m)%nat -> byte_at (firstn m l) i = byte_at l i.
Proof.
  unfold byte_at. revert l i. induction m as [|m IH]; intros l i Hi; [lia|].
  destruct l as [|x l]; [reflexivity|]. destruct i as [|i]; [reflexivity|].
  simpl. apply IH. lia.
Qed.

Lemma byte_sum_app (l1 l2 : list byte) :
  byte_sum (l1 ++ l2) = byte_sum l1 + byte_sum l2.
Proof.
  induction l1 as [|c l1 IH]; simpl; [reflexivity|]. rewrite IH. ring.
Qed.

Lemma byte_sum_ext (l1 l2 : list byte) :
  length l1 = length l2 ->
  (forall i, (i < length l1)%nat -> byte_at l1 i = byte_at l2 i) ->
  byte_sum l1 = byte_sum l2.
Proof.
  revert l2. induction l1 as [|c l1 IH]; intros [|d l2] Hlen Hsame;
    simpl in Hlen; try discriminate; [reflexivity|].
  simpl. rewrite (IH l2).
  - f_equal. f_equal. apply (Hsame 0%nat). simpl. lia.
  - lia.
  - intros i Hi. apply (Hsame (S i)). simpl. lia.
Qed.

Lemma u32_sub_idemp (a b : Z) : u32 (u32 a - b) = u32 (a - b).
Proof.
  unfold u32, UINT_MOD. rewrite Zminus_mod_idemp_l. reflexivity.
Qed.

(** The sum of a window at an occurrence is the sum of the needle. *)
Lemma window_hash_occurs (pad H N : list byte) (p : nat) :
  occurs_at H N p -> window_hash (H ++ pad) p (length N) = u32 (byte_sum N).
Proof.
  intros [Hb Hocc]. unfold window_hash. f_equal. apply byte_sum_ext.
  - rewrite length_firstn, length_skipn, length_app. lia.
  - intros i Hi. rewrite length_firstn in Hi.
    rewrite byte_at_firstn, byte_at_skipn, byte_at_app by lia.
    apply Hocc. lia.
Qed.

(** One more byte in the window. *)
Lemma window_hash_grow (M : list byte) (p i : nat) :
  (p + i < length M)%nat ->
  u32 (window_hash M p i + char_val (byte_at M (p + i))) = window_hash M p (S i).
Proof.
  intros Hi. unfold window_hash. rewrite u32_add_idemp.
  rewrite (firstn_snoc (skipn p M) i) by (rewrite length_skipn; lia).
  now rewrite byte_sum_app, byte_at_skipn; simpl; rewrite Z.add_0_r.
Qed.

(** The window moved on by one byte. *)
Lemma window_slide (M : list byte) (p m : nat) :
  (p + m < length M)%nat ->
  byte_sum (firstn m (skipn (S p) M))
  = byte_sum (firstn m (skipn p M)) + char_val (byte_at M (p + m))
    - char_val (byte_at M p).
Proof.
  intros Hm.
  assert (E1 : byte_sum (firstn (S m) (skipn p M))
               = byte_sum (firstn m (skipn p M)) + char_val (byte_at M (p + m))).
  { rewrite (firstn_snoc (skipn p M) m) by (rewrite length_skipn; lia).
    rewrite byte_sum_app, byte_at_skipn. simpl. ring. }
  assert (E2 : byte_sum (firstn (S m) (skipn p M))
               = char_val (byte_at M p) + byte_sum (firstn m (skipn (S p) M))).
  { rewrite (skipn_byte_at M p) by lia. reflexivity. }
  lia.
Qed.

Lemma window_hash_add_sub (M : list byte) (p m : nat) :
  (p + m < length M)%nat ->
  u32 (u32 (window_hash M p m + char_val (byte_at M (p + m))) - char_val (byte_at M p))
  = window_hash M (S p) m.
Proof.
  intros Hm. unfold window_hash.
  rewrite u32_add_idemp, u32_sub_idemp, window_slide by exact Hm. reflexivity.
Qed.

Lemma window_hash_sub_add (M : list byte) (p m : nat) :
  (p + m < length M)%nat ->
  u32 (u32 (window_hash M p m - char_val (byte_at M p)) + char_val (byte_at M (p + m)))
  = window_hash M (S p) m.
Proof.
  intros Hm. unfold window_hash.
  rewrite u32_sub_idemp, u32_add_idemp, window_slide by exact Hm. f_equal. ring.
Qed.

(** The verification that follows equal sums: [memcmp] decides, so a
    window that only has the sum of the needle is turned down. *)
Lemma rk_verify_spec (Hpad Npad H N : list byte) (p : nat) :
  (p + length N <= length H)%nat ->
  exists r,
    rk_verify (H ++ Hpad) (N ++ Npad) (len N) (u32 (byte_sum N)) (Z.of_nat p)
              (window_hash (H ++ Hpad) p (length N)) = Ok r /\
    (r = true <-> occurs_at H N p).
Proof.
  intros Hb. unfold rk_verify.
  destruct (Z.eqb_spec (window_hash (H ++ Hpad) p (length N)) (u32 (byte_sum N)))
    as [E|E].
  - unfold len. rewrite Nat2Z.id.
    destruct (memcmp_eq_spec BadHaystackRead BadNeedleRead H Hpad N Npad
                             (length N) p 0 Hb ltac:(lia)) as (r & Hr & Hiff).
    change (Z.of_nat 0) with 0 in Hr. exists r. split; [exact Hr|].
    rewrite Hiff. unfold occurs_at. split.
    + intros Hsame. split; [exact Hb | exact Hsame].
    + intros [_ Hsame]. exact Hsame.
  - exists false. split; [reflexivity|]. split; [discriminate|].
    intros Hocc. exfalso. apply E. now apply window_hash_occurs.
Qed.

(** *** searchRabinKarp *)

(** The loop that sums the needle and the first window ends at the first
    NUL byte of the memory, if there is one in the window. *)
Lemma rk_hash_spec (Npad M N : list byte) (q z : nat) :
  (z < length M)%nat -> byte_at M z = NUL ->
  (forall k, (q <= k < z)%nat -> byte_at M k <> NUL) ->
  forall cnt i,
    (i + cnt = length N)%nat -> (q + i <= z)%nat ->
    rk_hash cnt M (N ++ Npad) (Z.of_nat q) (Z.of_nat i)
            (u32 (byte_sum (firstn i N))) (window_hash M q i)
    = Ok (if (q + length N <=? z)%nat
          then Some (u32 (byte_sum N), window_hash M q (length N))
          else None).
Proof.
  intros Hz Hnul Hrun. induction cnt as [|cnt IH]; intros i Hi Hqi.
  - assert (i = length N) as -> by lia. simpl.
    destruct (Nat.leb_spec (q + length N) z) as [_|Hgt]; [|lia].
    now rewrite firstn_all.
  - cbn [rk_hash]. unfold rdH.
    replace (Z.of_nat q + Z.of_nat i) with (Z.of_nat (q + i)) by lia.
    rewrite rd_at by lia. cbn [bind].
    destruct (Nat.eq_dec (q + i) z) as [E|E].
    + rewrite E, Hnul. change (is_nul NUL) with true. cbv iota.
      destruct (Nat.leb_spec (q + length N) z) as [Hle|_]; [lia | reflexivity].
    + assert (Hc : is_nul (byte_at M (q + i)) = false).
      { apply byte_eqb_false. apply Hrun. lia. }
      rewrite Hc. unfold rdN. rewrite rd_in by lia. cbn [bind].
      rewrite window_hash_grow by lia.
      replace (u32 (u32 (byte_sum (firstn i N)) + char_val (byte_at N i)))
        with (u32 (byte_sum (firstn (S i) N))).
      * replace (Z.of_nat i + 1) with (Z.of_nat (S i)) by lia.
        apply IH; lia.
      * rewrite u32_add_idemp, (firstn_snoc N i) by lia.
        rewrite byte_sum_app. simpl. now rewrite Z.add_0_r.
Qed.

Lemma rk_loop_eq (fuel : nat) (h n : mem)
      (needleLength haystackEnd hashNeedle p hashHaystack : Z) :
  rk_loop fuel h n needleLength haystackEnd hashNeedle p hashHaystack =
  if p =? haystackEnd then Ok NULL
  else
    match fuel with
    | O => Fault OutOfFuel
    | S fuel' =>
        found <- rk_verify h n needleLength hashNeedle p hashHaystack ;;
        if found : bool then Ok (Some p)
        else
          a <- rdH h (p + needleLength) ;;
          let hashHaystack := u32 (hashHaystack + char_val a) in
          b <- rdH h p ;;
          let hashHaystack := u32 (hashHaystack - char_val b) in
          rk_loop fuel' h n needleLength haystackEnd hashNeedle (p + 1) hashHaystack
    end.
Proof. destruct fuel; reflexivity. Qed.

(** The rolling loop, entered with the sum of the window at the cursor and
    no occurrence before it, returns the first occurrence; the byte it reads
    behind the last window is the first one behind the haystack. *)
Lemma rk_loop_spec (Hpad Npad H N : list byte) :
  Hpad <> [] -> (0 < length N <= length H)%nat ->
  forall fuel p,
    (p + length N <= S (length H))%nat ->
    (S (length H) - length N - p <= fuel)%nat ->
    (forall q, (q < p)%nat -> ~ occurs_at H N q) ->
    exists r,
      rk_loop fuel (H ++ Hpad) (N ++ Npad) (len N) (len H - len N + 1)
              (u32 (byte_sum N)) (Z.of_nat p)
              (window_hash (H ++ Hpad) p (length N)) = found r /\
      first_occurrence H N r.
Proof.
  intros Hpad_ne Hlen.
  assert (Hmem : (length H < length (H ++ Hpad))%nat).
  { rewrite length_app. destruct Hpad; [congruence | simpl; lia]. }
  induction fuel as [|fuel IH]; intros p Hp Hfuel Hnone; rewrite rk_loop_eq;
    unfold len;
    destruct (Z.eqb_spec (Z.of_nat p)
                         (Z.of_nat (length H) - Z.of_nat (length N) + 1)) as [E|E];
    try lia.
  - exists None. split; [reflexivity|]. intros q Hq.
    destruct (Nat.lt_ge_cases q p) as [Hlt|Hge]; [exact (Hnone q Hlt Hq)|].
    apply occurs_at_bound in Hq. lia.
  - exists None. split; [reflexivity|]. intros q Hq.
    destruct (Nat.lt_ge_cases q p) as [Hlt|Hge]; [exact (Hnone q Hlt Hq)|].
    apply occurs_at_bound in Hq. lia.
  - destruct (rk_verify_spec Hpad Npad H N p ltac:(lia)) as (r & Hr & Hiff).
    unfold len in Hr. rewrite Hr. cbn [bind]. destruct r.
    + exists (Some p). split; [reflexivity|].
      split; [now apply Hiff | exact Hnone].
    + unfold rdH.
      replace (Z.of_nat p + Z.of_nat (length N)) with (Z.of_nat (p + length N)) by lia.
      rewrite !rd_at by lia. cbn [bind]. cbv zeta.
      rewrite window_hash_add_sub by lia.
      replace (Z.of_nat p + 1) with (Z.of_nat (S p)) by lia.
      apply IH; [lia | lia |]. intros q Hq.
      destruct (Nat.eq_dec q p) as [->|Hqp]; [|apply Hnone; lia].
      intros Hq'. apply Hiff in Hq'. discriminate.
Qed.

(** The first NUL byte of the memory of a terminated haystack lies just
    behind the haystack, or one byte further. *)
Lemma first_nul_of_terminated (H pad : list byte) :
  nul_free H -> terminated pad ->
  exists z,
    (length H <= z <= S (length H))%nat /\ (z < length (H ++ pad))%nat /\
    byte_at (H ++ pad) z = NUL /\
    forall k, (k < z)%nat -> byte_at (H ++ pad) k <> NUL.
Proof.
  intros HH Hpad.
  assert (Hat : forall c rest, byte_at (H ++ c :: rest) (length H) = c).
  { intros c rest. unfold byte_at. rewrite app_nth2, Nat.sub_diag by lia. reflexivity. }
  assert (Hin : forall k, (k < length H)%nat -> byte_at (H ++ pad) k <> NUL).
  { intros k Hk. rewrite byte_at_app by exact Hk. now apply HH. }
  assert (Hfirst : forall rest,
             pad = NUL :: rest ->
             exists z,
               (length H <= z <= S (length H))%nat /\ (z < length (H ++ pad))%nat /\
               byte_at (H ++ pad) z = NUL /\
               forall k, (k < z)%nat -> byte_at (H ++ pad) k <> NUL).
  { intros rest E. exists (length H). split; [lia|]. split.
    - rewrite E, length_app. simpl. lia.
    - split; [rewrite E; apply Hat | exact Hin]. }
  destruct Hpad as [(rest & E)|(c & rest & E)]; [now apply (Hfirst rest)|].
  destruct (Byte.eqb c NUL) eqn:Ec.
  - apply byte_eqb_true in Ec. subst c. now apply (Hfirst (NUL :: rest)).
  - apply byte_eqb_false in Ec. exists (S (length H)). split; [lia|]. split.
    + rewrite E, length_app. simpl. lia.
    + split.
      * rewrite E. unfold byte_at. rewrite app_nth2 by lia.
        replace (S (length H) - length H)%nat with 1%nat by lia. reflexivity.
      * intros k Hk. destruct (Nat.eq_dec k (length H)) as [->|Hne].
        -- rewrite E, Hat. exact Ec.
        -- apply Hin. lia.
Qed.

(** On a haystack without NUL byte whose memory is terminated,
    searchRabinKarp returns the first occurrence. *)
Lemma searchRabinKarp_first (Hpad Npad H N : list byte) :
  nul_free H -> terminated Hpad ->
  exists r,
    searchRabinKarp (Some (H ++ Hpad)) (len H) (Some (N ++ Npad)) (len N) = found r /\
    first_occurrence H N r.
Proof.
  intros HH Hterm. unfold searchRabinKarp.
  destruct (Z.ltb_spec (len H) (len N)) as [Hlt|Hge].
  { exists None. split; [reflexivity|]. apply no_occurrence_of_longer.
    unfold len in Hlt. lia. }
  destruct (size_eq0 (len N)) as [Hzero|Hpos].
  { assert (N = []) as -> by (destruct N; [reflexivity | unfold len in Hzero; simpl in Hzero; lia]).
    exists (Some 0%nat). split; [reflexivity | apply first_occurrence_empty]. }
  unfold len in Hge, Hpos.
  pose proof (rd_in BadNeedleRead N Npad 0 ltac:(lia)) as Hc.
  change (Z.of_nat 0) with 0 in Hc. unfold rdN. rewrite Hc. cbn [bind].
  unfold len at 1. rewrite Nat2Z.id.
  destruct (memchr_spec BadHaystackRead H Hpad (byte_at N 0) (length H) 0 ltac:(lia))
    as (r & Hr & Hfound).
  change (Z.of_nat 0) with 0 in Hr. rewrite Hr. cbn [bind].
  destruct r as [q|]; cbn [option_map].
  - destruct Hfound as (Hq & Hat & Hbefore).
    assert (Hnone : forall q', (q' < q)%nat -> ~ occurs_at H N q').
    { intros q' Hq' [_ Hocc]. apply (Hbefore q'); [lia|].
      rewrite <- (Nat.add_0_r q'). apply Hocc. lia. }
    destruct (first_nul_of_terminated H Hpad HH Hterm) as (z & Hz & Hzmem & Hnul & Hrun).
    pose proof (rk_hash_spec Npad (H ++ Hpad) N q z Hzmem Hnul
                             (fun k Hk => Hrun k (proj2 Hk)) (length N) 0
                             ltac:(lia) ltac:(lia)) as Hhash.
    change (Z.of_nat 0) with 0 in Hhash.
    change (u32 (byte_sum (firstn 0 N))) with 0 in Hhash.
    change (window_hash (H ++ Hpad) q 0) with 0 in Hhash.
    unfold len. rewrite Nat2Z.id, Hhash. cbn [bind].
    destruct (Nat.leb_spec (q + length N) z) as [Hle|Hgt].
    + assert (Hne : Hpad <> []).
      { intros ->. rewrite app_nil_r in Hzmem. lia. }
      apply (rk_loop_spec Hpad Npad H N Hne ltac:(lia) (rk_fuel (H ++ Hpad)) q);
        [lia | unfold rk_fuel; lia | exact Hnone].
    + exists None. split; [reflexivity|]. intros q' Hq'.
      destruct (Nat.lt_ge_cases q' q) as [Hlt|Hge']; [exact (Hnone q' Hlt Hq')|].
      apply occurs_at_bound in Hq'. lia.
  - exists None. split; [reflexivity|]. intros q' [Hb Hocc].
    apply (Hfound q'); [lia|].
    rewrite <- (Nat.add_0_r q'). apply Hocc. lia.
Qed.

(** *** searchRabinKarpString *)

Lemma strchr_from_spec (f : fault) (H rest : list byte) (c : byte) :
  nul_free H -> c <> NUL ->
  forall cnt p,
    (p + cnt = length H)%nat ->
    exists r,
      strchr_from f (skipn p H ++ NUL :: rest) (Z.of_nat p) c
      = Ok (option_map Z.of_nat r) /\
      match r with
      | Some q => (p <= q < length H)%nat /\ byte_at H q = c /\
                  forall k, (p <= k < q)%nat -> byte_at H k <> c
      | None => forall k, (p <= k < length H)%nat -> byte_at H k <> c
      end.
Proof.
  intros HH Hc. induction cnt as [|cnt IH]; intros p Hp.
  - assert (p = length H) as -> by lia. rewrite skipn_all. simpl.
    assert (E : Byte.eqb NUL c = false).
    { apply byte_eqb_false. congruence. }
    rewrite E. exists None. split; [reflexivity|]. intros k Hk. lia.
  - rewrite skipn_byte_at by lia. cbn [app strchr_from].
    destruct (Byte.eqb (byte_at H p) c) eqn:E.
    + apply byte_eqb_true in E. exists (Some p). split; [reflexivity|].
      split; [lia|]. split; [exact E|]. intros k Hk. lia.
    + apply byte_eqb_false in E.
      rewrite nul_free_is_nul by (assumption || lia).
      replace (Z.of_nat p + 1) with (Z.of_nat (S p)) by lia.
      destruct (IH (S p)) as (r & Hr & Hspec); [lia|].
      exists r. split; [exact Hr|]. destruct r as [q|].
      * destruct Hspec as (Hq & Hat & Hbefore). split; [lia|]. split; [exact Hat|].
        intros k Hk. destruct (Nat.eq_dec k p) as [->|Hne]; [exact E|].
        apply Hbefore. lia.
      * intros k Hk. destruct (Nat.eq_dec k p) as [->|Hne]; [exact E|].
        apply Hspec. lia.
Qed.

(** The loop that sums the needle and the first window stops at the
    terminator that comes first. *)
Lemma rkString_hash_spec (Hrest Nrest H N : list byte) (q : nat) :
  nul_free H -> nul_free N ->
  forall cnt i,
    (i + cnt = length N)%nat -> (q + i <= length H)%nat ->
    rkString_hash (skipn i N ++ NUL :: Nrest) (H ++ NUL :: Hrest)
                  (Z.of_nat i) (Z.of_nat (q + i))
                  (u32 (byte_sum (firstn i N)))
                  (window_hash (H ++ NUL :: Hrest) q i)
    = Ok (Z.of_nat (Nat.min (length N) (length H - q)),
          Z.of_nat (q + Nat.min (length N) (length H - q)),
          u32 (byte_sum (firstn (Nat.min (length N) (length H - q)) N)),
          window_hash (H ++ NUL :: Hrest) q (Nat.min (length N) (length H - q))).
Proof.
  intros HH HN. induction cnt as [|cnt IH]; intros i Hi Hqi.
  - assert (i = length N) as -> by lia. rewrite skipn_all. simpl.
    now replace (Nat.min (length N) (length H - q)) with (length N) by lia.
  - rewrite skipn_byte_at by lia. cbn [app rkString_hash].
    rewrite nul_free_is_nul by (assumption || lia). unfold rdH.
    destruct (Nat.eq_dec (q + i) (length H)) as [E|E].
    + replace (Nat.min (length N) (length H - q)) with i by lia.
      rewrite E. fold (len H). rewrite rd_end. reflexivity.
    + rewrite rd_in by lia. cbn [bind].
      rewrite nul_free_is_nul by (assumption || lia).
      rewrite <- (byte_at_app H (NUL :: Hrest) (q + i)) by lia.
      rewrite window_hash_grow by (rewrite length_app; lia).
      replace (u32 (u32 (byte_sum (firstn i N)) + char_val (byte_at N i)))
        with (u32 (byte_sum (firstn (S i) N))).
      * replace (Z.of_nat i + 1) with (Z.of_nat (S i)) by lia.
        replace (Z.of_nat (q + i) + 1) with (Z.of_nat (q + S i)) by lia.
        apply IH; lia.
      * rewrite u32_add_idemp, (firstn_snoc N i) by lia.
        rewrite byte_sum_app. simpl. now rewrite Z.add_0_r.
Qed.

Lemma rkString_loop_eq (hrest h n : mem) (needleLength hashNeedle p hashHaystack : Z) :
  rkString_loop hrest h n needleLength hashNeedle p hashHaystack =
  (found <- rk_verify h n needleLength hashNeedle p hashHaystack ;;
   if found : bool then Ok (Some p)
   else
     match hrest with
     | [] => Fault BadHaystackRead
     | a :: hrest' =>
         if is_nul a then Ok NULL
         else
           b <- rdH h p ;;
           let hashHaystack := u32 (hashHaystack - char_val b) in
           let hashHaystack := u32 (hashHaystack + char_val a) in
           rkString_loop hrest' h n needleLength hashNeedle (p + 1) hashHaystack
     end).
Proof. destruct hrest; reflexivity. Qed.

(** The rolling loop of the string variant, entered with the sum of the
    window at the cursor and no occurrence before it, returns the first
    occurrence. *)
Lemma rkString_loop_spec (Hrest Nrest H N : list byte) :
  nul_free H -> (0 < length N)%nat ->
  forall cnt p,
    (p + length N + cnt = length H)%nat ->
    (forall q, (q < p)%nat -> ~ occurs_at H N q) ->
    exists r,
      rkString_loop (skipn (p + length N) (H ++ NUL :: Hrest))
                    (H ++ NUL :: Hrest) (N ++ NUL :: Nrest) (len N)
                    (u32 (byte_sum N)) (Z.of_nat p)
                    (window_hash (H ++ NUL :: Hrest) p (length N)) = found r /\
      first_occurrence H N r.
Proof.
  intros HH Hpos.
  assert (Hmem : length (H ++ NUL :: Hrest) = S (length H + length Hrest)).
  { rewrite length_app. simpl. lia. }
  induction cnt as [|cnt IH]; intros p Hp Hnone; rewrite rkString_loop_eq;
    destruct (rk_verify_spec (NUL :: Hrest) (NUL :: Nrest) H N p ltac:(lia))
      as (r & Hr & Hiff);
    rewrite Hr; cbn [bind]; destruct r;
    try (exists (Some p); split; [reflexivity|];
         split; [now apply Hiff | exact Hnone]).
  - rewrite skipn_padded by lia.
    replace (p + length N)%nat with (length H) by lia. rewrite skipn_all. simpl.
    exists None. split; [reflexivity|]. intros q Hq.
    destruct (Nat.lt_ge_cases q p) as [Hlt|Hge]; [exact (Hnone q Hlt Hq)|].
    destruct (Nat.eq_dec q p) as [->|Hqp]; [apply Hiff in Hq; discriminate|].
    apply occurs_at_bound in Hq. lia.
  - rewrite skipn_byte_at by lia.
    assert (Hc : is_nul (byte_at (H ++ NUL :: Hrest) (p + length N)) = false).
    { rewrite byte_at_app by lia. apply nul_free_is_nul; [assumption | lia]. }
    rewrite Hc. unfold rdH. rewrite rd_at by lia. cbn [bind]. cbv zeta.
    rewrite window_hash_sub_add by lia.
    replace (Z.of_nat p + 1) with (Z.of_nat (S p)) by lia.
    change (S (p + length N)) with (S p + length N)%nat.
    apply IH; [lia|]. intros q Hq.
    destruct (Nat.eq_dec q p) as [->|Hqp]; [|apply Hnone; lia].
    intros Hq'. apply Hiff in Hq'. discriminate.
Qed.

(** searchRabinKarpString returns the first occurrence of the needle in
    the text of the haystack. *)
Lemma searchRabinKarpString_first (Hrest Nrest H N : list byte) :
  nul_free H -> nul_free N ->
  exists r,
    searchRabinKarpString (Some (H ++ NUL :: Hrest)) (Some (N ++ NUL :: Nrest))
    = found r /\
    first_occurrence H N r.
Proof.
  intros HH HN. unfold searchRabinKarpString. destruct N as [|c N'] eqn:EN.
  { exists (Some 0%nat). split; [reflexivity | apply first_occurrence_empty]. }
  rewrite <- EN in *.
  assert (Hpos : (0 < length N)%nat) by (rewrite EN; simpl; lia).
  assert (Hc0 : byte_at N 0 = c) by now rewrite EN.
  pose proof (rd_in BadNeedleRead N (NUL :: Nrest) 0 Hpos) as Hc.
  change (Z.of_nat 0) with 0 in Hc. unfold rdN at 1. rewrite Hc, Hc0. cbn [bind].
  assert (Hcn : c <> NUL) by (rewrite <- Hc0; apply HN; exact Hpos).
  assert (Hcnul : is_nul c = false) by now apply byte_eqb_false.
  rewrite Hcnul.
  destruct (strchr_from_spec BadHaystackRead H Hrest c HH Hcn (length H) 0 ltac:(lia))
    as (r & Hr & Hfound).
  change (skipn 0 H) with H in Hr. change (Z.of_nat 0) with 0 in Hr.
  rewrite Hr. cbn [bind]. destruct r as [q|]; cbn [option_map].
  - destruct Hfound as (Hq & Hat & Hbefore).
    assert (Hnone : forall q', (q' < q)%nat -> ~ occurs_at H N q').
    { intros q' Hq' [_ Hocc]. apply (Hbefore q'); [lia|].
      rewrite <- Hc0, <- (Nat.add_0_r q'). apply Hocc. lia. }
    unfold rdH at 1. rewrite rd_in by lia. cbn [bind].
    pose proof (rkString_hash_spec Hrest Nrest H N q HH HN (length N - 1) 1
                                   ltac:(lia) ltac:(lia)) as Hhash.
    rewrite <- skipn_padded in Hhash by lia.
    replace (u32 (byte_sum (firstn 1 N))) with (u32 (char_val c)) in Hhash
      by (rewrite EN; simpl; now rewrite Z.add_0_r).
    replace (window_hash (H ++ NUL :: Hrest) q 1) with (u32 (char_val (byte_at H q)))
      in Hhash.
    2:{ unfold window_hash. rewrite (skipn_byte_at (H ++ NUL :: Hrest) q)
          by (rewrite length_app; lia).
        rewrite byte_at_app by lia. simpl. now rewrite Z.add_0_r. }
    replace (Z.of_nat (q + 1)) with (Z.of_nat q + 1) in Hhash by lia.
    change (Z.of_nat 1) with 1 in Hhash. rewrite Hhash. cbn [bind].
    destruct (Nat.le_gt_cases (length N) (length H - q)) as [Hfit|Hshort].
    + replace (Nat.min (length N) (length H - q)) with (length N) by lia.
      unfold rdN. fold (len N). rewrite rd_end. cbn [bind].
      change (is_nul NUL) with true. cbv iota.
      rewrite Nat2Z.id, firstn_all.
      apply (rkString_loop_spec Hrest Nrest H N HH Hpos (length H - q - length N) q);
        [lia | exact Hnone].
    + replace (Nat.min (length N) (length H - q)) with (length H - q)%nat by lia.
      unfold rdN. rewrite rd_in by lia. cbn [bind].
      rewrite nul_free_is_nul by (assumption || lia).
      exists None. split; [reflexivity|]. intros q' Hq'.
      destruct (Nat.lt_ge_cases q' q) as [Hlt|Hge']; [exact (Hnone q' Hlt Hq')|].
      apply occurs_at_bound in Hq'. lia.
  - exists None. split; [reflexivity|]. intros q' [Hb Hocc].
    apply (Hfound q'); [lia|].
    rewrite <- Hc0, <- (Nat.add_0_r q'). apply Hocc. lia.
Qed.

(** ** The matcher that the scan calls *)

(** A matcher proved to return the first occurrence does so at every
    cursor: it is given the rest of the buffer and the number of bytes of the
    file that are left. *)
Lemma call_matcher_spec (memmem : ptr -> Z -> ptr -> Z -> res (option Z))
      (strstr : ptr -> ptr -> res (option Z))
      (content N : list byte) (algorithm : Algorithm) :
  fits content -> sound_algorithm algorithm (len N) = true ->
  finds_first memmem strstr content N algorithm.
Proof.
  intros Hfits Hs cur Hcur.
  assert (Hfit : fits (skipn cur content)).
  { unfold fits, len in *. rewrite length_skipn. lia. }
  destruct (sound_matchers_agree [NEWLINE; NUL] [NUL] (skipn cur content) N Hfit)
    as (r & Hfirst & Hsimple & Hnative & Hbmh & Hbitap & Hkmp).
  exists r. split; [|exact Hfirst].
  assert (Hleft : size_sub (len content) (Z.of_nat cur) = len (skipn cur content)).
  { unfold fits, len in *. rewrite size_sub_small, length_skipn by lia. lia. }
  unfold call_matcher. rewrite Nat2Z.id, skipn_padded, Hleft by exact Hcur.
  destruct algorithm; simpl in Hs; try discriminate; f_equal; try assumption.
  apply Hkmp. lia.
Qed.







Section OrdinaryPattern.

Variable memmem : ptr -> Z -> ptr -> Z -> res (option Z).
Variable strstr : ptr -> ptr -> res (option Z).
Variables (content N : list byte) (algorithm : Algorithm) (display : Display).

Hypothesis content_fits : fits content.
Hypothesis pattern_not_empty : N <> [].
Hypothesis pattern_on_one_line :
  forall i, (i < length N)%nat -> byte_at N i <> NEWLINE.
Hypothesis matcher_finds_first : finds_first memmem strstr content N algorithm.

Let data : mem := content ++ [NEWLINE; NUL].
Let needle : mem := N ++ [NUL].

Lemma pattern_length_pos : (0 < length N)%nat.
Proof. destruct N; [now contradiction pattern_not_empty | simpl; lia]. Qed.

(** An occurrence that begins in a physical line ends in it. *)
Lemma occurrence_ends_in_line (q right : nat) :
  occurs_at content N q -> (q < right)%nat ->
  right = length content \/ byte_at content right = NEWLINE ->
  (q + length N <= right)%nat.
Proof.
  intros [Hb Hocc] Hq [->|Hnl]; [exact Hb|].
  destruct (Nat.le_gt_cases (q + length N) right) as [Hle|Hgt]; [exact Hle|].
  exfalso. apply (pattern_on_one_line (right - q)%nat); [lia|].
  rewrite <- Hocc by lia. rewrite <- Hnl. f_equal; lia.
Qed.

(** The physical line of a hit at [P], as the two boundary scans find it. *)
Lemma line_of_hit (cur P : nat) :
  cursor_ok content cur -> (cur <= P)%nat -> occurs_at content N P ->
  exists left right,
    is_line content left right /\
    (left <= P)%nat /\ (P + length N <= right)%nat /\
    (cur <= left)%nat /\ ((0 < cur)%nat -> (cur < left)%nat) /\
    find_right (length data) data (len content) (Z.of_nat P) = Ok (Z.of_nat right) /\
    (l <- find_left (length data) data (Z.of_nat P) ;;
     c <- rdB data l ;;
     Ok (if Byte.eqb c NEWLINE && negb (l =? len content) then l + 1 else l))
    = Ok (Z.of_nat left).
Proof.
  intros Hcur HcurP Hocc.
  pose proof pattern_length_pos as Hpos.
  pose proof (occurs_at_bound _ _ _ Hocc) as Hbound.
  assert (HP : byte_at content P <> NEWLINE).
  { destruct Hocc as [_ Ho]. rewrite <- (Nat.add_0_r P), Ho by lia.
    apply pattern_on_one_line. lia. }
  assert (Hdata : length data = (length content + 2)%nat).
  { unfold data. rewrite length_app. reflexivity. }
  destruct (find_right_spec content [NEWLINE; NUL] (length data) P)
    as (R & HR & HRr & HRrun & HRstop); [lia | lia |].
  destruct (find_left_spec content [NEWLINE; NUL] (length data) P)
    as (L & HL & HLr & HLrun & HLstop); [lia | lia |].
  assert (HPR : (P < R)%nat).
  { destruct (Nat.eq_dec R P) as [->|Hne]; [|lia].
    destruct HRstop as [E|E]; [lia | contradiction]. }
  set (left := if Byte.eqb (byte_at content L) NEWLINE then S L else L).
  assert (Hleft : (left <= P)%nat /\
                  (forall k, (left <= k <= P)%nat -> byte_at content k <> NEWLINE) /\
                  (left = 0%nat \/ byte_at content (left - 1) = NEWLINE) /\
                  (L <= left)%nat).
  { unfold left. destruct (Byte.eqb (byte_at content L) NEWLINE) eqn:E.
    - apply byte_eqb_true in E.
      assert (L <> P) by (intros ->; contradiction).
      split; [lia|]. split; [intros k Hk; apply HLrun; lia|].
      split; [|lia]. right. now replace (S L - 1)%nat with L by lia.
    - apply byte_eqb_false in E.
      destruct HLstop as [->|Hnl]; [|contradiction].
      split; [lia|]. split; [|split; [now left | lia]].
      intros k Hk. destruct (Nat.eq_dec k 0) as [->|Hne]; [exact E|].
      apply HLrun. lia. }
  destruct Hleft as (HleftP & Hleftrun & Hleftstop & HLleft).
  exists left, R. split; [|split; [exact HleftP|split; [|split; [|split; [|split]]]]].
  - split; [lia|]. split; [|split; [exact Hleftstop | exact HRstop]].
    intros k Hk. destruct (Nat.le_gt_cases k P) as [Hle|Hgt].
    + apply Hleftrun. lia.
    + apply HRrun. lia.
  - now apply occurrence_ends_in_line.
  - destruct Hcur as [->|[->|[Hlt Hnl]]]; [lia | lia |].
    destruct (Nat.le_gt_cases cur L) as [Hle|Hgt]; [lia|].
    exfalso. apply (HLrun cur); [|exact Hnl].
    assert (cur <> P) by (intros ->; contradiction). lia.
  - intros Hcurpos. destruct Hcur as [->|[->|[Hlt Hnl]]]; [lia | lia |].
    assert (cur <> P) by (intros ->; contradiction).
    destruct (Nat.le_gt_cases cur L) as [Hle|Hgt].
    + unfold left. destruct (Nat.eq_dec L cur) as [->|Hne].
      * rewrite (proj2 (byte_eqb_true _ _) Hnl). lia.
      * destruct (Byte.eqb (byte_at content L) NEWLINE); lia.
    + exfalso. apply (HLrun cur); [lia | exact Hnl].
  - exact HR.
  - fold data in HL. rewrite HL. cbn [bind].
    unfold rdB, data. rewrite rd_in by lia. cbn [bind]. unfold left, len.
    destruct (Z.eqb_spec (Z.of_nat L) (Z.of_nat (length content))) as [E|_]; [lia|].
    cbn [negb]. rewrite andb_true_r.
    destruct (Byte.eqb (byte_at content L) NEWLINE); f_equal; lia.
Qed.

Let step_of : scan -> res step :=
  scan_step memmem strstr data (len content) needle (len N) algorithm display.
Let loop : nat -> scan -> res (scan + Z) :=
  scan_loop memmem strstr data (len content) needle (len N) algorithm display.

(** One iteration at a cursor: it ends the scan when no occurrence is left,
    and otherwise counts one hit, writes the physical line of the first
    occurrence and puts the cursor on the end of that line. *)
Lemma scan_step_spec (cur : nat) (hits : Z) (w : list (list byte)) :
  (cur <= length content)%nat -> cursor_ok content cur ->
  (first_occurrence (skipn cur content) N None /\
   step_of (mkScan (Z.of_nat cur) hits w) = Ok Break) \/
  (exists off left right,
      first_occurrence (skipn cur content) N (Some off) /\
      is_line content left right /\
      (left <= cur + off)%nat /\ (cur + off + length N <= right)%nat /\
      (cur <= left)%nat /\ ((0 < cur)%nat -> (cur < left)%nat) /\
      step_of (mkScan (Z.of_nat cur) hits w)
      = Ok (Continue (mkScan (Z.of_nat right) (u32 (hits + 1))
                             (w ++ lines_of content display [(left, right)])))).
Proof.
  intros Hcur Hok. unfold step_of, scan_step. cbn [current numHits written].
  destruct (matcher_finds_first cur Hcur) as (r & Hcall & Hfirst).
  fold data needle in Hcall. rewrite Hcall. unfold found. cbn [bind].
  destruct r as [off|]; cbn [option_map]; [|left; now split].
  right. pose proof Hfirst as [Hocc _].
  apply occurs_at_skipn in Hocc; [|exact Hcur].
  destruct (line_of_hit cur (cur + off) Hok ltac:(lia) Hocc)
    as (left & right & Hline & HlP & HPr & Hcl & Hcl' & Hright & Hleft).
  exists off, left, right.
  split; [exact Hfirst|]. split; [exact Hline|]. split; [exact HlP|].
  split; [exact HPr|]. split; [exact Hcl|]. split; [exact Hcl'|].
  unfold after_hit. cbn [numHits written].
  replace (Z.of_nat cur + Z.of_nat off) with (Z.of_nat (cur + off)) by lia.
  rewrite Hright. cbn [bind]. unfold lines_of.
  destruct display; [|now rewrite app_nil_r].
  destruct (find_left (length data) data (Z.of_nat (cur + off))) as [l|f];
    cbn [bind] in *; [|discriminate].
  destruct (rdB data l) as [c|f]; cbn [bind] in *; [|discriminate].
  injection Hleft as Hleft. rewrite Hleft.
  destruct Hline as (Hlr & _).
  rewrite size_sub_small by (unfold fits, len in *; lia).
  replace (Z.of_nat right - Z.of_nat left) with (Z.of_nat (right - left)) by lia.
  unfold data. rewrite fwrite_bytes_spec by lia. reflexivity.
Qed.

(** The scan from a cursor on: it ends, and what it counts and writes are
    the physical lines with an occurrence from the cursor on, each once. *)
Lemma scan_loop_spec :
  forall fuel cur hits w,
    (cur <= length content)%nat -> cursor_ok content cur ->
    (length content - cur < fuel)%nat ->
    exists spans final,
      reported content N cur spans /\
      loop fuel (mkScan (Z.of_nat cur) (u32 hits) w)
      = Ok (inl (mkScan (Z.of_nat final)
                        (u32 (hits + Z.of_nat (length spans)))
                        (w ++ lines_of content display spans))).
Proof.
  pose proof pattern_length_pos as Hpos.
  induction fuel as [|fuel IH]; intros cur hits w Hcur Hok Hfuel; [lia|].
  unfold loop. cbn [scan_loop]. fold step_of.
  destruct (scan_step_spec cur (u32 hits) w Hcur Hok)
    as [[Hnone Hstep]|(off & left & right & Hfirst & Hline & HlP & HPr & Hcl & Hcl' & Hstep)];
    rewrite Hstep; cbn [bind].
  - exists [], cur. split.
    + split; [constructor|]. split; [intros l r []|].
      intros q Hq Hocc. exfalso. apply (Hnone (q - cur)%nat).
      apply occurs_at_skipn; [exact Hcur|]. now replace (cur + (q - cur))%nat with q by lia.
    + unfold lines_of. simpl length. rewrite Z.add_0_r.
      destruct display; simpl; now rewrite app_nil_r.
  - pose proof Hline as (Hlr & Hrun & Hlstop & Hrstop).
    assert (Hok' : cursor_ok content right).
    { destruct Hrstop as [->|Hnl]; [right; now left|].
      destruct (Nat.eq_dec right (length content)) as [->|Hne]; [right; now left|].
      right. right. split; [lia | exact Hnl]. }
    rewrite u32_add_idemp. fold loop.
    destruct (IH right (hits + 1) (w ++ lines_of content display [(left, right)]))
      as (spans & final & (Hsorted & Hin & Hcover) & Hloop); [lia | exact Hok' | lia |].
    exists ((left, right) :: spans), final. split.
    + pose proof Hfirst as [Hocc Hbefore].
      apply occurs_at_skipn in Hocc; [|exact Hcur].
      split; [|split].
      * constructor; [exact Hsorted|]. apply Forall_forall. intros [l r] Hlr'.
        destruct (Hin l r Hlr') as (_ & _ & Hgt & _). simpl. apply Hgt. lia.
      * intros l r [E|Hlr'].
        -- injection E as <- <-. split; [exact Hline|]. split; [exact Hcl|].
           split; [exact Hcl'|]. exists (cur + off)%nat.
           split; [exact HlP|]. split; [exact HPr | exact Hocc].
        -- destruct (Hin l r Hlr') as (Hl & Hge & Hgt & Hq).
           split; [exact Hl|]. split; [lia|]. split; [intros _; lia | exact Hq].
      * intros q Hq Hoccq.
        destruct (Nat.lt_ge_cases q (cur + off)) as [Hlt|Hge].
        -- exfalso. apply (Hbefore (q - cur)%nat); [lia|].
           apply occurs_at_skipn; [exact Hcur|].
           now replace (cur + (q - cur))%nat with q by lia.
        -- destruct (Nat.lt_ge_cases q right) as [Hin'|Hout].
           ++ exists left, right. split; [now left|]. split; [lia|].
              now apply occurrence_ends_in_line.
           ++ destruct (Hcover q Hout Hoccq) as (l & r & Hlr' & Hlq & Hqr).
              exists l, r. split; [now right|]. now split.
    + rewrite Hloop. do 3 f_equal.
      * f_equal. simpl length. lia.
      * rewrite <- app_assoc. f_equal. unfold lines_of.
        destruct display; reflexivity.
Qed.

End OrdinaryPattern.

(** ** The whole run of mygrep *)

(** The spans of a report are disjoint and not empty, so there are no more
    of them than bytes. *)
Lemma sorted_spans_bound (spans : list (nat * nat)) :
  StronglySorted (fun a b => (snd a < fst b)%nat) spans ->
  forall lo hi,
    (forall l r, In (l, r) spans -> (lo <= l)%nat /\ (l < r)%nat /\ (r <= hi)%nat) ->
    (length spans <= hi - lo)%nat.
Proof.
  induction 1 as [|[l r] spans Hsorted IH Hall]; intros lo hi Hin; simpl; [lia|].
  destruct (Hin l r (or_introl eq_refl)) as (Hlo & Hlr & Hhi).
  assert (Hrest : (length spans <= hi - r)%nat).
  { apply IH. intros l' r' Hin'.
    destruct (Hin l' r' (or_intror Hin')) as (_ & Hlr' & Hhi').
    rewrite Forall_forall in Hall. specialize (Hall (l', r') Hin'). simpl in Hall.
    lia. }
  lia.
Qed.

Lemma reported_count (content N : list byte) (cur : nat) (spans : list (nat * nat)) :
  N <> [] -> reported content N cur spans -> (length spans <= length content)%nat.
Proof.
  intros Hne (Hsorted & Hin & _).
  assert (Hpos : (0 < length N)%nat) by (destruct N; [congruence | simpl; lia]).
  rewrite <- (Nat.sub_0_r (length content)).
  apply sorted_spans_bound; [exact Hsorted|].
  intros l r Hlr. destruct (Hin l r Hlr) as (((_ & Hr) & _) & _ & _ & q & Hlq & Hqr & _).
  lia.
Qed.



(** For a pattern that is not empty and holds neither a newline nor a NUL
    byte, and with a matcher that returns the first occurrence at every
    cursor, mygrep ends; the lines it writes, or the count it prints, are
    those of the physical lines that hold an occurrence, each once and in the
    order of the file. *)
Lemma mygrep_spec (memmem : ptr -> Z -> ptr -> Z -> res (option Z))
      (strstr : ptr -> ptr -> res (option Z))
      (fuel : nat) (algorithm : Algorithm) (display : Display)
      (pattern content : list byte) :
  content <> [] -> fits content -> pattern <> [] ->
  (forall i, (i < length pattern)%nat ->
             byte_at pattern i <> NEWLINE /\ byte_at pattern i <> NUL) ->
  finds_first memmem strstr content pattern (chosen algorithm (len pattern)) ->
  (length content < fuel)%nat ->
  exists spans,
    reported content pattern 0 spans /\
    mygrep memmem strstr fuel algorithm display pattern content
    = Ok (mkReport (if u32 (Z.of_nat (length spans)) =? 0 then 1 else 0)
                   (lines_of content display spans)
                   (match display with
                    | ShowCountOnly => Some (u32 (Z.of_nat (length spans)))
                    | ShowLines => None
                    end)).
Proof.
  intros Hcontent Hfit Hpattern Hbytes Halg Hfuel. unfold mygrep.
  assert (Hlen : (0 < length content)%nat) by (destruct content; [congruence | simpl; lia]).
  destruct (Z.eqb_spec (Z.of_nat (length content)) 0) as [E|_]; [lia|].
  unfold strlen. rewrite strlen_from_spec by (intros i Hi; now apply Hbytes).
  cbn [bind]. rewrite Z.add_0_l. fold (chosen algorithm (len pattern)).
  destruct (scan_loop_spec memmem strstr content pattern
                           (chosen algorithm (len pattern)) display Hfit Hpattern
                           (fun i Hi => proj1 (Hbytes i Hi)) Halg fuel 0 0 [])
    as (spans & final & Hrep & Hloop); [lia | now left | lia |].
  exists spans. split; [exact Hrep|].
  change (Z.of_nat 0) with 0 in Hloop. change (u32 0) with 0 in Hloop.
  fold (len content). rewrite Hloop. cbn [bind numHits written].
  rewrite Z.add_0_l. reflexivity.
Qed.

(** An algorithm proved to return the first occurrence, the default choice
    included, is one for mygrep. *)
Lemma sound_algorithm_chosen (memmem : ptr -> Z -> ptr -> Z -> res (option Z))
      (strstr : ptr -> ptr -> res (option Z))
      (content N : list byte) (algorithm : Algorithm) :
  fits content ->
  algorithm = UseBest \/ sound_algorithm algorithm (len N) = true ->
  finds_first memmem strstr content N (chosen algorithm (len N)).
Proof.
  intros Hfit Halg. apply call_matcher_spec; [exact Hfit|].
  unfold chosen. destruct Halg as [->|Hs].
  - destruct (len N <=? 16); reflexivity.
  - destruct algorithm; try exact Hs; discriminate.
Qed.


(** ** The options and the exit codes of mygrep *)

Lemma same_text_spec (a b : list byte) : same_text a b = true <-> a = b.
Proof.
  revert b. induction a as [|x a IH]; intros [|y b]; simpl; try easy.
  rewrite andb_true_iff, byte_eqb_true, IH. split.
  - now intros [-> ->].
  - intros E. injection E as -> ->. now split.
Qed.



(** * The claims *)

(** C1, cross-algorithm parity, fails on the code as it is: in the haystack
    [ab\0abc] the needle [abc] occurs at offset 3 only; searchSimple,
    searchNative, searchKnuthMorrisPratt, searchBoyerMooreHorspool and
    searchBitap return that offset, searchRabinKarp returns NULL. *)
Theorem parity_fails_for_RabinKarp :
  let H := Some after_nul in
  let N := Some (bytes "abc") in
  searchSimple H 6 N 3 = Ok (Some 3) /\
  searchNative H 6 N 3 = Ok (Some 3) /\
  searchKnuthMorrisPratt H 6 N 3 = Ok (Some 3) /\
  searchBoyerMooreHorspool H 6 N 3 = Ok (Some 3) /\
  searchBitap H 6 N 3 = Ok (Some 3) /\
  searchRabinKarp H 6 N 3 = Ok NULL.
Proof. vm_compute. repeat split; reflexivity. Qed.

(** C2, the empty-needle policy, fails on the code as it is: for the empty
    haystack and the empty needle, both NUL-terminated, searchSimpleString
    returns NULL while the four other string variants return the haystack. *)
Theorem empty_needle_in_empty_haystack :
  let H := Some [NUL] in
  let N := Some [NUL] in
  searchSimpleString H N = Ok NULL /\
  searchKnuthMorrisPrattString H N = Ok (Some 0) /\
  searchBoyerMooreHorspoolString H N = Ok (Some 0) /\
  searchBitapString H N = Ok (Some 0) /\
  searchRabinKarpString H N = Ok (Some 0).
Proof. vm_compute. repeat split; reflexivity. Qed.

(** C3, the bounds invariant, fails on the code as it is: searchRabinKarp
    reads the byte behind the haystack, both when it rolls its sum past the
    last window (haystack [ab], needle [ac]) and when it sums a first window
    that begins too close to the end (haystack [ba], needle [ab]). *)
Theorem RabinKarp_reads_past_the_haystack :
  searchRabinKarp (Some (bytes "ab")) 2 (Some (bytes "ac")) 2
  = Fault BadHaystackRead /\
  searchRabinKarp (Some (bytes "ba")) 2 (Some (bytes "ab")) 2
  = Fault BadHaystackRead.
Proof. vm_compute. split; reflexivity. Qed.

(** C4, the capacity of the failure table, fails on the code as it is: for a
    needle of 256 bytes the table has 256 entries and the preparation writes
    the entry of index 256; for a needle of 300 bytes the heap block has 300
    entries and the entry of index 300 is written.  A needle of 255 bytes
    stays inside the local buffer. *)
Theorem KnuthMorrisPratt_table_overflows :
  searchKnuthMorrisPratt (Some (repeat x61 256)) 256 (Some (repeat x61 256)) 256
  = Fault BadTableAccess /\
  searchKnuthMorrisPratt (Some (repeat x61 300)) 300 (Some (repeat x61 300)) 300
  = Fault BadTableAccess /\
  searchKnuthMorrisPratt (Some (repeat x61 255)) 255 (Some (repeat x61 255)) 255
  = Ok (Some 0).
Proof. vm_compute. repeat split; reflexivity. Qed.

(** C5, the NUL dichotomy, fails on the code as it is: five of the six
    length-based matchers find an occurrence that straddles or follows a NUL
    byte, searchRabinKarp gives up at the NUL byte as the string variants do. *)
Theorem RabinKarp_stops_at_NUL :
  let H1 := Some across_nul in
  let N1 := Some (bytes "a" ++ [NUL] ++ bytes "b") in
  let H2 := Some behind_nul in
  let N2 := Some (bytes "ab") in
  (searchSimple H1 4 N1 3 = Ok (Some 1) /\
   searchNative H1 4 N1 3 = Ok (Some 1) /\
   searchKnuthMorrisPratt H1 4 N1 3 = Ok (Some 1) /\
   searchBoyerMooreHorspool H1 4 N1 3 = Ok (Some 1) /\
   searchBitap H1 4 N1 3 = Ok (Some 1) /\
   searchRabinKarp H1 4 N1 3 = Ok NULL) /\
  (searchSimple H2 4 N2 2 = Ok (Some 2) /\
   searchNative H2 4 N2 2 = Ok (Some 2) /\
   searchKnuthMorrisPratt H2 4 N2 2 = Ok (Some 2) /\
   searchBoyerMooreHorspool H2 4 N2 2 = Ok (Some 2) /\
   searchBitap H2 4 N2 2 = Ok (Some 2) /\
   searchRabinKarp H2 4 N2 2 = Ok NULL) /\
  searchSimpleString (Some (behind_nul ++ [NUL])) (Some (bytes "ab" ++ [NUL]))
  = Ok NULL.
Proof. vm_compute. repeat split; reflexivity. Qed.

(** C6 as the specification words it does not hold: the table entry of the
    needle's last byte is not the distance from its rightmost occurrence in
    the needle, which would be zero.  For the needle [ab] the entry of [b] is
    2. *)
Lemma skip_table_of_last_byte :
  ~ (forall (N : list byte) (skip : byte -> Z) (c : byte),
        N <> [] -> bmh_table N (len N) = Ok skip ->
        skip c = distance_to_last N N c).
Proof.
  intros Hall.
  specialize (Hall (bytes "ab") (tbl_upd (fun _ => 2) x61 1) x62).
  assert (E : bmh_table (bytes "ab") (len (bytes "ab")) = Ok (tbl_upd (fun _ => 2) x61 1))
    by reflexivity.
  assert (D : distance_to_last (bytes "ab") (bytes "ab") x62 = 0) by reflexivity.
  assert (T : tbl_upd (fun _ => 2) x61 1 x62 = 2) by reflexivity.
  rewrite D, T in Hall.
  assert (2 = 0 -> False) as Hd by discriminate.
  apply Hd, Hall; [discriminate | exact E].
Qed.

(** C6, amended: for every non-empty needle the table maps each byte value
    to the distance from its rightmost occurrence among the positions before
    the needle's last one to that last position, and to the needle's length
    when the byte occurs at none of them; a window in which the comparison
    from right to left succeeds is returned, any other window is moved by the
    table entry of the haystack byte under the needle's last position; and
    the search returns the first occurrence.  [Hpad] and [Npad] are whatever
    the memory holds behind the haystack and the needle. *)
Theorem Horspool_table_and_search (Hpad Npad H N : list byte) :
  N <> [] -> fits H -> (length N <= length H)%nat ->
  exists skip,
    bmh_table (N ++ Npad) (len N) = Ok skip /\
    (forall c, skip c = distance_to_last N (removelast N) c) /\
    (forall (Hskip : bmh_skip_ok (len N) skip) (p : nat),
        (p + length N <= length H)%nat ->
        let window :=
          bmh_loop (H ++ Hpad) (N ++ Npad) (len N) (len N - 1) skip Hskip in
        let compare :=
          bmh_compare (length N - 1) (H ++ Hpad) (N ++ Npad) (Z.of_nat p) in
        let marker := byte_at H (p + (length N - 1)) in
        (occurs_at H N p ->
         compare = Ok true /\
         window (Z.of_nat p) (len H - Z.of_nat p) = Ok (Some (Z.of_nat p))) /\
        (~ occurs_at H N p ->
         compare = Ok false /\
         window (Z.of_nat p) (len H - Z.of_nat p)
         = window (Z.of_nat p + skip marker) (len H - Z.of_nat p - skip marker))) /\
    exists r,
      searchBoyerMooreHorspool (Some (H ++ Hpad)) (len H) (Some (N ++ Npad)) (len N)
      = found r /\
      first_occurrence H N r.
Proof.
  intros Hne Hfit Hle.
  assert (HfitN : fits N) by (unfold fits, len in *; lia).
  assert (Hpos : (0 < length N)%nat) by (destruct N; [congruence | simpl; lia]).
  destruct (bmh_table_spec Npad N Hne HfitN) as (skip & Htable & Hspec).
  exists skip. split; [exact Htable|]. split; [exact Hspec|]. split.
  - intros Hskip p Hp window compare marker.
    destruct (bmh_compare_occurs Hpad Npad H N p Hne Hp) as (b & Hb & Hiff).
    fold compare in Hb.
    assert (Hstep : window (Z.of_nat p) (len H - Z.of_nat p) =
                    if b then Ok (Some (Z.of_nat p))
                    else window (Z.of_nat p + skip marker)
                                (len H - Z.of_nat p - skip marker)).
    { unfold window. rewrite bmh_loop_eq. unfold len.
      destruct (Z.leb_spec (Z.of_nat (length N))
                           (Z.of_nat (length H) - Z.of_nat p)) as [_|Hgt]; [|lia].
      replace (Z.to_nat (Z.of_nat (length N) - 1)) with (length N - 1)%nat by lia.
      fold compare. rewrite Hb. cbn [bind]. destruct b; [reflexivity|].
      replace (Z.of_nat p + (Z.of_nat (length N) - 1))
        with (Z.of_nat (p + (length N - 1))) by lia.
      unfold rdH. rewrite rd_in by lia. cbn [bind]. fold marker.
      pose proof (Hskip marker) as Hm. unfold len in Hm.
      rewrite size_sub_small by (unfold fits, len in Hfit; lia).
      reflexivity. }
    split; intros Hocc.
    + assert (b = true) as -> by now apply Hiff.
      split; [exact Hb | exact Hstep].
    + assert (b = false) as ->.
      { destruct b; [|reflexivity]. exfalso. apply Hocc. now apply Hiff. }
      split; [exact Hb | exact Hstep].
  - now apply searchBoyerMooreHorspool_first.
Qed.

Lemma Horspool_table_and_search_witness :
  bytes "wor" <> [] /\ fits (bytes "hello world") /\
  (length (bytes "wor") <= length (bytes "hello world"))%nat /\
  exists skip,
    bmh_table (bytes "wor") 3 = Ok skip /\
    skip x6f = 1 /\ skip x72 = 3 /\ skip x68 = 3 /\
    exists r,
      searchBoyerMooreHorspool (Some (bytes "hello world")) 11 (Some (bytes "wor")) 3
      = found r /\
      first_occurrence (bytes "hello world") (bytes "wor") r.
Proof.
  assert (H1 : bytes "wor" <> []) by discriminate.
  assert (H2 : fits (bytes "hello world")) by reflexivity.
  assert (H3 : (length (bytes "wor") <= length (bytes "hello world"))%nat)
    by (vm_compute; lia).
  split; [exact H1|]. split; [exact H2|]. split; [exact H3|].
  destruct (Horspool_table_and_search [] [] (bytes "hello world") (bytes "wor") H1 H2 H3)
    as (skip & Htable & Hspec & _ & Hsearch).
  exists skip. split; [exact Htable|].
  rewrite !Hspec. repeat split; try reflexivity. exact Hsearch.
Defined.

(** C7: a needle longer than [8 * sizeof(int) - 1] bytes makes searchBitap
    return what searchNative returns and searchBitapString what
    searchSimpleString returns, whatever the other arguments are; a needle
    within the limit makes searchBitap return the first occurrence, and NULL
    when there is none. *)
Theorem Bitap_delegates_or_is_exact :
  MaxBitWidth = 8 * sizeof_int - 1 /\
  (forall (haystack needle : ptr) (haystackLength needleLength : Z),
      needleLength > MaxBitWidth ->
      searchBitap haystack haystackLength needle needleLength
      = searchNative haystack haystackLength needle needleLength) /\
  (forall (haystack : ptr) (n : mem) (needleLength : Z),
      strlen BadNeedleRead n = Ok needleLength ->
      needleLength > MaxBitWidth ->
      searchBitapString haystack (Some n) = searchSimpleString haystack (Some n)) /\
  (forall Hpad Npad H N : list byte,
      len N <= MaxBitWidth -> (length N <= length H)%nat ->
      exists r,
        searchBitap (Some (H ++ Hpad)) (len H) (Some (N ++ Npad)) (len N) = found r /\
        first_occurrence H N r).
Proof.
  split; [reflexivity|]. split; [|split].
  - intros haystack needle haystackLength needleLength Hlong.
    unfold searchBitap.
    destruct haystack as [h|], needle as [n|]; try reflexivity.
    destruct (haystackLength <? needleLength) eqn:Elt;
      [unfold searchNative; now rewrite Elt|].
    change MaxBitWidth with 31 in *.
    destruct (size_eq0 needleLength) as [Hz|Hp]; [lia|].
    destruct (Z.gtb_spec needleLength 31) as [_|Hle]; [|lia].
    reflexivity.
  - intros haystack n needleLength Hlen Hlong.
    unfold searchBitapString. destruct haystack as [h|]; [|reflexivity].
    rewrite Hlen. cbn [bind]. change MaxBitWidth with 31 in *.
    destruct (size_eq0 needleLength) as [Hz|Hp]; [lia|].
    destruct (Z.gtb_spec needleLength 31) as [_|Hle]; [|lia].
    reflexivity.
  - exact searchBitap_first.
Qed.

Lemma Bitap_delegates_or_is_exact_witness :
  (40 > MaxBitWidth /\
   searchBitap (Some (repeat x61 50)) 50 (Some (repeat x61 40)) 40
   = searchNative (Some (repeat x61 50)) 50 (Some (repeat x61 40)) 40) /\
  (strlen BadNeedleRead (repeat x61 40 ++ [NUL]) = Ok 40 /\
   searchBitapString (Some (repeat x61 50 ++ [NUL])) (Some (repeat x61 40 ++ [NUL]))
   = searchSimpleString (Some (repeat x61 50 ++ [NUL])) (Some (repeat x61 40 ++ [NUL]))) /\
  (len (bytes "lo w") <= MaxBitWidth /\
   (length (bytes "lo w") <= length (bytes "hello world"))%nat /\
   exists r,
     searchBitap (Some (bytes "hello world")) 11 (Some (bytes "lo w")) 4 = found r /\
     first_occurrence (bytes "hello world") (bytes "lo w") r).
Proof.
  destruct Bitap_delegates_or_is_exact as (_ & Hlong & Hstring & Hshort).
  assert (H40 : 40 > MaxBitWidth) by reflexivity.
  assert (Hlen : strlen BadNeedleRead (repeat x61 40 ++ [NUL]) = Ok 40) by reflexivity.
  assert (H4 : len (bytes "lo w") <= MaxBitWidth) by (vm_compute; discriminate).
  assert (Hle : (length (bytes "lo w") <= length (bytes "hello world"))%nat)
    by (vm_compute; lia).
  split; [|split].
  - split; [exact H40|]. now apply Hlong.
  - split; [exact Hlen|]. exact (Hstring _ _ 40 Hlen H40).
  - split; [exact H4|]. split; [exact Hle|].
    exact (Hshort [] [] (bytes "hello world") (bytes "lo w") H4 Hle).
Defined.

(** C8, one hit per line, fails on the code as it is.  For the pattern that
    consists of a newline byte and the file [a\nb], the cursor is put on the
    hit itself, so every further iteration finds the same byte and counts it
    again: after [k + 1] iterations the counter is [k + 1] (modulo [2^32]) and
    the loop never reaches its [break].  For the empty pattern and the file
    [ab], in full mode, the first three iterations write the line [ab] and
    then twice the empty span at the end of the buffer. *)
Theorem hit_is_counted_again
        (memmem : ptr -> Z -> ptr -> Z -> res (option Z))
        (strstr : ptr -> ptr -> res (option Z)) :
  (forall k : nat,
      scan_iter memmem strstr (two_lines ++ [NEWLINE; NUL]) 3 [NEWLINE; NUL] 1
                UseNative ShowCountOnly (S k) (mkScan 0 0 [])
      = Ok (Some (mkScan 1 (u32 (Z.of_nat (S k))) []))) /\
  (forall fuel : nat,
      mygrep memmem strstr fuel UseBest ShowCountOnly [NEWLINE] two_lines
      = Fault OutOfFuel) /\
  scan_iter memmem strstr (bytes "ab" ++ [NEWLINE; NUL]) 2 [NUL] 0
            UseNative ShowLines 3 (mkScan 0 0 [])
  = Ok (Some (mkScan 2 3 [bytes "ab"; []; []])).
Proof.
  assert (Hiter : forall k : nat,
      scan_iter memmem strstr (two_lines ++ [NEWLINE; NUL]) 3 [NEWLINE; NUL] 1
                UseNative ShowCountOnly (S k) (mkScan 0 0 [])
      = Ok (Some (mkScan 1 (u32 (Z.of_nat (S k))) []))).
  { intros k.
    assert (Hfrom : forall (j : nat) (hits : Z),
        scan_iter memmem strstr (two_lines ++ [NEWLINE; NUL]) 3 [NEWLINE; NUL] 1
                  UseNative ShowCountOnly j (mkScan 1 (u32 hits) [])
        = Ok (Some (mkScan 1 (u32 (hits + Z.of_nat j)) []))).
    { induction j as [|j IH]; intros hits.
      - simpl. now rewrite Z.add_0_r.
      - rewrite (scan_iter_S _ _ _ _ _ _ _ _ _ _ _ (step_on_newline _ _ _)).
        rewrite u32_add_idemp, IH. do 4 f_equal. lia. }
    rewrite (scan_iter_S _ _ _ _ _ _ _ _ _ (mkScan 0 0 []) (mkScan 1 (u32 1) []))
      by reflexivity.
    rewrite Hfrom. do 4 f_equal. lia. }
  split; [exact Hiter|]. split; [|reflexivity].
  intros fuel. unfold mygrep.
  change (Z.of_nat (length two_lines) =? 0) with false. cbv iota.
  change (strlen BadNeedleRead ([NEWLINE] ++ [NUL])) with (@Ok Z 1). cbn [bind].
  change (1 <=? 16) with true. cbv iota.
  rewrite scan_loop_never_breaks; [reflexivity|].
  intros [|k].
  - eexists. reflexivity.
  - eexists. apply Hiter.
Qed.

(** C9: on the file [foo\nbar needle baz\nqux] and the pattern [needle],
    mygrep in count-only mode prints the count 1 and no line, and in full
    mode writes the line [bar needle baz] and nothing else; this holds for the
    default algorithm and for each matcher of search.c, and as soon as the
    loop is given the two iterations it takes. *)
Theorem line_scan_scenario
        (memmem : ptr -> Z -> ptr -> Z -> res (option Z))
        (strstr : ptr -> ptr -> res (option Z)) (fuel : nat) :
  Forall (fun a =>
            mygrep memmem strstr (S (S fuel)) a ShowCountOnly (bytes "needle") scenario
            = Ok (mkReport 0 [] (Some 1)) /\
            mygrep memmem strstr (S (S fuel)) a ShowLines (bytes "needle") scenario
            = Ok (mkReport 0 [bytes "bar needle baz"] None))
         own_algorithms.
Proof.
  unfold own_algorithms. repeat constructor; vm_compute; reflexivity.
Qed.

(** C10: for a non-empty needle no longer than the haystack every entry of
    the skip table lies between 1 and the needle's length; so whenever the
    loop test holds, [haystackLength -= skip[marker]] does not wrap around and
    leaves a smaller length, on which the recursion of [bmh_loop] is founded;
    and searchBoyerMooreHorspool returns a pointer or NULL. *)
Theorem Horspool_terminates (Hpad Npad H N : list byte) :
  N <> [] -> fits H -> (length N <= length H)%nat ->
  exists skip,
    bmh_table (N ++ Npad) (len N) = Ok skip /\
    (forall c, 1 <= skip c <= len N) /\
    (forall c haystackLength,
        len N <= haystackLength < SIZE_MOD ->
        size_sub haystackLength (skip c) = haystackLength - skip c /\
        0 <= size_sub haystackLength (skip c) < haystackLength) /\
    exists r,
      searchBoyerMooreHorspool (Some (H ++ Hpad)) (len H) (Some (N ++ Npad)) (len N)
      = Ok r.
Proof.
  intros Hne Hfit Hle.
  assert (HfitN : fits N) by (unfold fits, len in *; lia).
  destruct (bmh_table_spec Npad N Hne HfitN) as (skip & Htable & Hspec).
  assert (Hbnd : forall c, 1 <= skip c <= len N).
  { intros c. rewrite Hspec. now apply distance_to_last_bounds. }
  exists skip. split; [exact Htable|]. split; [exact Hbnd|]. split.
  - intros c haystackLength Hrange. pose proof (Hbnd c) as Hc.
    rewrite size_sub_small by lia. lia.
  - destruct (searchBoyerMooreHorspool_first Hpad Npad H N Hfit Hle) as (r & Hr & _).
    exists (option_map Z.of_nat r). exact Hr.
Qed.

Lemma Horspool_terminates_witness :
  bytes "abcab" <> [] /\ fits (bytes "xxabcabxx") /\
  (length (bytes "abcab") <= length (bytes "xxabcabxx"))%nat /\
  exists skip,
    bmh_table (bytes "abcab") 5 = Ok skip /\
    (forall c, 1 <= skip c <= 5) /\
    exists r,
      searchBoyerMooreHorspool (Some (bytes "xxabcabxx")) 9 (Some (bytes "abcab")) 5
      = Ok r.
Proof.
  assert (H1 : bytes "abcab" <> []) by discriminate.
  assert (H2 : fits (bytes "xxabcabxx")) by reflexivity.
  assert (H3 : (length (bytes "abcab") <= length (bytes "xxabcabxx"))%nat)
    by (vm_compute; lia).
  split; [exact H1|]. split; [exact H2|]. split; [exact H3|].
  destruct (Horspool_terminates [] [] (bytes "xxabcabxx") (bytes "abcab") H1 H2 H3)
    as (skip & Htable & Hbnd & _ & Hret).
  exists skip. split; [exact Htable|]. split; [exact Hbnd | exact Hret].
Defined.

(** * Further properties of the code *)

(** ** The length-based matchers *)

(** X1: searchSimple returns the first occurrence of the needle in the
    [haystackLength] bytes of the haystack, and NULL when there is none, also
    when the needle is longer than the haystack or empty; it reads nothing
    behind the two buffers, whose memory may end there ([Hpad], [Npad]
    arbitrary, the empty list included). *)
Theorem Simple_finds_first_occurrence (Hpad Npad H N : list byte) :
  fits H ->
  exists r,
    searchSimple (Some (H ++ Hpad)) (len H) (Some (N ++ Npad)) (len N) = found r /\
    first_occurrence H N r.
Proof.
  intros Hfit.
  destruct (sound_matchers_agree Hpad Npad H N Hfit) as (r & Hfirst & Hr & _).
  exists r. now split.
Qed.

Lemma Simple_finds_first_occurrence_witness :
  fits (bytes "hello world") /\
  exists r,
    searchSimple (Some (bytes "hello world")) 11 (Some (bytes "wor")) 3 = found r /\
    first_occurrence (bytes "hello world") (bytes "wor") r.
Proof.
  assert (H1 : fits (bytes "hello world")) by reflexivity.
  split; [exact H1|].
  exact (Simple_finds_first_occurrence [] [] (bytes "hello world") (bytes "wor") H1).
Defined.

(** X2: searchNative returns the first occurrence of the needle in the
    [haystackLength] bytes of the haystack, and NULL when there is none; the
    [memchr] and [memcmp] calls it makes stay inside the two buffers. *)
Theorem Native_finds_first_occurrence (Hpad Npad H N : list byte) :
  fits H ->
  exists r,
    searchNative (Some (H ++ Hpad)) (len H) (Some (N ++ Npad)) (len N) = found r /\
    first_occurrence H N r.
Proof.
  intros Hfit.
  destruct (sound_matchers_agree Hpad Npad H N Hfit) as (r & Hfirst & _ & Hr & _).
  exists r. now split.
Qed.

Lemma Native_finds_first_occurrence_witness :
  fits (bytes "abcabcabd") /\
  exists r,
    searchNative (Some (bytes "abcabcabd")) 9 (Some (bytes "abd")) 3 = found r /\
    first_occurrence (bytes "abcabcabd") (bytes "abd") r.
Proof.
  assert (H1 : fits (bytes "abcabcabd")) by reflexivity.
  split; [exact H1|].
  exact (Native_finds_first_occurrence [] [] (bytes "abcabcabd") (bytes "abd") H1).
Defined.

(** X3: for a needle of fewer than 256 bytes searchKnuthMorrisPratt returns
    the first occurrence of the needle in the haystack, and NULL when there
    is none; every access to the failure table and to the two buffers is
    inside them. *)
Theorem KnuthMorrisPratt_finds_first_occurrence (Hpad Npad H N : list byte) :
  len N < MaxLocalMemory ->
  exists r,
    searchKnuthMorrisPratt (Some (H ++ Hpad)) (len H) (Some (N ++ Npad)) (len N)
    = found r /\
    first_occurrence H N r.
Proof.
  intros Hsmall. destruct (Nat.le_gt_cases (length N) (length H)) as [Hle|Hgt].
  - now apply searchKnuthMorrisPratt_first.
  - exists None. split; [|now apply no_occurrence_of_longer].
    unfold searchKnuthMorrisPratt.
    destruct (Z.ltb_spec (len H) (len N)) as [_|Hge]; [reflexivity|].
    unfold len in Hge. lia.
Qed.

Lemma KnuthMorrisPratt_finds_first_occurrence_witness :
  len (bytes "abab") < MaxLocalMemory /\
  exists r,
    searchKnuthMorrisPratt (Some (bytes "abaabab")) 7 (Some (bytes "abab")) 4
    = found r /\
    first_occurrence (bytes "abaabab") (bytes "abab") r.
Proof.
  assert (H1 : len (bytes "abab") < MaxLocalMemory) by reflexivity.
  split; [exact H1|].
  exact (KnuthMorrisPratt_finds_first_occurrence [] [] (bytes "abaabab") (bytes "abab") H1).
Defined.

(** X4: for a needle of 1 to 255 bytes the preparation loop of
    searchKnuthMorrisPratt ends without leaving the table, which then holds
    -1 at index 0 and, at every index [j] from 1 to the needle's length, the
    length of the longest proper border of the needle's first [j] bytes (the
    longest proper prefix that is also a suffix); the preparation loop of
    searchKnuthMorrisPrattString builds the same table for a needle without
    NUL byte. *)
Theorem KnuthMorrisPratt_table_holds_borders (Npad N : list byte) :
  0 < len N < MaxLocalMemory ->
  exists t0 t,
    tbl_set (kmp_alloc (len N)) 0 (-1) = Ok t0 /\
    kmp_prepare (Z.to_nat (len N)) (kmp_fuel (len N)) (N ++ Npad) t0 0 = Ok t /\
    tbl_has t 0 (-1) /\
    (forall j, (1 <= j <= length N)%nat ->
       exists b, tbl_has t j (Z.of_nat b) /\ longest_border N j b) /\
    (nul_free N ->
     forall rest,
       kmpString_prepare (N ++ NUL :: rest) (kmp_fuel (len N)) (N ++ NUL :: rest) t0 0
       = kmp_prepare (Z.to_nat (len N)) (kmp_fuel (len N)) (N ++ NUL :: rest) t0 0).
Proof.
  intros [Hpos Hsmall]. change MaxLocalMemory with 256 in Hsmall.
  unfold len in Hpos, Hsmall.
  pose proof (kmp_alloc_length (len N)) as Hcap.
  destruct (Z.gtb_spec (len N) MaxLocalMemory) as [Hgt|_];
    [change MaxLocalMemory with 256 in Hgt; unfold len in Hgt; lia|].
  exists (list_set (kmp_alloc (len N)) 0 (Some (-1))).
  destruct (kmp_prepare_spec Npad N (S (length N)) ltac:(lia) (length N) 0
                             (list_set (kmp_alloc (len N)) 0 (Some (-1))))
    as (t & Ht & _ & Hok0 & Hok).
  - lia.
  - rewrite length_list_set. lia.
  - apply table_ok_start. lia.
  - exists t. split; [apply tbl_set_first; lia|].
    unfold kmp_fuel, len. rewrite Nat2Z.id. change (Z.of_nat 0) with 0 in Ht.
    split; [exact Ht|]. split; [exact Hok0|]. split; [exact Hok|].
    intros HN rest. now apply kmpString_prepare_eq.
Qed.

Lemma KnuthMorrisPratt_table_holds_borders_witness :
  0 < len (bytes "abab") < MaxLocalMemory /\
  exists t0 t,
    kmp_prepare 4 (kmp_fuel 4) (bytes "abab") t0 0 = Ok t /\
    tbl_has t 0 (-1) /\
    exists b, tbl_has t 4 (Z.of_nat b) /\ longest_border (bytes "abab") 4 b.
Proof.
  assert (H1 : 0 < len (bytes "abab") < MaxLocalMemory) by (split; reflexivity).
  split; [exact H1|].
  destruct (KnuthMorrisPratt_table_holds_borders [] (bytes "abab") H1)
    as (t0 & t & _ & Ht & H0 & Hall & _).
  exists t0, t. split; [exact Ht|]. split; [exact H0|].
  apply Hall. simpl. lia.
Defined.



(** X6: searchBitap returns the first occurrence of the needle in the
    haystack for a needle of any length: by its own scan up to 31 bytes, and
    through searchNative beyond. *)
Theorem Bitap_finds_first_occurrence (Hpad Npad H N : list byte) :
  fits H ->
  exists r,
    searchBitap (Some (H ++ Hpad)) (len H) (Some (N ++ Npad)) (len N) = found r /\
    first_occurrence H N r.
Proof.
  intros Hfit.
  destruct (sound_matchers_agree Hpad Npad H N Hfit) as (r & Hfirst & _ & _ & _ & Hr & _).
  exists r. now split.
Qed.

Lemma Bitap_finds_first_occurrence_witness :
  fits (repeat x61 40 ++ repeat x62 40) /\
  exists r,
    searchBitap (Some (repeat x61 40 ++ repeat x62 40)) 80
                (Some (repeat x61 2 ++ repeat x62 33)) 35 = found r /\
    first_occurrence (repeat x61 40 ++ repeat x62 40)
                     (repeat x61 2 ++ repeat x62 33) r.
Proof.
  assert (H1 : fits (repeat x61 40 ++ repeat x62 40)) by reflexivity.
  split; [exact H1|].
  exact (Bitap_finds_first_occurrence [] [] (repeat x61 40 ++ repeat x62 40)
                                      (repeat x61 2 ++ repeat x62 33) H1).
Defined.

(** X7: on every haystack and needle, NUL bytes included, searchSimple,
    searchNative, searchBoyerMooreHorspool and searchBitap return the same
    result, the first occurrence or NULL, and so does searchKnuthMorrisPratt
    for a needle of fewer than 256 bytes; the result does not depend on what
    the memory holds behind the haystack and the needle. *)
Theorem five_matchers_agree (Hpad Npad H N : list byte) :
  fits H ->
  exists r,
    first_occurrence H N r /\
    searchSimple (Some (H ++ Hpad)) (len H) (Some (N ++ Npad)) (len N) = found r /\
    searchNative (Some (H ++ Hpad)) (len H) (Some (N ++ Npad)) (len N) = found r /\
    searchBoyerMooreHorspool (Some (H ++ Hpad)) (len H) (Some (N ++ Npad)) (len N)
    = found r /\
    searchBitap (Some (H ++ Hpad)) (len H) (Some (N ++ Npad)) (len N) = found r /\
    (len N < MaxLocalMemory ->
     searchKnuthMorrisPratt (Some (H ++ Hpad)) (len H) (Some (N ++ Npad)) (len N)
     = found r).
Proof. exact (sound_matchers_agree Hpad Npad H N). Qed.

Lemma five_matchers_agree_witness :
  fits after_nul /\
  exists r,
    first_occurrence after_nul (bytes "abc") r /\
    searchSimple (Some (after_nul ++ bytes "abc")) 6 (Some (bytes "abc")) 3 = found r /\
    searchNative (Some (after_nul ++ bytes "abc")) 6 (Some (bytes "abc")) 3 = found r /\
    searchBoyerMooreHorspool (Some (after_nul ++ bytes "abc")) 6 (Some (bytes "abc")) 3
    = found r /\
    searchBitap (Some (after_nul ++ bytes "abc")) 6 (Some (bytes "abc")) 3 = found r /\
    searchKnuthMorrisPratt (Some (after_nul ++ bytes "abc")) 6 (Some (bytes "abc")) 3
    = found r.
Proof.
  assert (H1 : fits after_nul) by reflexivity.
  split; [exact H1|].
  destruct (five_matchers_agree (bytes "abc") [] after_nul (bytes "abc") H1)
    as (r & Hfirst & Hs & Hn & Hb & Hp & Hk).
  exists r. repeat (split; [assumption|]). apply Hk. reflexivity.
Defined.

(** X8: on a haystack that holds no NUL byte and whose memory goes on with
    a NUL byte, or with one byte and then a NUL byte as the file buffer of
    mygrep does, searchRabinKarp returns the first occurrence of the needle,
    and NULL when there is none: the sums of the windows are kept up to date,
    equal sums are checked with [memcmp], and no byte behind that terminator
    is read. *)
Theorem RabinKarp_finds_first_occurrence_in_text (Hpad Npad H N : list byte) :
  nul_free H -> terminated Hpad ->
  exists r,
    searchRabinKarp (Some (H ++ Hpad)) (len H) (Some (N ++ Npad)) (len N) = found r /\
    first_occurrence H N r.
Proof. exact (searchRabinKarp_first Hpad Npad H N). Qed.

Lemma RabinKarp_finds_first_occurrence_in_text_witness :
  nul_free (bytes "cab abc") /\ terminated [NEWLINE; NUL] /\
  exists r,
    searchRabinKarp (Some (bytes "cab abc" ++ [NEWLINE; NUL])) 7 (Some (bytes "abc")) 3
    = found r /\
    first_occurrence (bytes "cab abc") (bytes "abc") r.
Proof.
  assert (H1 : nul_free (bytes "cab abc")) by (apply no_nul_spec; reflexivity).
  assert (H2 : terminated [NEWLINE; NUL]) by (right; now exists NEWLINE, []).
  split; [exact H1|]. split; [exact H2|].
  exact (RabinKarp_finds_first_occurrence_in_text
           [NEWLINE; NUL] [] (bytes "cab abc") (bytes "abc") H1 H2).
Defined.
(** ** The string variants *)

(** X9: on two C strings searchSimpleString returns the first occurrence of
    the needle's text in the haystack's text, and NULL when there is none,
    unless both texts are empty; it reads the haystack up to its terminator
    at most and nothing behind the terminators. *)
Theorem SimpleString_finds_first_occurrence (Hrest Nrest H N : list byte) :
  nul_free H -> nul_free N -> N <> [] \/ H <> [] ->
  exists r,
    searchSimpleString (Some (H ++ NUL :: Hrest)) (Some (N ++ NUL :: Nrest))
    = found r /\
    first_occurrence H N r.
Proof. exact (searchSimpleString_first Hrest Nrest H N). Qed.

Lemma SimpleString_finds_first_occurrence_witness :
  nul_free (bytes "hello world") /\ nul_free (bytes "wor") /\
  (bytes "wor" <> [] \/ bytes "hello world" <> []) /\
  exists r,
    searchSimpleString (Some (bytes "hello world" ++ [NUL]))
                       (Some (bytes "wor" ++ [NUL])) = found r /\
    first_occurrence (bytes "hello world") (bytes "wor") r.
Proof.
  assert (H1 : nul_free (bytes "hello world")) by (apply no_nul_spec; reflexivity).
  assert (H2 : nul_free (bytes "wor")) by (apply no_nul_spec; reflexivity).
  assert (H3 : bytes "wor" <> [] \/ bytes "hello world" <> []) by (left; discriminate).
  split; [exact H1|]. split; [exact H2|]. split; [exact H3|].
  exact (SimpleString_finds_first_occurrence
           [] [] (bytes "hello world") (bytes "wor") H1 H2 H3).
Defined.

(** X10: on two C strings, the needle of fewer than 256 bytes,
    searchKnuthMorrisPrattString returns the first occurrence of the needle's
    text in the haystack's text, and NULL when there is none. *)
Theorem KnuthMorrisPrattString_finds_first_occurrence (Hrest Nrest H N : list byte) :
  nul_free H -> nul_free N -> len N < MaxLocalMemory ->
  exists r,
    searchKnuthMorrisPrattString (Some (H ++ NUL :: Hrest))
                                 (Some (N ++ NUL :: Nrest)) = found r /\
    first_occurrence H N r.
Proof. exact (searchKnuthMorrisPrattString_first Hrest Nrest H N). Qed.

Lemma KnuthMorrisPrattString_finds_first_occurrence_witness :
  nul_free (bytes "abaabab") /\ nul_free (bytes "abab") /\
  len (bytes "abab") < MaxLocalMemory /\
  exists r,
    searchKnuthMorrisPrattString (Some (bytes "abaabab" ++ [NUL]))
                                 (Some (bytes "abab" ++ [NUL])) = found r /\
    first_occurrence (bytes "abaabab") (bytes "abab") r.
Proof.
  assert (H1 : nul_free (bytes "abaabab")) by (apply no_nul_spec; reflexivity).
  assert (H2 : nul_free (bytes "abab")) by (apply no_nul_spec; reflexivity).
  assert (H3 : len (bytes "abab") < MaxLocalMemory) by reflexivity.
  split; [exact H1|]. split; [exact H2|]. split; [exact H3|].
  exact (KnuthMorrisPrattString_finds_first_occurrence
           [] [] (bytes "abaabab") (bytes "abab") H1 H2 H3).
Defined.

(** X11: on two C strings searchBoyerMooreHorspoolString returns the first
    occurrence of the needle's text in the haystack's text, and NULL when
    there is none: it measures both with [strlen] and hands them to
    searchBoyerMooreHorspool. *)
Theorem BoyerMooreHorspoolString_finds_first_occurrence (Hrest Nrest H N : list byte) :
  nul_free H -> nul_free N -> fits H ->
  exists r,
    searchBoyerMooreHorspoolString (Some (H ++ NUL :: Hrest))
                                   (Some (N ++ NUL :: Nrest)) = found r /\
    first_occurrence H N r.
Proof. exact (searchBoyerMooreHorspoolString_first Hrest Nrest H N). Qed.

Lemma BoyerMooreHorspoolString_finds_first_occurrence_witness :
  nul_free (bytes "hello world") /\ nul_free (bytes "wor") /\
  fits (bytes "hello world") /\
  exists r,
    searchBoyerMooreHorspoolString (Some (bytes "hello world" ++ [NUL]))
                                   (Some (bytes "wor" ++ [NUL])) = found r /\
    first_occurrence (bytes "hello world") (bytes "wor") r.
Proof.
  assert (H1 : nul_free (bytes "hello world")) by (apply no_nul_spec; reflexivity).
  assert (H2 : nul_free (bytes "wor")) by (apply no_nul_spec; reflexivity).
  assert (H3 : fits (bytes "hello world")) by reflexivity.
  split; [exact H1|]. split; [exact H2|]. split; [exact H3|].
  exact (BoyerMooreHorspoolString_finds_first_occurrence
           [] [] (bytes "hello world") (bytes "wor") H1 H2 H3).
Defined.

(** X12: on two C strings searchBitapString returns the first occurrence of
    the needle's text in the haystack's text, and NULL when there is none,
    for a needle of any length: by its own scan up to 31 bytes, and through
    searchSimpleString beyond. *)
Theorem BitapString_finds_first_occurrence (Hrest Nrest H N : list byte) :
  nul_free H -> nul_free N ->
  exists r,
    searchBitapString (Some (H ++ NUL :: Hrest)) (Some (N ++ NUL :: Nrest))
    = found r /\
    first_occurrence H N r.
Proof. exact (searchBitapString_first Hrest Nrest H N). Qed.

Lemma BitapString_finds_first_occurrence_witness :
  nul_free (bytes "hello world") /\ nul_free (bytes "lo w") /\
  exists r,
    searchBitapString (Some (bytes "hello world" ++ [NUL]))
                      (Some (bytes "lo w" ++ [NUL])) = found r /\
    first_occurrence (bytes "hello world") (bytes "lo w") r.
Proof.
  assert (H1 : nul_free (bytes "hello world")) by (apply no_nul_spec; reflexivity).
  assert (H2 : nul_free (bytes "lo w")) by (apply no_nul_spec; reflexivity).
  split; [exact H1|]. split; [exact H2|].
  exact (BitapString_finds_first_occurrence
           [] [] (bytes "hello world") (bytes "lo w") H1 H2).
Defined.

(** X13: on two C strings searchRabinKarpString returns the first
    occurrence of the needle's text in the haystack's text, and NULL when
    there is none; a window that only has the sum of the needle is turned
    down by [memcmp]. *)
Theorem RabinKarpString_finds_first_occurrence (Hrest Nrest H N : list byte) :
  nul_free H -> nul_free N ->
  exists r,
    searchRabinKarpString (Some (H ++ NUL :: Hrest)) (Some (N ++ NUL :: Nrest))
    = found r /\
    first_occurrence H N r.
Proof. exact (searchRabinKarpString_first Hrest Nrest H N). Qed.

Lemma RabinKarpString_finds_first_occurrence_witness :
  nul_free (bytes "cab abc") /\ nul_free (bytes "abc") /\
  exists r,
    searchRabinKarpString (Some (bytes "cab abc" ++ [NUL]))
                          (Some (bytes "abc" ++ [NUL])) = found r /\
    first_occurrence (bytes "cab abc") (bytes "abc") r.
Proof.
  assert (H1 : nul_free (bytes "cab abc")) by (apply no_nul_spec; reflexivity).
  assert (H2 : nul_free (bytes "abc")) by (apply no_nul_spec; reflexivity).
  split; [exact H1|]. split; [exact H2|].
  exact (RabinKarpString_finds_first_occurrence
           [] [] (bytes "cab abc") (bytes "abc") H1 H2).
Defined.

(** X14: on two C strings that are not both empty, each string variant
    returns what its length-based sibling returns when it is given the two
    lengths that [strlen] measures (for Knuth-Morris-Pratt: with a needle of
    fewer than 256 bytes). *)
Theorem string_variants_agree_with_length_variants (Hrest Nrest H N : list byte) :
  nul_free H -> nul_free N -> fits H -> N <> [] \/ H <> [] ->
  let haystack := Some (H ++ NUL :: Hrest) in
  let needle := Some (N ++ NUL :: Nrest) in
  strlen BadHaystackRead (H ++ NUL :: Hrest) = Ok (len H) /\
  strlen BadNeedleRead (N ++ NUL :: Nrest) = Ok (len N) /\
  searchSimpleString haystack needle = searchSimple haystack (len H) needle (len N) /\
  searchBoyerMooreHorspoolString haystack needle
  = searchBoyerMooreHorspool haystack (len H) needle (len N) /\
  searchBitapString haystack needle = searchBitap haystack (len H) needle (len N) /\
  searchRabinKarpString haystack needle
  = searchRabinKarp haystack (len H) needle (len N) /\
  (len N < MaxLocalMemory ->
   searchKnuthMorrisPrattString haystack needle
   = searchKnuthMorrisPratt haystack (len H) needle (len N)).
Proof.
  intros HH HN Hfit Hsome haystack needle. unfold haystack, needle.
  destruct (sound_matchers_agree (NUL :: Hrest) (NUL :: Nrest) H N Hfit)
    as (r & Hfirst & Hsimple & _ & Hbmh & Hbitap & Hkmp).
  assert (Hsame : forall r', first_occurrence H N r' -> found r' = found r).
  { intros r' Hr'. f_equal. exact (first_occurrence_unique H N r' r Hr' Hfirst). }
  split; [now apply strlen_spec|]. split; [now apply strlen_spec|].
  split; [|split; [|split; [|split]]].
  - destruct (searchSimpleString_first Hrest Nrest H N HH HN Hsome) as (r' & -> & Hr').
    rewrite Hsimple. now apply Hsame.
  - destruct (searchBoyerMooreHorspoolString_first Hrest Nrest H N HH HN Hfit)
      as (r' & -> & Hr').
    rewrite Hbmh. now apply Hsame.
  - destruct (searchBitapString_first Hrest Nrest H N HH HN) as (r' & -> & Hr').
    rewrite Hbitap. now apply Hsame.
  - destruct (searchRabinKarpString_first Hrest Nrest H N HH HN) as (r' & -> & Hr').
    destruct (searchRabinKarp_first (NUL :: Hrest) (NUL :: Nrest) H N HH)
      as (r'' & -> & Hr''); [left; now exists Hrest|].
    rewrite (Hsame r' Hr'). symmetry. now apply Hsame.
  - intros Hsmall.
    destruct (searchKnuthMorrisPrattString_first Hrest Nrest H N HH HN Hsmall)
      as (r' & -> & Hr').
    rewrite (Hkmp Hsmall). now apply Hsame.
Qed.

Lemma string_variants_agree_with_length_variants_witness :
  nul_free (bytes "hello world") /\ nul_free (bytes "wor") /\
  fits (bytes "hello world") /\
  (bytes "wor" <> [] \/ bytes "hello world" <> []) /\
  searchSimpleString (Some (bytes "hello world" ++ [NUL])) (Some (bytes "wor" ++ [NUL]))
  = searchSimple (Some (bytes "hello world" ++ [NUL])) 11 (Some (bytes "wor" ++ [NUL])) 3 /\
  searchRabinKarpString (Some (bytes "hello world" ++ [NUL])) (Some (bytes "wor" ++ [NUL]))
  = searchRabinKarp (Some (bytes "hello world" ++ [NUL])) 11
                    (Some (bytes "wor" ++ [NUL])) 3.
Proof.
  assert (H1 : nul_free (bytes "hello world")) by (apply no_nul_spec; reflexivity).
  assert (H2 : nul_free (bytes "wor")) by (apply no_nul_spec; reflexivity).
  assert (H3 : fits (bytes "hello world")) by reflexivity.
  assert (H4 : bytes "wor" <> [] \/ bytes "hello world" <> []) by (left; discriminate).
  split; [exact H1|]. split; [exact H2|]. split; [exact H3|]. split; [exact H4|].
  destruct (string_variants_agree_with_length_variants
              [] [] (bytes "hello world") (bytes "wor") H1 H2 H3 H4)
    as (_ & _ & Hs & _ & _ & Hr & _).
  split; [exact Hs | exact Hr].
Defined.

(** ** Input that is turned down or answered at once *)

(** X15: a null haystack or needle makes each of the eleven matchers return
    NULL, and so does a needle longer than the haystack for the six
    length-based ones; in both cases no byte is read, so this holds whatever
    the two pointers point to, memory of no byte included. *)
Theorem invalid_input_is_turned_down
        (haystack needle : ptr) (haystackLength needleLength : Z) :
  haystack = None \/ needle = None \/ haystackLength < needleLength ->
  (searchSimple haystack haystackLength needle needleLength = Ok NULL /\
   searchNative haystack haystackLength needle needleLength = Ok NULL /\
   searchKnuthMorrisPratt haystack haystackLength needle needleLength = Ok NULL /\
   searchBoyerMooreHorspool haystack haystackLength needle needleLength = Ok NULL /\
   searchBitap haystack haystackLength needle needleLength = Ok NULL /\
   searchRabinKarp haystack haystackLength needle needleLength = Ok NULL) /\
  (haystack = None \/ needle = None ->
   searchSimpleString haystack needle = Ok NULL /\
   searchKnuthMorrisPrattString haystack needle = Ok NULL /\
   searchBoyerMooreHorspoolString haystack needle = Ok NULL /\
   searchBitapString haystack needle = Ok NULL /\
   searchRabinKarpString haystack needle = Ok NULL).
Proof.
  intros Hbad. split.
  - unfold searchSimple, searchNative, searchKnuthMorrisPratt,
      searchBoyerMooreHorspool, searchBitap, searchRabinKarp.
    destruct haystack as [h|]; [|repeat split; reflexivity].
    destruct needle as [n|]; [|repeat split; reflexivity].
    destruct Hbad as [Hh|[Hn|Hlt]]; [discriminate | discriminate |].
    destruct (Z.ltb_spec haystackLength needleLength) as [_|Hge]; [|lia].
    repeat split; reflexivity.
  - clear Hbad. intros Hbad.
    unfold searchSimpleString, searchKnuthMorrisPrattString,
      searchBoyerMooreHorspoolString, searchBitapString, searchRabinKarpString.
    destruct haystack as [h|]; [|repeat split; reflexivity].
    destruct needle as [n|]; [|repeat split; reflexivity].
    destruct Hbad as [Hh|Hn]; discriminate.
Qed.

Lemma invalid_input_is_turned_down_witness :
  (2 < 3 /\
   searchSimple (Some []) 2 (Some []) 3 = Ok NULL /\
   searchRabinKarp (Some []) 2 (Some []) 3 = Ok NULL) /\
  searchBitapString None (Some (bytes "ab" ++ [NUL])) = Ok NULL.
Proof.
  assert (H1 : 2 < 3) by reflexivity.
  destruct (invalid_input_is_turned_down (Some []) (Some []) 2 3
                                         (or_intror (or_intror H1)))
    as [(Hs & _ & _ & _ & _ & Hr) _].
  destruct (invalid_input_is_turned_down None (Some (bytes "ab" ++ [NUL])) 0 0
                                         (or_introl eq_refl))
    as [_ Hstr].
  destruct (Hstr (or_introl eq_refl)) as (_ & _ & _ & Hb & _).
  split; [|exact Hb]. split; [exact H1|]. split; [exact Hs | exact Hr].
Defined.

(** X16: with [needleLength = 0] each of the six length-based matchers
    returns the haystack pointer itself, for every haystack length below
    [2^64 - 1] and without reading a byte; searchSimple gets there through
    the wrap-around of [haystackLength - (needleLength - 1)]. *)
Theorem empty_needle_is_found_at_the_start (h n : mem) (haystackLength : Z) :
  0 <= haystackLength < SIZE_MOD - 1 ->
  searchSimple (Some h) haystackLength (Some n) 0 = Ok (Some 0) /\
  searchNative (Some h) haystackLength (Some n) 0 = Ok (Some 0) /\
  searchKnuthMorrisPratt (Some h) haystackLength (Some n) 0 = Ok (Some 0) /\
  searchBoyerMooreHorspool (Some h) haystackLength (Some n) 0 = Ok (Some 0) /\
  searchBitap (Some h) haystackLength (Some n) 0 = Ok (Some 0) /\
  searchRabinKarp (Some h) haystackLength (Some n) 0 = Ok (Some 0).
Proof. exact (empty_needle_with_length h n haystackLength). Qed.

Lemma empty_needle_is_found_at_the_start_witness :
  0 <= 0 < SIZE_MOD - 1 /\
  searchSimple (Some []) 0 (Some []) 0 = Ok (Some 0) /\
  searchRabinKarp (Some []) 0 (Some []) 0 = Ok (Some 0).
Proof.
  assert (H1 : 0 <= 0 < SIZE_MOD - 1) by (split; [discriminate | reflexivity]).
  split; [exact H1|].
  destruct (empty_needle_is_found_at_the_start [] [] 0 H1) as (Hs & _ & _ & _ & _ & Hr).
  split; [exact Hs | exact Hr].
Defined.
(** ** mygrep *)



(** X18: under the same conditions and for a file of fewer than [2^32]
    bytes, the exit code of mygrep is 0 when the pattern occurs in the file
    and 1 when it does not. *)
Theorem mygrep_exit_code_tells_occurrence
        (memmem : ptr -> Z -> ptr -> Z -> res (option Z))
        (strstr : ptr -> ptr -> res (option Z))
        (fuel : nat) (algorithm : Algorithm) (display : Display)
        (pattern content : list byte) :
  content <> [] -> len content < UINT_MOD -> pattern <> [] ->
  (forall i, (i < length pattern)%nat ->
             byte_at pattern i <> NEWLINE /\ byte_at pattern i <> NUL) ->
  algorithm = UseBest \/ sound_algorithm algorithm (len pattern) = true ->
  (length content < fuel)%nat ->
  exists r,
    mygrep memmem strstr fuel algorithm display pattern content = Ok r /\
    ((exit_code r = 0 /\ exists q, occurs_at content pattern q) \/
     (exit_code r = 1 /\ forall q, ~ occurs_at content pattern q)).
Proof.
  intros Hcontent Hsmall Hpattern Hbytes Halg Hfuel.
  assert (Hfit : fits content).
  { unfold fits, len, UINT_MOD, SIZE_MOD in *. lia. }
  destruct (mygrep_spec memmem strstr fuel algorithm display pattern content
                        Hcontent Hfit Hpattern Hbytes
                        (sound_algorithm_chosen memmem strstr content pattern
                                                algorithm Hfit Halg) Hfuel)
    as (spans & Hrep & Hrun).
  eexists. split; [exact Hrun|]. cbn [exit_code].
  pose proof (reported_count content pattern 0 spans Hpattern Hrep) as Hcount.
  destruct Hrep as (_ & Hin & Hcover).
  destruct spans as [|[l r] spans].
  - right. split; [reflexivity|]. intros q Hq.
    destruct (Hcover q ltac:(lia) Hq) as (l & r & [] & _).
  - left. split.
    + unfold u32. rewrite Z.mod_small by (unfold len in Hsmall; simpl length in *; lia).
      destruct (Z.eqb_spec (Z.of_nat (length ((l, r) :: spans))) 0) as [E|_];
        [simpl length in E; lia | reflexivity].
    + destruct (Hin l r (or_introl eq_refl)) as (_ & _ & _ & q & _ & _ & Hq).
      now exists q.
Qed.

Lemma mygrep_exit_code_tells_occurrence_witness :
  scenario <> [] /\ len scenario < UINT_MOD /\ bytes "needle" <> [] /\
  (forall i, (i < length (bytes "needle"))%nat ->
             byte_at (bytes "needle") i <> NEWLINE /\
             byte_at (bytes "needle") i <> NUL) /\
  (UseBitap = UseBest \/ sound_algorithm UseBitap (len (bytes "needle")) = true) /\
  (length scenario < 23)%nat /\
  exists r,
    mygrep no_memmem no_strstr 23 UseBitap ShowCountOnly (bytes "needle") scenario
    = Ok r /\
    ((exit_code r = 0 /\ exists q, occurs_at scenario (bytes "needle") q) \/
     (exit_code r = 1 /\ forall q, ~ occurs_at scenario (bytes "needle") q)).
Proof.
  assert (H1 : scenario <> []) by discriminate.
  assert (H2 : len scenario < UINT_MOD) by reflexivity.
  assert (H3 : bytes "needle" <> []) by discriminate.
  assert (H4 : forall i, (i < length (bytes "needle"))%nat ->
                         byte_at (bytes "needle") i <> NEWLINE /\
                         byte_at (bytes "needle") i <> NUL).
  { intros i Hi. change (length (bytes "needle")) with 6%nat in Hi.
    do 6 (destruct i as [|i]; [split; discriminate|]). lia. }
  assert (H5 : UseBitap = UseBest \/ sound_algorithm UseBitap (len (bytes "needle")) = true)
    by now right.
  assert (H6 : (length scenario < 23)%nat) by (vm_compute; lia).
  split; [exact H1|]. split; [exact H2|]. split; [exact H3|]. split; [exact H4|].
  split; [exact H5|]. split; [exact H6|].
  exact (mygrep_exit_code_tells_occurrence
           no_memmem no_strstr 23 UseBitap ShowCountOnly (bytes "needle") scenario
           H1 H2 H3 H4 H5 H6).
Defined.








(** X23: with four arguments behind the name of the program, the last one
    is only ever compared with [-c]: it is never turned down, and it changes
    neither the algorithm nor the error that the first three lead to; the
    count-only mode is on exactly when the third or the fourth argument is
    [-c]. *)
Theorem fifth_argument_only_switches_count (argv : list (list byte)) :
  length argv = 5%nat ->
  match parse_options argv, parse_options (firstn 4 argv) with
  | inl code, inl code' => code = code'
  | inr (algorithm, display), inr (algorithm', display') =>
      algorithm = algorithm' /\
      (display' = ShowCountOnly <-> nth 3 argv [] = bytes "-c") /\
      (display = ShowCountOnly <->
       nth 3 argv [] = bytes "-c" \/ nth 4 argv [] = bytes "-c")
  | _, _ => False
  end.
Proof.
  intros Hlen.
  destruct argv as [|a0 [|a1 [|a2 [|a3 [|a4 [|a5 argv]]]]]]; try discriminate.
  unfold parse_options. cbn [length firstn nth].
  change (Z.of_nat 5) with 5. change (Z.of_nat 4) with 4. cbn [Z.ltb Z.gtb Z.geb Z.eqb Z.compare Pos.compare Pos.compare_cont Pos.eqb orb andb].
  cbv zeta.
  pose proof (same_text_spec a4 (bytes "-c")) as H4.
  pose proof (same_text_spec a3 (bytes "-c")) as H3.
  destruct (same_text a3 (bytes "-c")) eqn:E3;
    destruct (same_text a4 (bytes "-c")) eqn:E4;
    repeat match goal with
           | |- context [if ?c then inr _ else _] => destruct c eqn:?
           end;
    try reflexivity;
    try solve [exfalso; apply same_text_spec in E3; subst a3;
               repeat match goal with
                      | H : (_ || _) = true |- _ =>
                          apply orb_true_iff in H; destruct H
                      | H : same_text (bytes "-c") _ = true |- _ =>
                          vm_compute in H; discriminate H
                      end];
    intuition congruence.
Qed.

Lemma fifth_argument_only_switches_count_witness :
  length [bytes "./mygrep"; bytes "needle"; bytes "file"; bytes "-c"; bytes "--kmp"]
  = 5%nat /\
  parse_options [bytes "./mygrep"; bytes "needle"; bytes "file"; bytes "-c"; bytes "--kmp"]
  = inr (UseBest, ShowCountOnly) /\
  UseBest = UseBest /\
  (ShowCountOnly = ShowCountOnly <-> bytes "-c" = bytes "-c") /\
  (ShowCountOnly = ShowCountOnly <->
   bytes "-c" = bytes "-c" \/ bytes "--kmp" = bytes "-c").
Proof.
  assert (H1 : length [bytes "./mygrep"; bytes "needle"; bytes "file"; bytes "-c";
                       bytes "--kmp"] = 5%nat) by reflexivity.
  split; [exact H1|]. split; [reflexivity|].
  exact (fifth_argument_only_switches_count
           [bytes "./mygrep"; bytes "needle"; bytes "file"; bytes "-c"; bytes "--kmp"]
           H1).
Defined.
